(** * merkle-tree: fixed-size Merkle tree (merkle.hpp, version 1.1)

    A shallow embedding of [merkle::calc_tree_size], [TreeBase] and
    [FixedSizeTree] together with the helpers of merkle_utils.hpp and
    bytes_concat.hpp, and the properties of the tree that the specification
    states.

    Integers are modelled as [Z] with the wrap-around of the C++ type written
    out: [uint64_t] and [size_t] are 64 bits wide, [unsigned int] is 32 bits
    wide (LP64).  The flattened storage [m_data] is a list addressed with
    [!!] and [<[_:=_]>]; an access outside the array is undefined behaviour in
    C++ and yields [None] here, as does a loop that never leaves, and as
    does a call of a member template that has no instantiation for its
    arguments (the compiler refuses the program). *)

From Stdlib Require Import ZArith Lia ZifyNat List.
From Stdlib Require Import Strings.Byte Strings.String.
From stdpp Require Import base decidable option list numbers.

Local Open Scope Z_scope.

(** ** Machine integers *)

Module Machine.

Definition UINT64_MOD : Z := 2 ^ 64.
Definition UINT32_MOD : Z := 2 ^ 32.

(** Conversion to [uint64_t] / [size_t]. *)
Definition u64 (z : Z) : Z := z mod UINT64_MOD.

(** Conversion to [unsigned int]. *)
Definition u32 (z : Z) : Z := z mod UINT32_MOD.

(** [(size_t)-1], the value [find_leaf] returns for missing data. *)
Definition SIZE_MAX : Z := u64 (-1).

(** The largest [int]. *)
Definition INT_MAX : Z := 2 ^ 31 - 1.

(** [__builtin_clzll]: the number of leading zero bits of a 64-bit value,
    scanning from bit 63 downwards.  The builtin is undefined at 0. *)
Fixpoint clz_from (bits : nat) (x : Z) : Z :=
  match bits with
  | O => 0
  | S b => if Z.testbit x (Z.of_nat b) then 0 else 1 + clz_from b x
  end.

Definition clzll (x : Z) : Z := clz_from 64 x.

(** [__builtin_popcount]: the number of set bits of its [unsigned int]
    argument. *)
Fixpoint popcount_pos (p : positive) : Z :=
  match p with
  | xH => 1
  | xO q => popcount_pos q
  | xI q => 1 + popcount_pos q
  end.

Definition popcount (x : Z) : Z :=
  match u32 x with
  | Zpos p => popcount_pos p
  | _ => 0
  end.

(** [(bool)e] for an integer expression, as an integer summand. *)
Definition to_bool (e : Z) : Z := if e =? 0 then 0 else 1.

End Machine.

Import Machine.

(** ** merkle_utils.hpp *)

(** [ilog2<size_t>]: [x ? 63 - __builtin_clzll(x) : -1], converted to
    [size_t]. *)
Definition ilog2 (x : Z) : Z :=
  if x =? 0 then u64 (-1) else u64 (63 - clzll x).

(** [round_to_even]: [in + (in & 1)]. *)
Definition round_to_even (n : Z) : Z := u64 (n + Z.land n 1).

(** ** merkle::calc_tree_size

    [for(; leafs_n > 1; leafs_n >>= 1) s += (leafs_n += leafs_n & 1);]
    The loop halves [leafs_n] on every round, so 64 rounds of fuel are
    enough for every 64-bit argument ([calc_tree_size_total]). *)
Fixpoint calc_tree_size_loop (fuel : nat) (s leafs_n : Z) : option Z :=
  if 1 <? leafs_n then
    match fuel with
    | O => None
    | S fuel' =>
        let leafs_n' := u64 (leafs_n + Z.land leafs_n 1) in
        calc_tree_size_loop fuel' (u64 (s + leafs_n')) (Z.shiftr leafs_n' 1)
    end
  else Some s.

Definition calc_tree_size (leafs_n : Z) : option Z :=
  calc_tree_size_loop 64 1 leafs_n.

(** ** TreeBase::height (static)

    [leafs_n ? (ilog2(leafs_n) + (bool)(__builtin_popcount(leafs_n) - 1)) : 0u]
    [__builtin_popcount] takes an [unsigned int]: the [size_t] argument is
    converted, which keeps its low 32 bits. *)
Definition height (leafs_n : Z) : Z :=
  if leafs_n =? 0 then 0
  else u64 (ilog2 leafs_n + to_bool (popcount leafs_n - 1)).

(** The closed form of the specification: 0 for 0 and 1; otherwise
    floor(log2 N), plus 1 if N is not an exact power of two. *)
Definition height_closed_form (n : Z) : Z :=
  if n <=? 1 then 0
  else Z.log2 n + (if n =? 2 ^ Z.log2 n then 0 else 1).

(** The size computation in the specification's words, on unbounded
    integers: start from s = 1; while N > 1, round N up to even, add it to
    s, halve it. *)
Fixpoint tree_size_spec (fuel : nat) (s n : Z) : Z :=
  match fuel with
  | O => s
  | S fuel' =>
      if 1 <? n then
        let n' := n + n mod 2 in tree_size_spec fuel' (s + n') (n' / 2)
      else s
  end.

(** ** bytes_concat.hpp: UnifiedConcatenator

    [concat] starts from an empty [std::vector<char>] and appends every
    argument in order.  Both overloads of [append] push bytes behind the
    destination: the elements of an iterable argument, or the [sizeof]
    bytes of a trivially copyable one.  An argument is given here by the
    bytes it contributes. *)
Module UnifiedConcatenator.

Definition append (dst src : list byte) : list byte := dst ++ src.

Definition concat (args : list (list byte)) : list byte :=
  fold_left append args [].

(** The object representation of a (little-endian) integer of [width]
    bytes, which is what [memcpy] copies for a scalar argument. *)
Fixpoint le_bytes (width : nat) (v : Z) : list byte :=
  match width with
  | O => []
  | S w =>
      match Byte.of_N (Z.to_N (v mod 256)) with
      | Some b => b :: le_bytes w (v / 256)
      | None => []
      end
  end.

(** An [int] argument: [sizeof(int)] = 4. *)
Definition int_bytes (v : Z) : list byte := le_bytes 4 v.

End UnifiedConcatenator.

Import UnifiedConcatenator.

#[global] Instance byte_eq_decision : EqDecision byte := Byte.byte_eq_dec.

(** ** The Hasher template parameter

    A hasher maps a byte container to a [value_type] that can be compared
    with [==], value-initialised ([Hash{}]) and passed to the concatenator
    ([value_bytes] is what [append] copies for it). *)
Class Hasher := {
  value_type : Type;
  value_type_eq :: EqDecision value_type;
  value_init : value_type;
  value_bytes : value_type -> list byte;
  m_hash : list byte -> value_type
}.

(** A data block handed to the tree, as the bytes the concatenator copies
    for it (the characters of a [std::string]). *)
Abbreviation Item := (list byte).

(** Reading and writing a [std::array] or a pointer range of known extent:
    an index outside the object is undefined behaviour. *)
Definition load {A} (a : list A) (i : Z) : option A :=
  if i <? 0 then None else a !! Z.to_nat i.

Definition store {A} (a : list A) (i : Z) (v : A) : option (list A) :=
  if (0 <=? i) && (i <? Z.of_nat (length a))
  then Some (<[Z.to_nat i := v]> a) else None.

Section TreeBase.

Context {H : Hasher}.

Definition leaf_salt : Z := 0.
Definition node_salt : Z := 1.

(** [hash(m_concat(leaf_salt, args...))] *)
Definition leaf_hash (args : list (list byte)) : value_type :=
  m_hash (concat (int_bytes leaf_salt :: args)).

(** [hash(m_concat(node_salt, args...))] *)
Definition node_hash (args : list (list byte)) : value_type :=
  m_hash (concat (int_bytes node_salt :: args)).

(** [for(size_t i{}; i < leafs_n; ++i) if(idata[i] == lhash) return i;
    return (size_t)-1;] with [count] rounds left. *)
Fixpoint find_leaf_from (idata : list value_type) (lhash : value_type)
    (count : nat) (i : Z) : option Z :=
  match count with
  | O => Some SIZE_MAX
  | S c =>
      x ← load idata i;
      if decide (x = lhash) then Some i
      else find_leaf_from idata lhash c (u64 (i + 1))
  end.

End TreeBase.

(** ** FixedSizeTree<Hasher, LEAFS_N>

    [LEAFS_N] is the template argument, [m_data] the flattened array of
    [SIZE = calc_tree_size(LEAFS_N)] hashes. *)
Record FixedSizeTree `{H : Hasher} := mkTree {
  LEAFS_N : Z;
  m_data : list value_type
}.

(** A proof of inclusion: [std::array<std::pair<Hash, bool>, height + 1>]. *)
Definition Proof `{H : Hasher} : Type := list (value_type * bool).

(** What [get_proof] returns: the pair of the leaf hash and the proof
    array. *)
Inductive proof_result `{H : Hasher} : Type :=
  | LeafAndProof (initial : value_type) (proof : Proof).

(** The argument [proof] of [verify_proof], a template parameter: an object
    with [size()] and [operator[]], given by its entries, and with the call
    operator that [proof(proof.size() - 1)] needs, where its type has one.
    [std::array] and [std::vector] have none. *)
Record proof_argument `{H : Hasher} : Type := mkProofArgument {
  proof_entries : Proof;
  proof_call : option (Z -> option (value_type * bool))
}.

(** A [std::array] of entries, as [get_proof] returns it. *)
Definition std_array `{H : Hasher} (entries : Proof) : proof_argument :=
  mkProofArgument _ entries None.

(** An object of a type whose call operator reads the entry at the given
    position, as [operator[]] does. *)
Definition indexed_by_call `{H : Hasher} (entries : Proof) : proof_argument :=
  mkProofArgument _ entries (Some (load entries)).

Section FixedSizeTree.

Context {H : Hasher}.

Definition get_leafs_n (T : FixedSizeTree) : Z := LEAFS_N T.
Definition data (T : FixedSizeTree) : list value_type := m_data T.

(** The storage has the extent the class declares for it. *)
Definition well_sized (T : FixedSizeTree) : Prop :=
  0 <= LEAFS_N T < UINT64_MOD /\
  calc_tree_size (LEAFS_N T) = Some (Z.of_nat (length (m_data T))).

(** [TreeBase::size()] and [TreeBase::height()] of the instance. *)
Definition size (T : FixedSizeTree) : option Z := calc_tree_size (get_leafs_n T).
Definition tree_height (T : FixedSizeTree) : Z := height (get_leafs_n T).

(** [TreeBase::find_leaf], the branch for a pointer [data()]. *)
Definition find_leaf (T : FixedSizeTree) (d : Item) : option Z :=
  let lhash := leaf_hash [d] in
  let leafs_n := get_leafs_n T in
  let idata := data T in
  find_leaf_from idata lhash (Z.to_nat leafs_n) 0.

(** [TreeBase::verify]: [find_leaf(data...) != (size_t)-1]. *)
Definition verify (T : FixedSizeTree) (d : Item) : option bool :=
  idx ← find_leaf T d; Some (negb (idx =? SIZE_MAX)).

(** [TreeBase::has], an alias. *)
Definition has (T : FixedSizeTree) (d : Item) : option bool := verify T d.

(** [get_layer]: the loop
    [for(auto i = height-idx; i; --i, (n>>=1)+=n&1) offset += n;]
    with [i] rounds left.  The step [(n>>=1)+=n&1] is taken as: halve
    [n], then add the parity of the halved value.  That is the reading
    under which the offsets are those of the layout [build] writes and
    under which the repository's test of the proofs over five leaves
    passes (levels of 6, 4 and 2 entries below the root). *)
Fixpoint get_layer_loop (i : nat) (offset n : Z) : Z * Z :=
  match i with
  | O => (offset, n)
  | S i' =>
      let offset' := u64 (offset + n) in
      let n' := Z.shiftr n 1 in
      get_layer_loop i' offset' (u64 (n' + Z.land n' 1))
  end.

(** The result is the offset of the layer from [m_data.data()] and its
    length, [n - !idx]. *)
Definition get_layer (T : FixedSizeTree) (idx : Z) : Z * Z :=
  let N := LEAFS_N T in
  let '(offset, n) :=
    get_layer_loop (Z.to_nat (u64 (height N - idx))) 0 (u64 (N + Z.land N 1)) in
  (offset, u64 (n - (if idx =? 0 then 1 else 0))).

(** [root]: [m_data[SIZE - 1]]. *)
Definition root (T : FixedSizeTree) : option value_type :=
  SIZE ← calc_tree_size (LEAFS_N T);
  load (m_data T) (u64 (SIZE - 1)).

(** *** build *)

(** [size_t it{}; for(auto&& x : ccont) m_data[it++] = leaf_hash(x);] *)
Fixpoint fill_leaves (m : list value_type) (it : Z) (ccont : list Item)
    : option (list value_type) :=
  match ccont with
  | [] => Some m
  | x :: rest =>
      m' ← store m it (leaf_hash [x]);
      fill_leaves m' (u64 (it + 1)) rest
  end.

(** [for(uint64_t i = 0; i < (r-l)>>1; i++)
      m_data[r + i] = node_hash(m_data[(i<<1) + l], m_data[(i<<1) + l + 1]);]
    with [count] rounds left. *)
Fixpoint build_pairs (m : list value_type) (l r : Z) (count : nat) (i : Z)
    : option (list value_type) :=
  match count with
  | O => Some m
  | S c =>
      let k := u64 (u64 (Z.shiftl i 1) + l) in
      a ← load m k;
      b ← load m (u64 (k + 1));
      m' ← store m (u64 (r + i)) (node_hash [value_bytes a; value_bytes b]);
      build_pairs m' l r c (u64 (i + 1))
  end.

(** [if(r & 1) m_data[r++] = m_data[r - 1];]  The right operand of the
    assignment is evaluated first: slot [r - 1] is read before [r] is
    incremented, and the copy lands in the old slot [r]. *)
Definition duplicate_last (m : list value_type) (r : Z)
    : option (list value_type * Z) :=
  if Z.land r 1 =? 0 then Some (m, r)
  else
    v ← load m (u64 (r - 1));
    m' ← store m r v;
    Some (m', u64 (r + 1)).

(** [for(size_t t{}, l{}, r{LEAFS_N}; l < r-1; t = l, l = r, r += ((r - t) >> 1))]
    [t] only carries the old [l] into the update of [r].  A level at least
    halves the one below it, so 64 rounds of fuel cover every terminating
    run; the loop for [LEAFS_N = 0] never leaves ([build_levels_zero]). *)
Fixpoint build_levels (fuel : nat) (m : list value_type) (l r : Z)
    : option (list value_type) :=
  if l <? u64 (r - 1) then
    match fuel with
    | O => None
    | S fuel' =>
        '(m1, r1) ← duplicate_last m r;
        m2 ← build_pairs m1 l r1 (Z.to_nat (Z.shiftr (u64 (r1 - l)) 1)) 0;
        let t := l in
        build_levels fuel' m2 r1 (u64 (r1 + Z.shiftr (u64 (r1 - t)) 1))
    end
  else Some m.

Definition BUILD_FUEL : nat := 64.

(** [build(ccont)]; the result is the tree with its storage overwritten. *)
Definition build (T : FixedSizeTree) (ccont : list Item) : option FixedSizeTree :=
  if LEAFS_N T =? 1 then
    match ccont with
    | x :: _ =>
        m ← store (m_data T) 0 (node_hash [x]);
        Some (mkTree _ (LEAFS_N T) m)
    | [] => None
    end
  else
    m ← fill_leaves (m_data T) 0 ccont;
    m' ← build_levels BUILD_FUEL m 0 (LEAFS_N T);
    Some (mkTree _ (LEAFS_N T) m').

(** *** get_proof *)

(** [for(size_t i{}; i < height; ++i, idx >>= 1)
      proof[i] = std::make_pair(
        get_layer(height - i).first[idx + (idx & 1? -1 : 1)], (bool)(idx & 1));]
    with [count] rounds left. *)
Fixpoint get_proof_loop (T : FixedSizeTree) (height : Z) (count : nat)
    (i idx : Z) (proof : Proof) : option Proof :=
  match count with
  | O => Some proof
  | S c =>
      let odd := negb (Z.land idx 1 =? 0) in
      let k := u64 (idx + (if odd then u64 (-1) else 1)) in
      sibling ← load (m_data T) (u64 ((get_layer T (u64 (height - i))).1 + k));
      proof' ← store proof i (sibling, odd);
      get_proof_loop T height c (u64 (i + 1)) (Z.shiftr idx 1) proof'
  end.

(** For [LEAFS_N == 1] the function has no instantiation: the
    [if constexpr (LEAFS_N == 1) return ...] has no [else], so its
    [return] of the bare array stands beside the [return]s of a pair, and
    the return type cannot be deduced. *)
Definition get_proof (T : FixedSizeTree) (d : Item) : option proof_result :=
  let height := height (LEAFS_N T) in
  let proof : Proof := replicate (Z.to_nat (u64 (height + 1))) (value_init, false) in
  if LEAFS_N T =? 1 then None
  else
    idx ← find_leaf T d;
    if idx =? SIZE_MAX then Some (LeafAndProof value_init proof)
    else
      initial ← load (m_data T) idx;
      proof1 ← get_proof_loop T height (Z.to_nat height) 0 idx proof;
      r ← root T;
      proof2 ← store proof1 (u64 (Z.of_nat (length proof1) - 1)) (r, false);
      Some (LeafAndProof initial proof2).

(** *** verify_proof

    A member function that reads no member: [T] is its object.  The
    asserted root is taken with [proof(proof.size() - 1)], a call of the
    proof object: for an argument without a call operator the function
    has no instantiation.  The loop reads the entries with [proof[i]];
    its counter is an [int] ([auto i = 0]), whose increment must stay
    within [INT_MAX]. *)

(** The body of the loop: [proof[i].second ? node_hash(proof[i].first,
    curr_hash) : node_hash(curr_hash, proof[i].first)]. *)
Definition proof_step (curr_hash : value_type) (e : value_type * bool) : value_type :=
  if e.2 then node_hash [value_bytes e.1; value_bytes curr_hash]
  else node_hash [value_bytes curr_hash; value_bytes e.1].

(** [for(auto i = 0; i < proof.size() - 1; ++i) curr_hash = ...]
    with [count] rounds left. *)
Fixpoint verify_proof_loop (proof : Proof) (count : nat) (i : Z)
    (curr_hash : value_type) : option value_type :=
  match count with
  | O => Some curr_hash
  | S c =>
      e ← load proof i;
      if i <? INT_MAX then verify_proof_loop proof c (i + 1) (proof_step curr_hash e)
      else None
  end.

Definition verify_proof (T : FixedSizeTree) (d : Item) (proof : proof_argument)
    : option bool :=
  let curr_hash := leaf_hash [d] in
  let last := u64 (Z.of_nat (length (proof_entries proof)) - 1) in
  call ← proof_call proof;
  e ← call last;
  let supposed_root := e.1 in
  curr_hash' ← verify_proof_loop (proof_entries proof) (Z.to_nat last) 0 curr_hash;
  Some (bool_decide (curr_hash' = supposed_root)).

End FixedSizeTree.

(** ** The levels of the tree

    The hashes [build] is meant to leave in [m_data], level by level: an
    odd level is evened by repeating its last hash, and every pair of
    neighbours of the evened level gives one hash of the level above. *)
Section Levels.

Context {H : Hasher}.

Definition even_up (L : list value_type) : list value_type :=
  if Nat.odd (length L)
  then L ++ match list.last L with Some x => [x] | None => [] end
  else L.

Fixpoint pair_up (L : list value_type) : list value_type :=
  match L with
  | a :: b :: rest => node_hash [value_bytes a; value_bytes b] :: pair_up rest
  | _ => []
  end.

Definition parent_level (L : list value_type) : list value_type :=
  pair_up (even_up L).

(** The level [i] steps above [L]. *)
Fixpoint level (i : nat) (L : list value_type) : list value_type :=
  match i with
  | O => L
  | S i' => level i' (parent_level L)
  end.

(** The [k] evened levels from [L] upwards, lowest first. *)
Fixpoint lower_levels (k : nat) (L : list value_type) : list (list value_type) :=
  match k with
  | O => []
  | S k' => even_up L :: lower_levels k' (parent_level L)
  end.

(** The flattened tree over the leaf hashes [L] with [k] levels below the
    root level. *)
Definition flat_tree (k : nat) (L : list value_type) : list value_type :=
  List.concat (lower_levels k L) ++ level k L.

(** The position of the neighbour in a pair. *)
Definition sibling (idx : nat) : nat :=
  if Nat.odd idx then (idx - 1)%nat else S idx.

(** The proof entries for position [idx] of the lowest of the levels
    [lvls]: at each level the neighbour and the side it sits on. *)
Fixpoint walk (lvls : list (list value_type)) (idx : nat) : Proof :=
  match lvls with
  | [] => []
  | E :: rest =>
      match E !! sibling idx with
      | Some s => (s, Nat.odd idx) :: walk rest (idx / 2)%nat
      | None => []
      end
  end.

End Levels.

(** [levels_of k n]: a level of [n] hashes lies [k] levels below the root. *)
Definition levels_of (k n : Z) : Prop := 0 <= k /\ 2 ^ k < 2 * n <= 2 ^ (k + 1).

(** The storage of [T] is the flattened tree over the leaf hashes [L0],
    which has [h] levels below its root. *)
Definition flat_built `{H : Hasher} (T : FixedSizeTree) (L0 : list value_type)
    (h : nat) : Prop :=
  2 <= LEAFS_N T < UINT32_MOD /\
  Z.of_nat (length L0) = LEAFS_N T /\
  levels_of (Z.of_nat h) (LEAFS_N T) /\
  m_data T = flat_tree h L0.

(** ** The lengths of the levels

    A level of [n] hashes is stored with [n + n mod 2] entries, and the
    level above it has half as many hashes as it has entries. *)
Definition evened (n : Z) : Z := n + n mod 2.

Definition parent_len (n : Z) : Z := (n + 1) / 2.

(** The number of hashes of the level [i] steps above a level of [n]. *)
Fixpoint level_len (i : nat) (n : Z) : Z :=
  match i with
  | O => n
  | S i' => level_len i' (parent_len n)
  end.

(** The number of entries stored for the [i] levels from a level of [n]
    hashes upwards, which is where the level [i] steps above it starts. *)
Fixpoint layer_start (i : nat) (n : Z) : Z :=
  match i with
  | O => 0
  | S i' => evened n + layer_start i' (parent_len n)
  end.


(** ** Auxiliary notions of the statements *)
Section Notions.

Context {H : Hasher}.

(** The leaf hashes of the items, in order. *)
Definition leaf_hashes (items : list Item) : list value_type :=
  fmap (fun x => leaf_hash [x]) items.

(** What [build] leaves for the tree [T] and the items [items], when there
    are two leaves or more. *)
Definition built_tree (T : FixedSizeTree) (items : list Item) : FixedSizeTree :=
  mkTree _ (LEAFS_N T)
    (flat_tree (Z.to_nat (height (LEAFS_N T))) (leaf_hashes items)).

(** The outcome of the scan over the slots [i .. i + count - 1]: the
    first slot holding [lhash], or [SIZE_MAX] when there is none. *)
Definition first_match (idata : list value_type) (lhash : value_type)
    (i count r : Z) : Prop :=
  (r = SIZE_MAX /\
   forall j, i <= j < i + count -> idata !! Z.to_nat j <> Some lhash)
  \/
  (i <= r < i + count /\ idata !! Z.to_nat r = Some lhash /\
   forall j, i <= j < r -> idata !! Z.to_nat j <> Some lhash).

(** No leaf hash and no node hash is the default hash. *)
Definition never_default : Prop :=
  forall salt x, salt = leaf_salt \/ salt = node_salt ->
                 m_hash (int_bytes salt ++ x) <> value_init.

Definition salted_output (v : value_type) : Prop :=
  exists salt x, (salt = leaf_salt \/ salt = node_salt) /\
                 v = m_hash (int_bytes salt ++ x).

End Notions.

(** ** Hashers

    The hasher of tests/merkle_test.cc:
    [union { uint64_t v; char bytes[sizeof(v)]; } hash{};
     for(auto&& x : cont) hash.v = (hash.v * 31) + x;
     return std::to_array(hash.bytes);]
    The elements are [char]s, promoted with their sign; the result is the
    object representation of [v]. *)
Module TestHasher.

Definition char_value (b : byte) : Z :=
  let n := Z.of_N (Byte.to_N b) in
  if n <? 128 then n else n - 256.

Definition poly31 (cont : list byte) : Z :=
  fold_left (fun v x => u64 (v * 31 + char_value x)) cont 0.

#[export] Instance hasher : Hasher := {|
  value_type := list byte;
  value_init := le_bytes 8 0;
  value_bytes := fun v => v;
  m_hash := fun cont => le_bytes 8 (poly31 cont)
|}.

End TestHasher.

(** A hasher without collisions, to instantiate statements that assume
    one: the hash of a byte string is the string itself. *)
Module IdentityHasher.

#[export] Instance hasher : Hasher := {|
  value_type := list byte;
  value_init := [];
  value_bytes := fun v => v;
  m_hash := fun cont => cont
|}.

End IdentityHasher.

(** The hasher [H] with its hash function replaced by [f]. *)
Definition rehash (H : Hasher) (f : list byte -> @value_type H) : Hasher := {|
  value_type := @value_type H;
  value_type_eq := @value_type_eq H;
  value_init := @value_init H;
  value_bytes := @value_bytes H;
  m_hash := f
|}.

(** The characters of a string literal. *)
Definition str (s : string) : Item := list_byte_of_string s.

(** A tree object before [build]: [m_data] holds [SIZE] indeterminate
    hashes, here [slots]. *)
Definition declared `{H : Hasher} (N : Z) (slots : list value_type) : FixedSizeTree :=
  mkTree _ N slots.
(** ** operator<< of FixedSizeTree

    The stream is the list of the things written to it so far: pieces of
    text as the source spells them, numbers, and hashes (how a hash prints
    is up to its own [operator<<]). *)
Inductive token `{H : Hasher} : Type :=
  | Text (s : string)
  | Number (n : Z)
  | HashValue (v : value_type).

Section Printing.

Context {H : Hasher}.

(** What one layer entry adds to the stream: [os << ldata[j] << "\n"]. *)
Definition entry_tokens (v : value_type) : list token :=
  [HashValue v; Text "\n"].

(** [for(auto j = 0; j < lsz; ++j) os << ldata[j] << "\n";] with [count]
    rounds left.  [ldata] is the offset of the layer in [m_data]; [j] is
    an [int]. *)
Fixpoint print_entries (T : FixedSizeTree) (ldata : Z) (count : nat) (j : Z)
    (os : list token) : option (list token) :=
  match count with
  | O => Some os
  | S c =>
      v ← load (m_data T) (ldata + j);
      if j <? INT_MAX
      then print_entries T ldata c (j + 1) (os ++ entry_tokens v)
      else None
  end.

(** [os << "\nLayer " << (tree.height() - i) << " (size = " << lsz << "):\n"] *)
Definition layer_header (idx lsz : Z) : list token :=
  [Text "\nLayer "; Number idx; Text " (size = "; Number lsz; Text "):\n"].

(** [for(auto i = 0; i <= tree.height(); ++i) { auto [ldata, lsz] =
    tree.get_layer(tree.height() - i); ... }] with [count] rounds left;
    [i] is an [int]. *)
Fixpoint print_layers (T : FixedSizeTree) (count : nat) (i : Z)
    (os : list token) : option (list token) :=
  match count with
  | O => Some os
  | S c =>
      let idx := u64 (tree_height T - i) in
      let '(ldata, lsz) := get_layer T idx in
      os' ← print_entries T ldata (Z.to_nat lsz) 0 (os ++ layer_header idx lsz);
      if i <? INT_MAX then print_layers T c (i + 1) os' else None
  end.

(** [operator<<(os, tree)] *)
Definition operator_lshift (os : list token) (T : FixedSizeTree)
    : option (list token) :=
  print_layers T (Z.to_nat (tree_height T + 1)) 0 (os ++ [Text "Merkle tree:\n"]).

(** What the printing of a built tree is compared with: the hashes stored
    for the level [lvl] of the tree over the leaf hashes [L0], which has
    [h] levels below its root (the root alone at the top, an evened level
    below it), and the tokens of that layer. *)
Definition stored_level (L0 : list value_type) (h lvl : nat) : list value_type :=
  if (lvl =? h)%nat then level h L0 else even_up (level lvl L0).

Definition printed_layer (L0 : list value_type) (h lvl : nat) : list token :=
  layer_header (Z.of_nat (h - lvl)) (Z.of_nat (length (stored_level L0 h lvl)))
    ++ flat_map entry_tokens (stored_level L0 h lvl).

(** The hashes written to a stream, in order. *)
Definition hashes_written (os : list token) : list value_type :=
  omap (fun t => match t with HashValue v => Some v | _ => None end) os.

End Printing.

(** ** bytes_concat.hpp: TrivialConcatenator

    [char bytes[(sizeof(args) + ...)]; uint64_t s{};
     ((memcpy(bytes + s, &args, sizeof(args)), s += sizeof(args)), ...);
     return std::to_array(bytes);]
    An argument is given by its object representation, whose length is its
    [sizeof].  The array starts out with indeterminate contents, here
    copies of the byte [indeterminate].  The sum over an empty pack is
    ill-formed: there is no call without arguments. *)
Module TrivialConcatenator.

(** [memcpy(bytes + s, src, sizeof(src))]: the bytes written must lie
    inside the array. *)
Definition memcpy (bytes : list byte) (s : Z) (src : list byte)
    : option (list byte) :=
  if (0 <=? s) && (s + Z.of_nat (length src) <=? Z.of_nat (length bytes))
  then Some (take (Z.to_nat s) bytes ++ src
               ++ drop (Z.to_nat s + length src) bytes)
  else None.

Fixpoint copy_args (bytes : list byte) (s : Z) (args : list (list byte))
    : option (list byte) :=
  match args with
  | [] => Some bytes
  | a :: rest =>
      bytes' ← memcpy bytes s a;
      copy_args bytes' (u64 (s + Z.of_nat (length a))) rest
  end.

(** [(sizeof(args) + ...)] *)
Definition total_size (args : list (list byte)) : nat :=
  fold_right (fun a n => (length a + n)%nat) 0%nat args.

Definition concat (indeterminate : byte) (args : list (list byte))
    : option (list byte) :=
  match args with
  | [] => None
  | _ => copy_args (replicate (total_size args) indeterminate) 0 args
  end.

End TrivialConcatenator.

(** ** tests/merkle_test.cc

    The helper [operator+] of the tests and the check that the two proof
    tests run for an item [s]:
    [auto v = tree.leaf_hash(s); auto [initial, proof] = tree.get_proof(s);
     auto back = proof.back(); REQUIRE(initial == v);
     for(auto i = 0; i < proof.size()-1; ++i) { auto [curr_hash, dir] = proof[i];
       v = dir? tree.node_hash(curr_hash + v) : tree.node_hash(v + curr_hash); }
     REQUIRE(v == back.first);] *)
Module MerkleTest.

Section Checks.

Context {H : Hasher}.

(** [operator+(lhs, rhs)]: [UnifiedConcatenator::concat(lhs, rhs)]. *)
Definition operator_plus (lhs rhs : value_type) : list byte :=
  concat [value_bytes lhs; value_bytes rhs].

Definition test_step (v : value_type) (e : value_type * bool) : value_type :=
  let '(curr_hash, dir) := e in
  if dir then node_hash [operator_plus curr_hash v]
  else node_hash [operator_plus v curr_hash].

(** The loop of the test, with [count] rounds left; [i] is an [int]. *)
Fixpoint test_loop (proof : Proof) (count : nat) (i : Z) (v : value_type)
    : option value_type :=
  match count with
  | O => Some v
  | S c =>
      e ← load proof i;
      if i <? INT_MAX then test_loop proof c (i + 1) (test_step v e)
      else None
  end.

(** The outcome of the two [REQUIRE]s; the structured binding takes
    the pair that [get_proof] returns. *)
Definition proof_test (T : FixedSizeTree) (s : Item) : option bool :=
  let v := leaf_hash [s] in
  r ← get_proof T s;
  match r with
  | LeafAndProof initial proof =>
      back ← list.last proof;
      v' ← test_loop proof (Z.to_nat (u64 (Z.of_nat (length proof) - 1))) 0 v;
      Some (bool_decide (initial = v) && bool_decide (v' = back.1))
  end.

End Checks.

End MerkleTest.

(** ** example/fs_tree.cc

    The hasher of the example: the same polynomial as in the tests, with
    the [uint64_t] itself as the hash.  The concatenator copies the eight
    bytes of its object representation. *)
Module ExampleHasher.

#[export] Instance hasher : Hasher := {|
  value_type := Z;
  value_init := 0;
  value_bytes := le_bytes 8;
  m_hash := TestHasher.poly31
|}.

End ExampleHasher.

(** ** Collisions

    Two different byte strings among [inputs] with the same hash. *)
Definition collision_among `{H : Hasher} (inputs : list (list byte)) : Prop :=
  exists x y : list byte,
    x ∈ inputs /\ y ∈ inputs /\ x <> y /\ m_hash x = m_hash y.

Section HashedInputs.

Context {H : Hasher}.

(** The byte strings that [build] hashes for the leaves. *)
Definition leaf_inputs (items : list Item) : list (list byte) :=
  (fun x => int_bytes leaf_salt ++ x) <$> items.

(** The byte strings that [build] hashes for the pairs of an evened
    level. *)
Fixpoint pair_inputs (E : list value_type) : list (list byte) :=
  match E with
  | a :: b :: rest =>
      (int_bytes node_salt ++ value_bytes a ++ value_bytes b) :: pair_inputs rest
  | _ => []
  end.

(** The byte strings hashed for the [k] levels above the level [L]. *)
Fixpoint node_inputs (k : nat) (L : list value_type) : list (list byte) :=
  match k with
  | O => []
  | S k' => pair_inputs (even_up L) ++ node_inputs k' (parent_level L)
  end.

(** The byte strings hashed by [build] for a tree over [items] with [k]
    levels below its root. *)
Definition build_inputs (k : nat) (items : list Item) : list (list byte) :=
  leaf_inputs items ++ node_inputs k (leaf_hashes items).

(** The byte string hashed by one step of the fold over a proof, and
    those hashed by the fold over [entries] from the running hash [v]. *)
Definition step_input (v : value_type) (e : value_type * bool) : list byte :=
  int_bytes node_salt
    ++ (if e.2 then value_bytes e.1 ++ value_bytes v
        else value_bytes v ++ value_bytes e.1).

Fixpoint step_inputs (entries : Proof) (v : value_type) : list (list byte) :=
  match entries with
  | [] => []
  | e :: rest => step_input v e :: step_inputs rest (proof_step v e)
  end.

(** The byte strings hashed when the entries are folded from the leaf
    hash of [d]. *)
Definition fold_inputs (entries : Proof) (d : Item) : list (list byte) :=
  (int_bytes leaf_salt ++ d) :: step_inputs entries (leaf_hash [d]).

End HashedInputs.

(** Every hash is copied as [w] bytes, and different hashes as different
    bytes. *)
Definition plain_hashes `{H : Hasher} (w : nat) : Prop :=
  (forall x, length (value_bytes (m_hash x)) = w) /\
  (forall x y, value_bytes (m_hash x) = value_bytes (m_hash y) ->
               m_hash x = m_hash y).

(** [v] is the hash of some byte string. *)
Definition hashed `{H : Hasher} (v : value_type) : Prop :=
  exists x, v = m_hash x.

(** * Properties *)

(** ** Machine arithmetic *)

Section MachineFacts.

Lemma land_1 (n : Z) : Z.land n 1 = n mod 2.
Proof. exact (Z.land_ones n 1 ltac:(lia)). Qed.

Lemma shiftr_1 (n : Z) : Z.shiftr n 1 = n / 2.
Proof. rewrite Z.shiftr_div_pow2 by lia. reflexivity. Qed.

Lemma shiftl_1 (n : Z) : Z.shiftl n 1 = 2 * n.
Proof. rewrite Z.shiftl_mul_pow2 by lia. lia. Qed.

Lemma u64_small (z : Z) : 0 <= z < UINT64_MOD -> u64 z = z.
Proof. intros Hz. unfold u64. apply Z.mod_small. exact Hz. Qed.

Lemma u64_range (z : Z) : 0 <= u64 z < UINT64_MOD.
Proof. unfold u64. apply Z.mod_pos_bound. reflexivity. Qed.

Lemma UINT64_MOD_eq : UINT64_MOD = 18446744073709551616.
Proof. reflexivity. Qed.

Lemma SIZE_MAX_eq : SIZE_MAX = UINT64_MOD - 1.
Proof. reflexivity. Qed.

(** [__builtin_clzll] against the integer logarithm. *)
Lemma clz_from_log2 (bits : nat) (x : Z) :
  0 < x < 2 ^ Z.of_nat bits -> clz_from bits x = Z.of_nat bits - 1 - Z.log2 x.
Proof.
  induction bits as [|b IH]; intros Hx.
  - simpl in Hx. lia.
  - cbn [clz_from].
    assert (Hle : Z.log2 x < Z.of_nat (S b))
      by (apply Z.log2_lt_pow2; [apply Hx|apply Hx]).
    destruct (Z.eq_dec (Z.log2 x) (Z.of_nat b)) as [Heq|Hne].
    + rewrite <- Heq, Z.bit_log2 by lia. lia.
    + rewrite Z.bits_above_log2 by lia.
      rewrite IH; [lia|].
      split; [apply Hx|]. apply Z.log2_lt_pow2; [apply Hx|lia].
Qed.

Lemma ilog2_log2 (x : Z) : 0 < x < UINT64_MOD -> ilog2 x = Z.log2 x.
Proof.
  intros Hx. unfold ilog2, clzll.
  destruct (Z.eqb_spec x 0) as [->|_]; [lia|].
  rewrite (clz_from_log2 64) by exact Hx.
  assert (0 <= Z.log2 x < 64).
  { split; [apply Z.log2_nonneg|]. apply Z.log2_lt_pow2; [lia|apply Hx]. }
  replace (63 - (Z.of_nat 64 - 1 - Z.log2 x)) with (Z.log2 x)
    by (change (Z.of_nat 64) with 64; lia).
  apply u64_small. rewrite UINT64_MOD_eq. lia.
Qed.

Lemma popcount_pos_ge_1 (p : positive) : 1 <= popcount_pos p.
Proof. induction p; cbn [popcount_pos]; lia. Qed.

(** One set bit exactly for the powers of two. *)
Lemma popcount_pos_pow2 (p : positive) :
  popcount_pos p = 1 <-> Z.pos p = 2 ^ Z.log2 (Z.pos p).
Proof.
  induction p as [q IH|q IH|].
  - cbn [popcount_pos]. pose proof (popcount_pos_ge_1 q).
    split; [lia|]. intros Heq. exfalso.
    change (Z.pos q~1) with (2 * Z.pos q + 1) in Heq.
    rewrite Z.log2_succ_double, Z.pow_succ_r in Heq
      by (try apply Z.log2_nonneg; lia).
    lia.
  - cbn [popcount_pos]. rewrite IH.
    change (Z.pos q~0) with (2 * Z.pos q).
    rewrite Z.log2_double, Z.pow_succ_r by (try apply Z.log2_nonneg; lia).
    lia.
  - cbn. tauto.
Qed.

End MachineFacts.

(** ** Height and size *)

Section HeightFacts.

Lemma levels_of_closed_form (n : Z) :
  1 <= n -> levels_of (height_closed_form n) n.
Proof.
  intros Hn. unfold height_closed_form, levels_of.
  destruct (Z.leb_spec n 1) as [Hle|Hgt].
  - assert (n = 1) as -> by lia. cbn. lia.
  - pose proof (Z.log2_spec n ltac:(lia)) as [Hlo Hhi].
    pose proof (Z.log2_nonneg n) as Hnn.
    rewrite Z.pow_succ_r in Hhi by lia.
    destruct (Z.eqb_spec n (2 ^ Z.log2 n)) as [Heq|Hne].
    + rewrite Z.add_0_r, Z.pow_add_r by lia. change (2 ^ 1) with 2.
      assert (0 < 2 ^ Z.log2 n) by (apply Z.pow_pos_nonneg; lia). lia.
    + rewrite !Z.pow_add_r by lia. change (2 ^ 1) with 2. lia.
Qed.

Lemma levels_of_unique (k k' n : Z) :
  levels_of k n -> levels_of k' n -> k = k'.
Proof.
  intros (Hk & Hlo & Hhi) (Hk' & Hlo' & Hhi').
  destruct (Z.lt_trichotomy k k') as [Hlt|[Heq|Hgt]]; [|exact Heq|].
  - assert (2 ^ (k + 1) <= 2 ^ k') by (apply Z.pow_le_mono_r; lia). lia.
  - assert (2 ^ (k' + 1) <= 2 ^ k) by (apply Z.pow_le_mono_r; lia). lia.
Qed.

(** Below 2^32 the bit tricks of [height] compute the closed form. *)
Lemma height_below_2_32 (n : Z) :
  0 <= n < UINT32_MOD -> height n = height_closed_form n.
Proof.
  intros Hn. unfold height.
  destruct (Z.eqb_spec n 0) as [->|Hn0]; [reflexivity|].
  assert (Hn64 : 0 < n < UINT64_MOD).
  { split; [lia|]. eapply Z.lt_trans; [apply Hn|]. reflexivity. }
  rewrite ilog2_log2 by exact Hn64.
  unfold popcount, u32. rewrite Z.mod_small by exact Hn.
  destruct n as [|p|p]; try lia.
  assert (Hlog : 0 <= Z.log2 (Z.pos p) < 32).
  { split; [apply Z.log2_nonneg|]. apply Z.log2_lt_pow2; [lia|apply Hn]. }
  unfold height_closed_form, to_bool.
  pose proof (popcount_pos_pow2 p) as Hpow.
  destruct (Z.leb_spec (Z.pos p) 1) as [Hle|Hgt].
  - assert (p = 1%positive) as -> by lia. reflexivity.
  - destruct (Z.eqb_spec (popcount_pos p - 1) 0) as [H1|H1];
      destruct (Z.eqb_spec (Z.pos p) (2 ^ Z.log2 (Z.pos p))) as [H2|H2];
      try (exfalso; lia);
      apply u64_small; rewrite UINT64_MOD_eq; lia.
Qed.

Lemma height_levels_of (n : Z) :
  1 <= n < UINT32_MOD -> levels_of (height n) n.
Proof.
  intros Hn. rewrite height_below_2_32 by lia.
  apply levels_of_closed_form. lia.
Qed.

Lemma levels_of_bound (k n : Z) :
  levels_of k n -> n < UINT32_MOD -> k <= 32.
Proof.
  intros (Hk & Hlo & _) Hn.
  destruct (Z.le_gt_cases k 32) as [Hle|Hgt]; [exact Hle|exfalso].
  assert (2 ^ 33 <= 2 ^ k) by (apply Z.pow_le_mono_r; lia).
  change UINT32_MOD with (2 ^ 32) in Hn.
  change (2 ^ 33) with (2 * 2 ^ 32) in *. lia.
Qed.

End HeightFacts.

(** ** Level lengths, layer offsets and the tree size *)

Section LayerFacts.

Lemma evened_half (n : Z) : evened n / 2 = parent_len n.
Proof. unfold evened, parent_len. lia. Qed.

Lemma evened_bounds (n : Z) : n <= evened n <= n + 1.
Proof. unfold evened. lia. Qed.

Lemma evened_even (n : Z) : evened n mod 2 = 0.
Proof. unfold evened. lia. Qed.

Lemma parent_len_bounds (n : Z) : 0 <= n -> 0 <= parent_len n <= n.
Proof. unfold parent_len. lia. Qed.

Lemma level_len_nonneg (i : nat) (n : Z) : 0 <= n -> 0 <= level_len i n <= n.
Proof.
  revert n. induction i as [|i IH]; intros n Hn; cbn [level_len]; [lia|].
  pose proof (parent_len_bounds n Hn). specialize (IH (parent_len n)). lia.
Qed.

Lemma layer_start_nonneg (i : nat) (n : Z) : 0 <= n -> 0 <= layer_start i n.
Proof.
  revert n. induction i as [|i IH]; intros n Hn; cbn [layer_start]; [lia|].
  pose proof (parent_len_bounds n Hn). pose proof (evened_bounds n).
  specialize (IH (parent_len n)). lia.
Qed.

Lemma level_len_S (i : nat) (n : Z) :
  level_len (S i) n = parent_len (level_len i n).
Proof. revert n. induction i as [|i IH]; intros n; [reflexivity|]. apply IH. Qed.

(** A layer starts where the layer below it ends. *)
Lemma layer_start_S (i : nat) (n : Z) :
  layer_start (S i) n = layer_start i n + evened (level_len i n).
Proof.
  revert n. induction i as [|i IH]; intros n.
  - cbn. lia.
  - change (layer_start (S (S i)) n)
      with (evened n + layer_start (S i) (parent_len n)).
    rewrite IH. cbn [layer_start level_len]. lia.
Qed.

Lemma layer_start_bound (i : nat) (n : Z) :
  0 <= n -> layer_start i n + evened (level_len i n) <= 2 * n + 2 * Z.of_nat i + 1.
Proof.
  revert n. induction i as [|i IH]; intros n Hn.
  - cbn. pose proof (evened_bounds n). lia.
  - cbn [layer_start level_len].
    pose proof (parent_len_bounds n Hn). pose proof (evened_bounds n).
    specialize (IH (parent_len n)). unfold parent_len in *. lia.
Qed.

Lemma levels_of_parent (k : nat) (n : Z) :
  levels_of (Z.of_nat (S k)) n -> 2 <= n /\ levels_of (Z.of_nat k) (parent_len n).
Proof.
  unfold levels_of, parent_len. rewrite Nat2Z.inj_succ. intros (_ & Hlo & Hhi).
  replace (Z.succ (Z.of_nat k) + 1) with (Z.succ (Z.of_nat k + 1)) in Hhi by lia.
  rewrite !Z.pow_succ_r in * by lia.
  assert (0 < 2 ^ Z.of_nat k) by (apply Z.pow_pos_nonneg; lia).
  rewrite Z.pow_add_r, Z.pow_1_r in * by lia.
  lia.
Qed.

Lemma levels_of_one (n : Z) : levels_of 0 n -> n = 1.
Proof. unfold levels_of. cbn. lia. Qed.

Lemma levels_of_top (k : nat) (n : Z) :
  levels_of (Z.of_nat k) n -> level_len k n = 1.
Proof.
  revert n. induction k as [|k IH]; intros n Hk.
  - apply levels_of_one in Hk. exact Hk.
  - apply levels_of_parent in Hk as [_ Hk]. cbn [level_len]. apply IH, Hk.
Qed.

(** Below the top every level has at least two hashes. *)
Lemma levels_of_below (k i : nat) (n : Z) :
  levels_of (Z.of_nat k) n -> (i < k)%nat -> 2 <= level_len i n.
Proof.
  revert k n. induction i as [|i IH]; intros k n Hk Hi.
  - destruct k as [|k]; [lia|]. apply levels_of_parent in Hk as [Hn _]. exact Hn.
  - destruct k as [|k]; [lia|]. apply levels_of_parent in Hk as [_ Hk].
    cbn [level_len]. apply (IH k); [exact Hk|lia].
Qed.

(** [calc_tree_size]: the entries of all levels below the root, and the
    root. *)
Lemma calc_tree_size_loop_spec (k fuel : nat) (s n : Z) :
  levels_of (Z.of_nat k) n -> (k <= fuel)%nat ->
  0 <= s -> s + 2 * n + 2 * Z.of_nat k < UINT64_MOD ->
  calc_tree_size_loop fuel s n = Some (s + layer_start k n).
Proof.
  revert fuel s n. induction k as [|k IH]; intros fuel s n Hk Hfuel Hs Hbound.
  - apply levels_of_one in Hk. subst n.
    destruct fuel; cbn; f_equal; lia.
  - destruct fuel as [|fuel]; [lia|].
    apply levels_of_parent in Hk as [Hn Hk].
    cbn [calc_tree_size_loop layer_start].
    destruct (Z.ltb_spec 1 n); [|lia].
    rewrite land_1, shiftr_1. change (n + n mod 2) with (evened n).
    pose proof (evened_bounds n). pose proof (parent_len_bounds n ltac:(lia)).
    rewrite UINT64_MOD_eq in Hbound.
    rewrite (u64_small (evened n)) by (rewrite UINT64_MOD_eq; lia).
    rewrite (u64_small (s + evened n)) by (rewrite UINT64_MOD_eq; lia).
    rewrite evened_half, IH; [f_equal; lia|exact Hk|lia|lia|].
    rewrite UINT64_MOD_eq. unfold parent_len in *. lia.
Qed.

(** [get_layer]: the loop walks up from the leaves. *)
Lemma get_layer_loop_spec `{H : Hasher} (i : nat) (off n : Z) :
  0 <= off -> 0 <= n -> off + 2 * n + 2 * Z.of_nat i + 1 < UINT64_MOD ->
  get_layer_loop i off (evened n)
    = (off + layer_start i n, evened (level_len i n)).
Proof.
  revert off n. induction i as [|i IH]; intros off n Hoff Hn Hbound.
  - cbn. f_equal. lia.
  - cbn [get_layer_loop layer_start level_len].
    rewrite shiftr_1, land_1, evened_half.
    pose proof (evened_bounds n). pose proof (parent_len_bounds n Hn).
    rewrite UINT64_MOD_eq in Hbound.
    rewrite (u64_small (off + evened n)) by (rewrite UINT64_MOD_eq; lia).
    change (parent_len n + parent_len n mod 2) with (evened (parent_len n)).
    pose proof (evened_bounds (parent_len n)).
    rewrite (u64_small (evened (parent_len n))) by (rewrite UINT64_MOD_eq; lia).
    rewrite IH; [f_equal; lia|lia|lia|].
    rewrite UINT64_MOD_eq. unfold parent_len in *. lia.
Qed.

End LayerFacts.

(** ** Array accesses *)

Section Arrays.

Context {A : Type}.
Implicit Types (P R : list A) (x v : A) (i : Z).

Lemma load_middle P x R i :
  i = Z.of_nat (length P) -> load (P ++ x :: R) i = Some x.
Proof.
  intros ->. unfold load.
  destruct (Z.ltb_spec (Z.of_nat (length P)) 0); [lia|].
  rewrite Nat2Z.id. apply list_lookup_middle. reflexivity.
Qed.

Lemma store_middle P x R i v :
  i = Z.of_nat (length P) -> store (P ++ x :: R) i v = Some (P ++ v :: R).
Proof.
  intros ->. unfold store.
  rewrite length_app, Nat2Z.id. cbn [length].
  destruct (Z.leb_spec 0 (Z.of_nat (length P))); [|lia].
  destruct (Z.ltb_spec (Z.of_nat (length P)) (Z.of_nat (length P + S (length R))));
    [|lia].
  cbn [andb]. f_equal.
  replace (length P) with (length P + 0)%nat at 1 by lia.
  rewrite insert_app_r. reflexivity.
Qed.

Lemma load_lookup (a : list A) (n : nat) : load a (Z.of_nat n) = a !! n.
Proof.
  unfold load. destruct (Z.ltb_spec (Z.of_nat n) 0); [lia|].
  rewrite Nat2Z.id. reflexivity.
Qed.

Lemma load_Some_lookup (a : list A) i x :
  load a i = Some x -> 0 <= i /\ a !! Z.to_nat i = Some x.
Proof.
  unfold load. destruct (Z.ltb_spec i 0); [discriminate|]. intros; split; [lia|done].
Qed.

Lemma store_length (a a' : list A) i v :
  store a i v = Some a' -> length a' = length a.
Proof.
  unfold store. destruct (_ && _); [|discriminate].
  intros [= <-]. apply length_insert.
Qed.

End Arrays.

(** ** The shape of the levels *)

Section LevelFacts.

Context {H : Hasher}.
Implicit Types (L E P R : list value_type).

Lemma length_pair_up L : length (pair_up L) = (length L / 2)%nat.
Proof.
  induction L as [L IH] using (induction_ltof1 _ (@length _)); unfold ltof in IH.
  destruct L as [|a [|b rest]]; [reflexivity..|].
  cbn [pair_up length]. rewrite IH by (cbn [length]; lia).
  change (S (S (length rest))) with (1 * 2 + length rest)%nat.
  rewrite Nat.div_add_l by lia. lia.
Qed.

Lemma length_even_up L :
  length (even_up L) = (length L + length L mod 2)%nat.
Proof.
  unfold even_up.
  destruct (Nat.odd (length L)) eqn:Hodd.
  - destruct (list.last L) as [x|] eqn:Hlast.
    + rewrite length_app. cbn [length].
      apply Nat.odd_spec in Hodd. destruct Hodd as [q Hq]. lia.
    + apply last_None in Hlast. subst L. discriminate.
  - assert (Nat.even (length L) = true) as Hev
      by (rewrite <- Nat.negb_odd, Hodd; reflexivity).
    apply Nat.even_spec in Hev. destruct Hev as [q Hq]. lia.
Qed.

Lemma even_up_even L : (length (even_up L) mod 2 = 0)%nat.
Proof. rewrite length_even_up. lia. Qed.

Lemma length_parent_level L :
  length (parent_level L) = ((length L + 1) / 2)%nat.
Proof.
  unfold parent_level. rewrite length_pair_up, length_even_up. lia.
Qed.

Lemma even_up_odd L x :
  (length L mod 2 = 1)%nat -> list.last L = Some x -> even_up L = L ++ [x].
Proof.
  intros Hodd Hlast. unfold even_up.
  assert (Nat.odd (length L) = true) as ->.
  { apply Nat.odd_spec. exists (length L / 2)%nat. lia. }
  rewrite Hlast. reflexivity.
Qed.

Lemma even_up_even_id L : (length L mod 2 = 0)%nat -> even_up L = L.
Proof.
  intros Hev. unfold even_up.
  assert (Nat.odd (length L) = false) as ->; [|reflexivity].
  rewrite <- Nat.negb_even.
  assert (Nat.even (length L) = true) as ->; [|reflexivity].
  apply Nat.even_spec. exists (length L / 2)%nat. lia.
Qed.

Lemma pair_up_app L1 L2 :
  (length L1 mod 2 = 0)%nat -> pair_up (L1 ++ L2) = pair_up L1 ++ pair_up L2.
Proof.
  induction L1 as [L1 IH] using (induction_ltof1 _ (@length _)); unfold ltof in IH.
  destruct L1 as [|a [|b rest]]; cbn [length]; intros Hev.
  - reflexivity.
  - cbn in Hev. lia.
  - cbn [app pair_up]. rewrite IH; [reflexivity|cbn [length]; lia|lia].
Qed.

(** A hash of the level above is the node hash of the pair below it. *)
Lemma pair_up_lookup E q a b :
  E !! (2 * q)%nat = Some a -> E !! (2 * q + 1)%nat = Some b ->
  pair_up E !! q = Some (node_hash [value_bytes a; value_bytes b]).
Proof.
  revert E. induction q as [|q IH]; intros E Ha Hb.
  - destruct E as [|a' [|b' rest]]; try discriminate.
    cbn in Ha, Hb. injection Ha as ->. injection Hb as ->. reflexivity.
  - destruct E as [|a' [|b' rest]]; try discriminate.
    cbn [pair_up]. cbn [lookup list_lookup]. apply IH.
    + replace (2 * S q)%nat with (S (S (2 * q))) in Ha by lia. exact Ha.
    + replace (2 * S q + 1)%nat with (S (S (2 * q + 1))) in Hb by lia. exact Hb.
Qed.

Lemma flat_tree_S k L :
  flat_tree (S k) L = even_up L ++ flat_tree k (parent_level L).
Proof. unfold flat_tree. cbn [lower_levels level List.concat]. by rewrite <- app_assoc. Qed.

Lemma length_even_up_Z L :
  Z.of_nat (length (even_up L)) = evened (Z.of_nat (length L)).
Proof. rewrite length_even_up. unfold evened. lia. Qed.

Lemma length_parent_level_Z L :
  Z.of_nat (length (parent_level L)) = parent_len (Z.of_nat (length L)).
Proof. rewrite length_parent_level. unfold parent_len. lia. Qed.

Lemma length_level i L :
  Z.of_nat (length (level i L)) = level_len i (Z.of_nat (length L)).
Proof.
  revert L. induction i as [|i IH]; intros L; [reflexivity|].
  cbn [level level_len]. rewrite IH, length_parent_level_Z. reflexivity.
Qed.

Lemma length_flat_tree k L :
  Z.of_nat (length (flat_tree k L))
    = layer_start k (Z.of_nat (length L)) + level_len k (Z.of_nat (length L)).
Proof.
  revert L. induction k as [|k IH]; intros L.
  - reflexivity.
  - rewrite flat_tree_S, length_app, Nat2Z.inj_add, IH.
    rewrite length_even_up_Z, length_parent_level_Z. cbn [layer_start level_len]. lia.
Qed.

Lemma length_flat_tree_ge k L : (length L <= length (flat_tree k L))%nat.
Proof.
  destruct k as [|k]; [reflexivity|].
  rewrite flat_tree_S, length_app, length_even_up. lia.
Qed.

(** Level [i] of the flattened tree lies at [layer_start i]. *)
Lemma flat_tree_lookup_level k i L (x : nat) :
  (i < k)%nat -> (x < length (even_up (level i L)))%nat ->
  flat_tree k L !! Z.to_nat (layer_start i (Z.of_nat (length L)) + Z.of_nat x)
    = even_up (level i L) !! x.
Proof.
  revert k L. induction i as [|i IH]; intros k L Hi Hx.
  - destruct k as [|k]; [lia|]. rewrite flat_tree_S. cbn [layer_start level] in *.
    rewrite Z.add_0_l, Nat2Z.id. apply lookup_app_l. exact Hx.
  - destruct k as [|k]; [lia|]. rewrite flat_tree_S. cbn [layer_start level] in *.
    assert (Hnn : 0 <= layer_start i (parent_len (Z.of_nat (length L))))
      by (apply layer_start_nonneg; unfold parent_len; lia).
    rewrite <- (IH k (parent_level L)) by (try exact Hx; lia).
    rewrite length_parent_level_Z.
    rewrite lookup_app_r by (pose proof (length_even_up_Z L); lia).
    f_equal. pose proof (length_even_up_Z L). lia.
Qed.

Lemma flat_tree_lookup_top k L :
  flat_tree k L !! Z.to_nat (layer_start k (Z.of_nat (length L)))
    = level k L !! 0%nat.
Proof.
  revert L. induction k as [|k IH]; intros L.
  - reflexivity.
  - rewrite flat_tree_S. cbn [layer_start level].
    assert (Hnn : 0 <= layer_start k (parent_len (Z.of_nat (length L))))
      by (apply layer_start_nonneg; unfold parent_len; lia).
    rewrite <- IH, length_parent_level_Z.
    rewrite lookup_app_r by (pose proof (length_even_up_Z L); lia).
    f_equal. pose proof (length_even_up_Z L). lia.
Qed.

End LevelFacts.

(** ** build writes the flattened tree *)

(** Both sides are the same concatenation up to bracketing. *)
Ltac same_list :=
  repeat rewrite <- app_assoc; cbn [app]; repeat rewrite <- app_assoc;
  reflexivity.

(** Side conditions of [u64_small]: the expression is in range. *)
Ltac in_range := rewrite ?UINT64_MOD_eq in *; cbn [length] in *; lia.

Section BuildFacts.

Context {H : Hasher}.
Implicit Types (L E P R W : list value_type).

Lemma fill_leaves_spec (items : list Item) P R :
  (length items <= length R)%nat ->
  Z.of_nat (length P + length R) < UINT64_MOD ->
  fill_leaves (P ++ R) (Z.of_nat (length P)) items
    = Some (P ++ leaf_hashes items ++ drop (length items) R).
Proof.
  revert P R. induction items as [|x items IH]; intros P R Hlen Hbound.
  - reflexivity.
  - destruct R as [|y R]; cbn [length] in Hlen; [lia|].
    cbn [fill_leaves]. rewrite (store_middle P y R) by reflexivity.
    cbn [mbind option_bind].
    rewrite u64_small by in_range.
    replace (P ++ leaf_hash [x] :: R) with ((P ++ [leaf_hash [x]]) ++ R)
      by same_list.
    replace (Z.of_nat (length P) + 1) with (Z.of_nat (length (P ++ [leaf_hash [x]])))
      by (rewrite length_app; cbn [length]; lia).
    rewrite IH.
    + f_equal. cbn [leaf_hashes fmap list_fmap drop]. same_list.
    + lia.
    + rewrite length_app. in_range.
Qed.

Lemma build_pairs_spec (count : nat) P E1 E2 W R :
  length E1 = (2 * length W)%nat ->
  length E2 = (2 * count)%nat ->
  (count <= length R)%nat ->
  Z.of_nat (length (P ++ E1 ++ E2 ++ W ++ R)) < UINT64_MOD ->
  build_pairs (P ++ E1 ++ E2 ++ W ++ R) (Z.of_nat (length P))
      (Z.of_nat (length P + length E1 + length E2)) count (Z.of_nat (length W))
    = Some (P ++ E1 ++ E2 ++ W ++ pair_up E2 ++ drop count R).
Proof.
  revert E1 E2 W R.
  induction count as [|c IH]; intros E1 E2 W R HE1 HE2 HR Hbound.
  - destruct E2; [|discriminate]. reflexivity.
  - destruct E2 as [|a [|b E2]]; cbn [length] in HE2; try lia.
    destruct R as [|y R]; cbn [length] in HR; [lia|].
    rewrite !length_app in Hbound. cbn [length] in Hbound.
    cbn [build_pairs]. rewrite shiftl_1.
    rewrite (u64_small (2 * _)) by in_range.
    rewrite (u64_small (2 * _ + _)) by in_range.
    rewrite (u64_small (2 * _ + _ + 1)) by in_range.
    replace (P ++ E1 ++ (a :: b :: E2) ++ W ++ y :: R)
      with ((P ++ E1) ++ a :: (b :: E2 ++ W ++ y :: R)) at 1 by same_list.
    rewrite load_middle by (rewrite length_app; lia).
    cbn [mbind option_bind].
    replace (P ++ E1 ++ (a :: b :: E2) ++ W ++ y :: R)
      with ((P ++ E1 ++ [a]) ++ b :: (E2 ++ W ++ y :: R)) at 1 by same_list.
    rewrite load_middle by (rewrite !length_app; cbn [length]; lia).
    cbn [mbind option_bind].
    rewrite (u64_small (Z.of_nat _ + Z.of_nat _)) by in_range.
    replace (P ++ E1 ++ (a :: b :: E2) ++ W ++ y :: R)
      with ((P ++ E1 ++ (a :: b :: E2) ++ W) ++ y :: R) by same_list.
    rewrite store_middle by (rewrite !length_app; cbn [length]; lia).
    cbn [mbind option_bind].
    rewrite u64_small by in_range.
    set (h := node_hash [value_bytes a; value_bytes b]).
    replace ((P ++ E1 ++ (a :: b :: E2) ++ W) ++ h :: R)
      with (P ++ (E1 ++ [a; b]) ++ E2 ++ (W ++ [h]) ++ R) by same_list.
    replace (Z.of_nat (length W) + 1) with (Z.of_nat (length (W ++ [h])))
      by (rewrite length_app; cbn [length]; lia).
    replace (Z.of_nat (length P + length E1 + length (a :: b :: E2)))
      with (Z.of_nat (length P + length (E1 ++ [a; b]) + length E2))
      by (rewrite length_app; cbn [length]; lia).
    rewrite IH.
    + f_equal. cbn [pair_up drop]. fold h. same_list.
    + rewrite !length_app. cbn [length]. lia.
    + lia.
    + lia.
    + rewrite !length_app. in_range.
Qed.

Lemma duplicate_last_spec P L R :
  L <> [] ->
  (length P mod 2 = 0)%nat ->
  (length (even_up L) - length L <= length R)%nat ->
  Z.of_nat (length (P ++ L ++ R)) < UINT64_MOD ->
  duplicate_last (P ++ L ++ R) (Z.of_nat (length P + length L))
    = Some (P ++ even_up L ++ drop (length (even_up L) - length L) R,
            Z.of_nat (length P + length (even_up L))).
Proof.
  intros HL HP HR Hbound. unfold duplicate_last. rewrite land_1.
  rewrite !length_app in Hbound.
  destruct (Z.eqb_spec (Z.of_nat (length P + length L) mod 2) 0) as [Hev|Hodd].
  - rewrite even_up_even_id by lia. rewrite Nat.sub_diag. reflexivity.
  - destruct (list.last L) as [x|] eqn:Hlast;
      [|apply last_None in Hlast; contradiction].
    rewrite (even_up_odd L x) in * by (try exact Hlast; lia).
    apply last_Some in Hlast as [L' ->].
    rewrite !length_app in *. cbn [length] in *.
    destruct R as [|y R]; cbn [length] in HR; [lia|].
    rewrite !u64_small by in_range.
    replace (P ++ (L' ++ [x]) ++ y :: R) with ((P ++ L') ++ x :: (y :: R)) at 1
      by same_list.
    rewrite load_middle by (rewrite length_app; lia).
    cbn [mbind option_bind].
    replace (P ++ (L' ++ [x]) ++ y :: R) with ((P ++ L' ++ [x]) ++ y :: R)
      by same_list.
    rewrite store_middle by (rewrite !length_app; cbn [length]; lia).
    cbn [mbind option_bind].
    f_equal. f_equal.
    + replace (length L' + 1 + 1 - (length L' + 1))%nat with 1%nat by lia.
      cbn [drop]. same_list.
    + lia.
Qed.

(** The outer loop of [build]: from a level [L] that sits behind an even
    prefix [P] it writes the rest of the flattened tree over [R]. *)
Lemma build_levels_spec (k : nat) : forall (fuel : nat) P L R,
  levels_of (Z.of_nat k) (Z.of_nat (length L)) ->
  (k <= fuel)%nat ->
  (length P mod 2 = 0)%nat ->
  (length (flat_tree k L) <= length L + length R)%nat ->
  Z.of_nat (length (P ++ L ++ R)) < UINT64_MOD ->
  build_levels fuel (P ++ L ++ R) (Z.of_nat (length P))
      (Z.of_nat (length P + length L))
    = Some (P ++ flat_tree k L ++ drop (length (flat_tree k L) - length L) R).
Proof.
  induction k as [|k IH]; intros fuel P L R Hk Hfuel HP Hfit Hbound.
  - apply levels_of_one in Hk.
    rewrite !length_app in Hbound.
    assert (build_levels fuel (P ++ L ++ R) (Z.of_nat (length P))
              (Z.of_nat (length P + length L)) = Some (P ++ L ++ R)) as ->.
    { destruct fuel; cbn [build_levels]; rewrite u64_small by in_range;
        (destruct (Z.ltb_spec (Z.of_nat (length P))
                    (Z.of_nat (length P + length L) - 1)); [lia|reflexivity]). }
    unfold flat_tree. cbn [lower_levels level List.concat app].
    rewrite Nat.sub_diag. reflexivity.
  - destruct fuel as [|fuel]; [lia|].
    apply levels_of_parent in Hk as [Hn Hk].
    rewrite <- length_parent_level_Z in Hk.
    rewrite flat_tree_S, length_app in Hfit.
    pose proof (length_even_up L) as HE.
    pose proof (length_parent_level L) as HPl.
    pose proof (even_up_even L) as HEe.
    pose proof (length_flat_tree_ge k (parent_level L)) as Hge'.
    assert (HLne : L <> []) by (intros ->; cbn [length] in Hn; lia).
    cbn [build_levels].
    rewrite (u64_small (_ - 1)) by (rewrite !length_app in Hbound; in_range).
    destruct (Z.ltb_spec (Z.of_nat (length P))
                (Z.of_nat (length P + length L) - 1)) as [_|Hge]; [|lia].
    rewrite duplicate_last_spec by (try assumption; lia).
    cbn [mbind option_bind].
    set (E := even_up L) in *.
    set (R1 := drop (length E - length L) R).
    assert (HR1 : length R1 = (length R - (length E - length L))%nat)
      by apply length_drop.
    assert (Hbound1 : Z.of_nat (length (P ++ E ++ R1)) < UINT64_MOD).
    { rewrite !length_app in *. lia. }
    rewrite (u64_small (Z.of_nat (length P + length E) - Z.of_nat (length P)))
      by (rewrite !length_app in Hbound1; in_range).
    rewrite shiftr_1.
    replace (Z.to_nat ((Z.of_nat (length P + length E) - Z.of_nat (length P)) / 2))
      with (length E / 2)%nat by lia.
    pose proof (build_pairs_spec (length E / 2) P [] E [] R1) as Hpairs.
    cbn [app length] in Hpairs. rewrite Nat.add_0_r in Hpairs.
    change (Z.of_nat 0) with 0 in Hpairs.
    rewrite Hpairs; [|reflexivity|lia|lia|exact Hbound1]. clear Hpairs.
    cbn [mbind option_bind].
    change (pair_up E) with (parent_level L).
    replace ((Z.of_nat (length P + length E) - Z.of_nat (length P)) / 2)
      with (Z.of_nat (length (parent_level L))) by lia.
    rewrite u64_small
      by (rewrite !length_app in Hbound1; in_range).
    replace (P ++ E ++ parent_level L ++ drop (length E / 2) R1)
      with ((P ++ E) ++ parent_level L ++ drop (length E / 2) R1) by same_list.
    replace (Z.of_nat (length P + length E)) with (Z.of_nat (length (P ++ E)))
      by (rewrite length_app; reflexivity).
    replace (Z.of_nat (length (P ++ E)) + Z.of_nat (length (parent_level L)))
      with (Z.of_nat (length (P ++ E) + length (parent_level L))) by lia.
    rewrite (IH fuel).
    + f_equal. rewrite flat_tree_S. fold E. unfold R1. rewrite !drop_drop.
      rewrite <- !app_assoc, length_app. fold E. clearbody E.
      assert (length E - length L
                + (length E / 2
                   + (length (flat_tree k (parent_level L))
                      - length (parent_level L)))
              = length E + length (flat_tree k (parent_level L)) - length L)%nat
        as -> by (clear -HE HPl Hge'; lia).
      reflexivity.
    + exact Hk.
    + lia.
    + rewrite length_app. lia.
    + rewrite length_drop. lia.
    + rewrite !length_app, length_drop in *. lia.
Qed.

Lemma length_leaf_hashes (items : list Item) :
  length (leaf_hashes items) = length items.
Proof. unfold leaf_hashes. rewrite length_fmap. reflexivity. Qed.

(** The extent of a well-sized tree with [k] levels below the root. *)
Lemma well_sized_length (T : FixedSizeTree) (k : nat) :
  well_sized T ->
  levels_of (Z.of_nat k) (LEAFS_N T) -> LEAFS_N T < UINT32_MOD ->
  Z.of_nat (length (m_data T)) = layer_start k (LEAFS_N T) + 1.
Proof.
  intros [Hrange Hsize] Hk Hsmall.
  pose proof (levels_of_bound _ _ Hk Hsmall) as Hk32.
  assert (Hspec : calc_tree_size (LEAFS_N T) = Some (1 + layer_start k (LEAFS_N T))).
  { apply (calc_tree_size_loop_spec k 64 1 (LEAFS_N T) Hk).
    - lia.
    - lia.
    - rewrite UINT64_MOD_eq. change UINT32_MOD with 4294967296 in Hsmall. lia. }
  rewrite Hspec in Hsize. injection Hsize as Hsize. lia.
Qed.

(** [build] on the declared number of items, two or more: the storage
    becomes the flattened tree over the leaf hashes of the items. *)
Lemma build_spec (T : FixedSizeTree) (items : list Item) (k : nat) :
  well_sized T ->
  Z.of_nat (length items) = LEAFS_N T ->
  levels_of (Z.of_nat k) (LEAFS_N T) -> LEAFS_N T <> 1 ->
  LEAFS_N T < UINT32_MOD ->
  build T items
    = Some (mkTree _ (LEAFS_N T) (flat_tree k (leaf_hashes items))).
Proof.
  intros Hws Hlen Hk Hne Hsmall.
  pose proof (well_sized_length T k Hws Hk Hsmall) as Hsize.
  pose proof (levels_of_bound _ _ Hk Hsmall) as Hk32.
  pose proof (length_flat_tree k (leaf_hashes items)) as Hflat.
  rewrite length_leaf_hashes, Hlen, (levels_of_top k _ Hk) in Hflat.
  assert (Hbound : 2 * LEAFS_N T + 2 * Z.of_nat k + 1 < UINT64_MOD).
  { rewrite UINT64_MOD_eq. change UINT32_MOD with 4294967296 in Hsmall. lia. }
  pose proof (layer_start_bound k (LEAFS_N T) ltac:(lia)) as Hls.
  rewrite (levels_of_top k _ Hk) in Hls. unfold evened in Hls.
  pose proof (length_flat_tree_ge k (leaf_hashes items)) as Hge.
  rewrite length_leaf_hashes in Hge.
  unfold build.
  destruct (Z.eqb_spec (LEAFS_N T) 1) as [|_]; [contradiction|].
  pose proof (fill_leaves_spec items [] (m_data T)) as Hfill.
  cbn [app length] in Hfill. change (Z.of_nat 0) with 0 in Hfill.
  rewrite Hfill by lia. clear Hfill. cbn [mbind option_bind].
  pose proof (build_levels_spec k BUILD_FUEL [] (leaf_hashes items)
                (drop (length items) (m_data T))) as Hlv.
  cbn [app length Nat.add] in Hlv. change (Z.of_nat 0) with 0 in Hlv.
  rewrite !length_leaf_hashes, !Hlen in Hlv. rewrite Hlv.
  - cbn [mbind option_bind]. do 2 f_equal.
    rewrite drop_drop, drop_ge by lia. apply app_nil_r.
  - exact Hk.
  - unfold BUILD_FUEL. lia.
  - reflexivity.
  - rewrite length_drop. lia.
  - rewrite length_app, length_leaf_hashes, length_drop. lia.
Qed.

End BuildFacts.

(** ** find_leaf and verify *)

Section FindLeafFacts.

Context {H : Hasher}.

Lemma find_leaf_from_spec (idata : list value_type) (lhash : value_type)
    (count : nat) (i : Z) :
  0 <= i -> i + Z.of_nat count <= Z.of_nat (length idata) ->
  i + Z.of_nat count <= UINT64_MOD ->
  exists r, find_leaf_from idata lhash count i = Some r /\
            first_match idata lhash i (Z.of_nat count) r.
Proof.
  revert i. induction count as [|c IH]; intros i Hi Hlen Hbound.
  - exists SIZE_MAX. split; [reflexivity|]. left. split; [reflexivity|].
    intros j Hj. lia.
  - cbn [find_leaf_from]. unfold load.
    destruct (Z.ltb_spec i 0) as [|_]; [lia|].
    assert (Hlt : (Z.to_nat i < length idata)%nat) by lia.
    destruct (lookup_lt_is_Some_2 idata (Z.to_nat i) Hlt) as [x Hx].
    rewrite Hx. cbn [mbind option_bind].
    destruct (decide (x = lhash)) as [->|Hne].
    + exists i. split; [reflexivity|]. right.
      split; [lia|]. split; [exact Hx|]. lia.
    + assert (Hhere : idata !! Z.to_nat i <> Some lhash) by congruence.
      destruct c as [|c].
      { exists SIZE_MAX. split; [reflexivity|]. left. split; [reflexivity|].
        intros j Hj. replace j with i by lia. exact Hhere. }
      rewrite u64_small by (rewrite UINT64_MOD_eq in *; lia).
      destruct (IH (i + 1)) as (r & Hr & Hfirst); [lia..|].
      exists r. split; [exact Hr|].
      destruct Hfirst as [(-> & Hnone)|(Hrange & Hhit & Hnone)].
      * left. split; [reflexivity|]. intros j Hj.
        destruct (Z.eq_dec j i) as [->|]; [exact Hhere|apply Hnone; lia].
      * right. split; [lia|]. split; [exact Hhit|]. intros j Hj.
        destruct (Z.eq_dec j i) as [->|]; [exact Hhere|apply Hnone; lia].
Qed.

(** The scan reads the first [count] slots from [i] on and no others. *)
Lemma find_leaf_from_ext (idata idata' : list value_type) (lhash : value_type)
    (count : nat) (i : Z) :
  0 <= i -> i + Z.of_nat count <= UINT64_MOD ->
  (forall j, i <= j < i + Z.of_nat count ->
             idata !! Z.to_nat j = idata' !! Z.to_nat j) ->
  find_leaf_from idata lhash count i = find_leaf_from idata' lhash count i.
Proof.
  revert i. induction count as [|c IH]; intros i Hi Hbound Hsame; [reflexivity|].
  cbn [find_leaf_from]. unfold load.
  destruct (Z.ltb_spec i 0) as [|_]; [lia|].
  rewrite <- (Hsame i) by lia.
  destruct (idata !! Z.to_nat i) as [x|]; [|reflexivity].
  cbn [mbind option_bind].
  destruct (decide (x = lhash)); [reflexivity|].
  destruct c as [|c]; [reflexivity|].
  rewrite u64_small by (rewrite UINT64_MOD_eq in *; lia).
  apply IH; [lia|lia|]. intros j Hj. apply Hsame. lia.
Qed.

End FindLeafFacts.

(** ** verify_proof replays the fold *)

Section VerifyProofFacts.

Context {H : Hasher}.

Lemma verify_proof_loop_spec (entries pre post : Proof) (curr : value_type) :
  Z.of_nat (length pre + length entries) <= INT_MAX ->
  verify_proof_loop (pre ++ entries ++ post) (length entries)
      (Z.of_nat (length pre)) curr
    = Some (fold_left proof_step entries curr).
Proof.
  revert pre curr. induction entries as [|e entries IH]; intros pre curr Hbound.
  - reflexivity.
  - cbn [length] in Hbound. cbn [length verify_proof_loop fold_left].
    rewrite (load_middle pre e (entries ++ post)) by reflexivity.
    cbn [mbind option_bind].
    destruct (Z.ltb_spec (Z.of_nat (length pre)) INT_MAX) as [_|]; [|lia].
    replace (pre ++ (e :: entries) ++ post) with ((pre ++ [e]) ++ entries ++ post)
      by (rewrite <- app_assoc; reflexivity).
    replace (Z.of_nat (length pre) + 1) with (Z.of_nat (length (pre ++ [e])))
      by (rewrite length_app; cbn [length]; lia).
    apply IH. rewrite length_app. cbn [length]. lia.
Qed.

(** The verdict on an object that can be called, whose last entry carries
    the asserted root. *)
Lemma verify_proof_spec (T : FixedSizeTree) (d : Item) (entries : Proof) (r : value_type) (flag : bool) :
  Z.of_nat (length entries) <= INT_MAX ->
  verify_proof T d (indexed_by_call (entries ++ [(r, flag)]))
    = Some (bool_decide (fold_left proof_step entries (leaf_hash [d]) = r)).
Proof.
  intros Hbound. unfold verify_proof, indexed_by_call.
  cbn [proof_entries proof_call mbind option_bind].
  rewrite length_app. cbn [length].
  assert (HI : INT_MAX = 2147483647) by reflexivity.
  replace (u64 (Z.of_nat (length entries + 1) - 1)) with (Z.of_nat (length entries))
    by (rewrite u64_small; rewrite ?UINT64_MOD_eq; lia).
  rewrite (load_middle entries (r, flag) []) by reflexivity.
  cbn [mbind option_bind]. rewrite Nat2Z.id.
  pose proof (verify_proof_loop_spec entries [] [(r, flag)] (leaf_hash [d])) as Hloop.
  cbn [app length Nat.add] in Hloop. change (Z.of_nat 0) with 0 in Hloop.
  rewrite Hloop by lia. reflexivity.
Qed.

(** No instantiation for an array. *)
Lemma verify_proof_std_array (T : FixedSizeTree) (d : Item) (entries : Proof) :
  verify_proof T d (std_array entries) = None.
Proof. reflexivity. Qed.

End VerifyProofFacts.

(** ** The walk from a leaf to the root *)

Section WalkFacts.

Context {H : Hasher}.
Implicit Types (L E : list value_type).

Lemma sibling_lt (idx n : nat) :
  (idx < n)%nat -> (n mod 2 = 0)%nat -> (sibling idx < n)%nat.
Proof.
  intros Hidx Hn. unfold sibling.
  destruct (Nat.odd idx) eqn:Hodd; [lia|].
  assert (Nat.even idx = true) as Hev by (rewrite <- Nat.negb_odd, Hodd; reflexivity).
  apply Nat.even_spec in Hev as [q ->]. lia.
Qed.

Lemma even_up_lookup L (idx : nat) :
  (idx < length L)%nat -> even_up L !! idx = L !! idx.
Proof.
  intros Hidx. unfold even_up.
  destruct (Nat.odd (length L)); [|reflexivity]. apply lookup_app_l, Hidx.
Qed.

(** One step of the fold climbs from a hash to its parent. *)
Lemma proof_step_parent E (idx : nat) (x s : value_type) :
  E !! idx = Some x -> E !! sibling idx = Some s ->
  pair_up E !! (idx / 2)%nat = Some (proof_step x (s, Nat.odd idx)).
Proof.
  intros Hx Hs. unfold proof_step, sibling in *. cbn [fst snd].
  destruct (Nat.odd idx) eqn:Hodd.
  - apply Nat.odd_spec in Hodd as [q ->].
    replace ((2 * q + 1) / 2)%nat with q by lia.
    apply pair_up_lookup; [|exact Hx].
    replace (2 * q)%nat with (2 * q + 1 - 1)%nat by lia. exact Hs.
  - assert (Nat.even idx = true) as Hev by (rewrite <- Nat.negb_odd, Hodd; reflexivity).
    apply Nat.even_spec in Hev as [q ->].
    replace (2 * q / 2)%nat with q by lia.
    apply pair_up_lookup; [exact Hx|].
    replace (2 * q + 1)%nat with (S (2 * q)) by lia. exact Hs.
Qed.

Lemma length_walk (k : nat) L (idx : nat) :
  levels_of (Z.of_nat k) (Z.of_nat (length L)) -> (idx < length L)%nat ->
  length (walk (lower_levels k L) idx) = k.
Proof.
  revert L idx. induction k as [|k IH]; intros L idx Hk Hidx; [reflexivity|].
  apply levels_of_parent in Hk as [Hn Hk]. rewrite <- length_parent_level_Z in Hk.
  cbn [lower_levels walk].
  pose proof (length_even_up L) as HE. pose proof (even_up_even L) as HEe.
  destruct (lookup_lt_is_Some_2 (even_up L) (sibling idx)) as [s Hs].
  { apply sibling_lt; [lia|exact HEe]. }
  rewrite Hs. cbn [length]. f_equal. apply IH; [exact Hk|].
  rewrite length_parent_level. lia.
Qed.

(** Folding the walk from a hash of the lowest level gives the root. *)
Lemma walk_reaches_root (k : nat) L (idx : nat) (x : value_type) :
  levels_of (Z.of_nat k) (Z.of_nat (length L)) ->
  L !! idx = Some x ->
  level k L !! 0%nat = Some (fold_left proof_step (walk (lower_levels k L) idx) x).
Proof.
  revert L idx x. induction k as [|k IH]; intros L idx x Hk Hx.
  - apply levels_of_one in Hk. cbn.
    assert (idx = 0%nat) as ->; [|exact Hx].
    apply lookup_lt_Some in Hx. lia.
  - apply levels_of_parent in Hk as [Hn Hk]. rewrite <- length_parent_level_Z in Hk.
    pose proof (lookup_lt_Some _ _ _ Hx) as Hidx.
    pose proof (length_even_up L) as HE. pose proof (even_up_even L) as HEe.
    cbn [lower_levels walk level].
    destruct (lookup_lt_is_Some_2 (even_up L) (sibling idx)) as [s Hs].
    { apply sibling_lt; [lia|exact HEe]. }
    rewrite Hs. cbn [fold_left]. apply IH; [exact Hk|].
    apply proof_step_parent; [|exact Hs]. rewrite even_up_lookup by exact Hidx. exact Hx.
Qed.

Lemma lower_levels_lookup (k i : nat) L :
  (i < k)%nat -> lower_levels k L !! i = Some (even_up (level i L)).
Proof.
  revert k L. induction i as [|i IH]; intros k L Hi;
    (destruct k as [|k]; [lia|]); cbn [lower_levels level]; [reflexivity|].
  cbn [lookup list_lookup]. apply IH. lia.
Qed.

Lemma length_lower_levels (k : nat) L : length (lower_levels k L) = k.
Proof.
  revert L. induction k as [|k IH]; intros L; [reflexivity|].
  cbn [lower_levels length]. rewrite IH. reflexivity.
Qed.

End WalkFacts.

(** ** get_layer and get_proof on a built tree *)

Section GetProofFacts.

Context {H : Hasher}.
Implicit Types (L : list value_type).

(** [get_layer] in terms of the level lengths, for a tree whose height is
    the number of its levels. *)
Lemma get_layer_spec (T : FixedSizeTree) (h i : nat) :
  0 <= LEAFS_N T < UINT32_MOD ->
  height (LEAFS_N T) = Z.of_nat h -> (i <= h)%nat -> (h <= 32)%nat ->
  get_layer T (Z.of_nat (h - i))
    = (layer_start i (LEAFS_N T),
       u64 (evened (level_len i (LEAFS_N T)) - (if (i =? h)%nat then 1 else 0))).
Proof.
  intros HN Hh Hi Hh32. unfold get_layer. rewrite Hh, land_1.
  change (LEAFS_N T + LEAFS_N T mod 2) with (evened (LEAFS_N T)).
  pose proof (evened_bounds (LEAFS_N T)) as He.
  change UINT32_MOD with 4294967296 in HN.
  rewrite (u64_small (evened _)) by (rewrite UINT64_MOD_eq; lia).
  rewrite (u64_small (Z.of_nat h - _)) by (rewrite UINT64_MOD_eq; lia).
  replace (Z.to_nat (Z.of_nat h - Z.of_nat (h - i))) with i by lia.
  rewrite get_layer_loop_spec by (rewrite ?UINT64_MOD_eq; lia).
  rewrite Z.add_0_l. f_equal. f_equal. f_equal.
  destruct (Z.eqb_spec (Z.of_nat (h - i)) 0), (Nat.eqb_spec i h);
    try reflexivity; lia.
Qed.

Lemma odd_flag (idx : nat) :
  negb (Z.land (Z.of_nat idx) 1 =? 0) = Nat.odd idx.
Proof.
  rewrite land_1. destruct (Nat.odd idx) eqn:Hodd.
  - apply Nat.odd_spec in Hodd as [q ->].
    destruct (Z.eqb_spec (Z.of_nat (2 * q + 1) mod 2) 0); [lia|reflexivity].
  - assert (Nat.even idx = true) as Hev by (rewrite <- Nat.negb_odd, Hodd; reflexivity).
    apply Nat.even_spec in Hev as [q ->].
    destruct (Z.eqb_spec (Z.of_nat (2 * q) mod 2) 0); [reflexivity|lia].
Qed.

(** [idx + (idx & 1 ? -1 : 1)] in [size_t] arithmetic. *)
Lemma sibling_index (idx : nat) :
  Z.of_nat idx + 1 < UINT64_MOD ->
  u64 (Z.of_nat idx + (if Nat.odd idx then u64 (-1) else 1)) = Z.of_nat (sibling idx).
Proof.
  intros Hidx. unfold sibling. rewrite UINT64_MOD_eq in Hidx.
  destruct (Nat.odd idx) eqn:Hodd.
  - apply Nat.odd_spec in Hodd as [q ->].
    change (u64 (-1)) with 18446744073709551615.
    unfold u64. rewrite UINT64_MOD_eq. lia.
  - rewrite u64_small by (rewrite UINT64_MOD_eq; lia). lia.
Qed.

Variable T : FixedSizeTree.
Variable L0 : list value_type.
Variable h : nat.

Local Abbreviation N := (LEAFS_N T).

Hypothesis Hflat : flat_built T L0 h.

Lemma built_range : 2 <= N < UINT32_MOD.
Proof. apply Hflat. Qed.

Lemma built_leaves : Z.of_nat (length L0) = N.
Proof. apply Hflat. Qed.

Lemma built_levels_of : levels_of (Z.of_nat h) N.
Proof. apply Hflat. Qed.

Lemma built_data : m_data T = flat_tree h L0.
Proof. apply Hflat. Qed.

Ltac built_facts :=
  pose proof built_range as HN; pose proof built_leaves as HL0;
  pose proof built_levels_of as Hlevels; pose proof built_data as Hdata.

Lemma built_height : height N = Z.of_nat h.
Proof.
  built_facts.
  apply (levels_of_unique _ _ N); [|exact Hlevels].
  apply height_levels_of. lia.
Qed.

Lemma built_h_bound : (1 <= h <= 32)%nat.
Proof.
  built_facts.
  pose proof (levels_of_bound _ _ Hlevels (proj2 HN)).
  destruct h as [|h']; [|lia].
  apply levels_of_one in Hlevels. lia.
Qed.

Lemma built_length : Z.of_nat (length (m_data T)) = layer_start h N + 1.
Proof.
  built_facts.
  rewrite Hdata, length_flat_tree, HL0, (levels_of_top h N Hlevels). reflexivity.
Qed.

Lemma built_size : calc_tree_size N = Some (layer_start h N + 1).
Proof.
  built_facts.
  pose proof built_h_bound as Hh. destruct HN as [HN1 HN2].
  change UINT32_MOD with 4294967296 in HN2.
  unfold calc_tree_size.
  rewrite (calc_tree_size_loop_spec h) by (rewrite ?UINT64_MOD_eq; try exact Hlevels; lia).
  f_equal. lia.
Qed.

Lemma built_layer_bound (i : nat) :
  (i <= h)%nat -> layer_start i N + evened (level_len i N) <= 2 * N + 65.
Proof.
  built_facts.
  intros Hi. pose proof built_h_bound.
  pose proof (layer_start_bound i N ltac:(lia)). lia.
Qed.

(** The leaf slots hold the leaf hashes. *)
Lemma built_leaf_slot (j : nat) :
  (j < length L0)%nat -> m_data T !! j = L0 !! j.
Proof.
  built_facts.
  intros Hj. pose proof built_h_bound as Hh.
  pose proof (flat_tree_lookup_level h 0 L0 j ltac:(lia)) as Hlk.
  cbn [layer_start level] in Hlk. rewrite Z.add_0_l, Nat2Z.id in Hlk.
  rewrite Hdata, Hlk by (rewrite length_even_up; lia).
  apply even_up_lookup, Hj.
Qed.

Lemma built_root (r : value_type) :
  level h L0 !! 0%nat = Some r -> root T = Some r.
Proof.
  built_facts.
  intros Hr. unfold root. rewrite built_size. cbn [mbind option_bind].
  pose proof (layer_start_nonneg h N ltac:(lia)) as Hnn.
  pose proof (built_layer_bound h (le_n h)) as Hb.
  pose proof (evened_bounds (level_len h N)).
  pose proof (level_len_nonneg h N ltac:(lia)).
  destruct HN as [HN1 HN2]. change UINT32_MOD with 4294967296 in HN2.
  replace (layer_start h N + 1 - 1) with (layer_start h N) by lia.
  rewrite u64_small by (rewrite UINT64_MOD_eq; lia).
  unfold load. destruct (Z.ltb_spec (layer_start h N) 0); [lia|].
  rewrite Hdata.
  replace (layer_start h N) with (layer_start h (Z.of_nat (length L0)))
    by (rewrite HL0; reflexivity).
  rewrite flat_tree_lookup_top. exact Hr.
Qed.

(** The loop of [get_proof] fills the entries [i ..] of the proof array
    with the walk from level [i]. *)
Lemma get_proof_loop_spec (count : nat) : forall (i idx : nat) (pre mid post : Proof),
  (i + count = h)%nat -> length pre = i -> length mid = count ->
  (idx < length (level i L0))%nat ->
  get_proof_loop T (Z.of_nat h) count (Z.of_nat i) (Z.of_nat idx)
      (pre ++ mid ++ post)
    = Some (pre ++ walk (drop i (lower_levels h L0)) idx ++ post).
Proof.
  built_facts.
  pose proof built_h_bound as Hh. pose proof built_height as Hheight.
  destruct HN as [HN1 HN2]. change UINT32_MOD with 4294967296 in HN2.
  induction count as [|c IH]; intros i idx pre mid post Hic Hpre Hmid Hidx.
  - destruct mid; [|discriminate]. cbn [get_proof_loop].
    rewrite drop_ge by (rewrite length_lower_levels; lia). reflexivity.
  - destruct mid as [|m0 mid]; [discriminate|]. cbn [length] in Hmid.
    pose proof (length_level i L0) as Hlen. rewrite HL0 in Hlen.
    pose proof (built_layer_bound i ltac:(lia)) as Hb.
    pose proof (layer_start_nonneg i N ltac:(lia)) as Hnn.
    pose proof (length_even_up_Z (level i L0)) as HE. rewrite Hlen in HE.
    pose proof (even_up_even (level i L0)) as HEe.
    pose proof (evened_bounds (level_len i N)) as Heb.
    assert (Hsib : (sibling idx < length (even_up (level i L0)))%nat).
    { apply sibling_lt; [|exact HEe]. rewrite length_even_up. lia. }
    destruct (lookup_lt_is_Some_2 _ _ Hsib) as [s Hs].
    cbn [get_proof_loop]. rewrite odd_flag.
    rewrite sibling_index by (rewrite UINT64_MOD_eq; lia).
    rewrite (u64_small (Z.of_nat h - Z.of_nat i)) by (rewrite UINT64_MOD_eq; lia).
    replace (Z.of_nat h - Z.of_nat i) with (Z.of_nat (h - i)) by lia.
    rewrite (get_layer_spec T h i)
      by (try exact Hheight; change UINT32_MOD with 4294967296; lia).
    cbn [fst].
    rewrite (u64_small (layer_start i N + _)) by (rewrite UINT64_MOD_eq; lia).
    unfold load at 1.
    destruct (Z.ltb_spec (layer_start i N + Z.of_nat (sibling idx)) 0); [lia|].
    rewrite Hdata.
    replace (layer_start i N) with (layer_start i (Z.of_nat (length L0)))
      by (rewrite HL0; reflexivity).
    rewrite flat_tree_lookup_level by (try exact Hsib; lia).
    rewrite Hs. cbn [mbind option_bind].
    rewrite (store_middle pre m0 (mid ++ post)) by lia.
    cbn [mbind option_bind].
    rewrite (u64_small (Z.of_nat i + 1)) by (rewrite UINT64_MOD_eq; lia).
    rewrite shiftr_1.
    replace (Z.of_nat i + 1) with (Z.of_nat (S i)) by lia.
    replace (Z.of_nat idx / 2) with (Z.of_nat (idx / 2)) by lia.
    replace (pre ++ (s, Nat.odd idx) :: mid ++ post)
      with ((pre ++ [(s, Nat.odd idx)]) ++ mid ++ post)
      by (rewrite <- app_assoc; reflexivity).
    rewrite IH.
    + f_equal. rewrite <- app_assoc. f_equal.
      rewrite (drop_S _ (even_up (level i L0)) i)
        by (apply lower_levels_lookup; lia).
      cbn [walk]. rewrite Hs. reflexivity.
    + lia.
    + rewrite length_app. cbn [length]. lia.
    + lia.
    + pose proof (length_level (S i) L0) as Hlen'.
      rewrite level_len_S, HL0 in Hlen'.
      unfold parent_len in Hlen'. lia.
Qed.

Lemma built_top : exists top, level h L0 = [top].
Proof.
  built_facts.
  pose proof (length_level h L0) as Hlen.
  rewrite HL0, (levels_of_top h N Hlevels) in Hlen.
  destruct (level h L0) as [|top [|? ?]]; cbn [length] in Hlen; try lia.
  exists top. reflexivity.
Qed.

Lemma built_leaves_fit : N < Z.of_nat (length (m_data T)).
Proof.
  built_facts.
  rewrite built_length. pose proof built_h_bound as Hh.
  destruct h as [|h']; [lia|]. cbn [layer_start].
  pose proof (evened_bounds N).
  assert (0 <= layer_start h' (parent_len N))
    by (apply layer_start_nonneg; unfold parent_len; lia).
  lia.
Qed.

Lemma built_find_leaf (d : Item) :
  exists r, find_leaf T d = Some r /\
            first_match (m_data T) (leaf_hash [d]) 0 N r.
Proof.
  built_facts.
  pose proof built_leaves_fit as Hfit.
  destruct HN as [HN1 HN2]. change UINT32_MOD with 4294967296 in HN2.
  unfold find_leaf, get_leafs_n, data.
  destruct (find_leaf_from_spec (m_data T) (leaf_hash [d]) (Z.to_nat N) 0)
    as (r & Hr & Hfirst); [lia|lia|rewrite UINT64_MOD_eq; lia|].
  exists r. split; [exact Hr|]. rewrite Z2Nat.id in Hfirst by lia. exact Hfirst.
Qed.

(** The proof [get_proof] returns for data found at the leaf slot [idx]. *)
Lemma built_get_proof (d : Item) (idx : nat) (x top : value_type) :
  find_leaf T d = Some (Z.of_nat idx) -> L0 !! idx = Some x ->
  level h L0 = [top] ->
  get_proof T d
    = Some (LeafAndProof x (walk (lower_levels h L0) idx ++ [(top, false)])).
Proof.
  built_facts.
  intros Hfind Hx Htop. pose proof (lookup_lt_Some _ _ _ Hx) as Hidx.
  pose proof built_h_bound as Hh. pose proof built_height as Hheight.
  destruct HN as [HN1 HN2]. change UINT32_MOD with 4294967296 in HN2.
  unfold get_proof. rewrite Hheight.
  rewrite (built_root top) by (rewrite Htop; reflexivity).
  destruct (Z.eqb_spec N 1) as [|_]; [lia|].
  rewrite Hfind. cbn [mbind option_bind].
  destruct (Z.eqb_spec (Z.of_nat idx) SIZE_MAX) as [Hmax|_].
  { rewrite SIZE_MAX_eq, UINT64_MOD_eq in Hmax. lia. }
  rewrite load_lookup, built_leaf_slot, Hx by exact Hidx.
  cbn [mbind option_bind].
  rewrite (u64_small (Z.of_nat h + 1)) by (rewrite UINT64_MOD_eq; lia).
  replace (Z.to_nat (Z.of_nat h + 1)) with (h + 1)%nat by lia.
  rewrite replicate_add, Nat2Z.id. cbn [replicate].
  pose proof (get_proof_loop_spec h 0 idx [] (replicate h (value_init, false))
                [(value_init, false)]) as Hloop.
  cbn [app] in Hloop. rewrite drop_0 in Hloop. change (Z.of_nat 0) with 0 in Hloop.
  rewrite Hloop; [|lia|reflexivity|apply length_replicate|exact Hidx].
  cbn [mbind option_bind].
  assert (Hwalk : length (walk (lower_levels h L0) idx) = h).
  { apply length_walk; [rewrite HL0; exact Hlevels|exact Hidx]. }
  rewrite length_app, Hwalk. cbn [length].
  rewrite u64_small by (rewrite UINT64_MOD_eq; lia).
  rewrite store_middle by lia. reflexivity.
Qed.

(** Folding the walk of a leaf ends in the top of the tree. *)
Lemma built_fold (idx : nat) (x top : value_type) :
  L0 !! idx = Some x -> level h L0 = [top] ->
  fold_left proof_step (walk (lower_levels h L0) idx) x = top.
Proof.
  built_facts. intros Hx Htop.
  pose proof (walk_reaches_root h L0 idx x) as Hroot.
  rewrite HL0, Htop in Hroot. specialize (Hroot Hlevels Hx).
  cbn in Hroot. congruence.
Qed.

(** The proof of a leaf, held by an object that can be called, verifies. *)
Lemma built_roundtrip (d : Item) (idx : nat) (top : value_type) :
  L0 !! idx = Some (leaf_hash [d]) -> level h L0 = [top] ->
  verify_proof T d
      (indexed_by_call (walk (lower_levels h L0) idx ++ [(top, false)]))
    = Some true.
Proof.
  built_facts.
  intros Hx Htop. pose proof built_h_bound as Hh.
  pose proof (lookup_lt_Some _ _ _ Hx) as Hidx.
  rewrite verify_proof_spec.
  - f_equal. apply bool_decide_eq_true. apply built_fold; assumption.
  - rewrite length_walk by (try rewrite HL0; assumption).
    change INT_MAX with 2147483647. lia.
Qed.

End GetProofFacts.

(** ** Trees built from the declared number of items, two or more *)

Section BuiltTrees.

Context {H : Hasher}.

Variable T : FixedSizeTree.
Variable items : list Item.

Hypothesis Hsized : well_sized T.
Hypothesis Hitems : Z.of_nat (length items) = LEAFS_N T.
Hypothesis Hrange : 2 <= LEAFS_N T < UINT32_MOD.

Local Abbreviation N := (LEAFS_N T).
Local Abbreviation h := (Z.to_nat (height (LEAFS_N T))).
Local Abbreviation L0 := (leaf_hashes items).

Local Abbreviation built := (built_tree T items).

Lemma built_levels : levels_of (Z.of_nat h) N.
Proof.
  pose proof (height_levels_of N ltac:(lia)) as Hlv.
  rewrite Z2Nat.id by apply Hlv. exact Hlv.
Qed.

Lemma build_built : build T items = Some built.
Proof.
  apply build_spec; [exact Hsized|exact Hitems|exact built_levels|lia|lia].
Qed.

Lemma built_length_L0 : Z.of_nat (length L0) = N.
Proof. rewrite length_leaf_hashes. exact Hitems. Qed.

Lemma built_flat : flat_built built L0 h.
Proof.
  split; [exact Hrange|]. split; [exact built_length_L0|].
  split; [exact built_levels|reflexivity].
Qed.

Lemma built_well_sized : well_sized built.
Proof.
  destruct Hsized as [HN Hsize]. split; [exact HN|]. cbn [LEAFS_N m_data built_tree].
  rewrite Hsize. f_equal.
  rewrite (well_sized_length T h Hsized built_levels (proj2 Hrange)).
  rewrite length_flat_tree, built_length_L0, (levels_of_top h N built_levels).
  reflexivity.
Qed.

(** The leaf hash of an item sits in one of the first [N] slots. *)
Lemma item_leaf_slot (d : Item) :
  d ∈ items -> exists j : nat, L0 !! j = Some (leaf_hash [d]).
Proof.
  intros Hin. apply list_elem_of_lookup in Hin as [j Hj]. exists j.
  unfold leaf_hashes. rewrite list_lookup_fmap, Hj. reflexivity.
Qed.

(** [find_leaf] on the built tree: the first leaf slot with the hash. *)
Lemma built_find_item (d : Item) :
  d ∈ items ->
  exists idx : nat, find_leaf built d = Some (Z.of_nat idx) /\
                    L0 !! idx = Some (leaf_hash [d]).
Proof.
  intros Hin. destruct (item_leaf_slot d Hin) as [j Hj].
  pose proof (lookup_lt_Some _ _ _ Hj) as Hjlt.
  destruct (built_find_leaf built L0 h built_flat d)
    as (r & Hr & Hfirst).
  cbn [LEAFS_N built_tree] in Hfirst.
  pose proof built_length_L0 as HL.
  destruct Hfirst as [(-> & Hnone)|(Hidx & Hhit & _)].
  - exfalso. apply (Hnone (Z.of_nat j)); [lia|].
    rewrite Nat2Z.id.
    rewrite (built_leaf_slot built L0 h built_flat)
      by exact Hjlt.
    exact Hj.
  - exists (Z.to_nat r). rewrite Z2Nat.id by lia. split; [exact Hr|].
    rewrite <- (built_leaf_slot built L0 h built_flat)
      by lia.
    exact Hhit.
Qed.

(** The proof of every item: the entries below the root fold to the
    root, which the last entry carries. *)
Lemma built_proof_folds (d : Item) :
  d ∈ items ->
  exists (entries : Proof) (top : value_type),
    get_proof built d
      = Some (LeafAndProof (leaf_hash [d]) (entries ++ [(top, false)])) /\
    root built = Some top /\
    length entries = h /\
    fold_left proof_step entries (leaf_hash [d]) = top.
Proof.
  intros Hin. destruct (built_find_item d Hin) as (idx & Hfind & Hx).
  destruct (built_top built L0 h built_flat) as [top Htop].
  exists (walk (lower_levels h L0) idx), top. split; [|split; [|split]].
  - apply (built_get_proof built L0 h built_flat); assumption.
  - apply (built_root built L0 h built_flat). rewrite Htop. reflexivity.
  - apply length_walk; [|exact (lookup_lt_Some _ _ _ Hx)].
    rewrite built_length_L0. exact built_levels.
  - apply (built_fold built L0 h built_flat idx); assumption.
Qed.

(** [verify] finds every item. *)
Lemma built_verify_item (d : Item) : d ∈ items -> verify built d = Some true.
Proof.
  intros Hin. destruct (built_find_item d Hin) as (idx & Hfind & Hx).
  pose proof (lookup_lt_Some _ _ _ Hx) as Hidx. pose proof built_length_L0 as HL.
  destruct Hrange as [_ HN2]. change UINT32_MOD with 4294967296 in HN2.
  unfold verify. rewrite Hfind. cbn [mbind option_bind]. f_equal.
  destruct (Z.eqb_spec (Z.of_nat idx) SIZE_MAX) as [Hmax|_]; [|reflexivity].
  rewrite SIZE_MAX_eq, UINT64_MOD_eq in Hmax. lia.
Qed.

(** [verify] rejects data whose leaf hash is the leaf hash of no item. *)
Lemma built_verify_absent (d : Item) :
  (forall x, x ∈ items -> leaf_hash [x] <> leaf_hash [d]) ->
  verify built d = Some false.
Proof.
  intros Hfresh.
  destruct (built_find_leaf built L0 h built_flat d)
    as (r & Hr & Hfirst).
  cbn [LEAFS_N built_tree] in Hfirst. pose proof built_length_L0 as HL.
  unfold verify. rewrite Hr. cbn [mbind option_bind]. f_equal.
  destruct Hfirst as [(-> & _)|(Hidx & Hhit & _)].
  - reflexivity.
  - exfalso.
    rewrite (built_leaf_slot built L0 h built_flat)
      in Hhit by lia.
    unfold leaf_hashes in Hhit.
    apply list_lookup_fmap_Some in Hhit as (x & Hx & Heq).
    apply (Hfresh x); [|congruence].
    apply list_elem_of_lookup. eauto.
Qed.

End BuiltTrees.

(** * The claims of the specification *)

(** ** Size and height (C4) *)

Section SizeAndHeight.

(** The loop of [calc_tree_size] leaves within 64 rounds. *)
Lemma calc_tree_size_loop_total (fuel : nat) (s n : Z) :
  0 <= n <= 2 ^ Z.of_nat fuel ->
  exists r, calc_tree_size_loop fuel s n = Some r.
Proof.
  revert s n. induction fuel as [|fuel IH]; intros s n Hn.
  - cbn in Hn. cbn [calc_tree_size_loop].
    destruct (Z.ltb_spec 1 n); [lia|]. eauto.
  - cbn [calc_tree_size_loop].
    destruct (Z.ltb_spec 1 n) as [Hgt|]; [|eauto].
    apply IH. rewrite land_1, shiftr_1.
    rewrite Nat2Z.inj_succ, Z.pow_succ_r in Hn by lia.
    pose proof (u64_range (n + n mod 2)) as Hu.
    assert (u64 (n + n mod 2) <= n + n mod 2).
    { unfold u64. apply Z.mod_le; [lia|reflexivity]. }
    lia.
Qed.

Lemma calc_tree_size_total (n : Z) :
  0 <= n < UINT64_MOD -> exists s, calc_tree_size n = Some s.
Proof.
  intros Hn. apply calc_tree_size_loop_total.
  change (2 ^ Z.of_nat 64) with UINT64_MOD. lia.
Qed.

(** The size in the specification's words, on unbounded integers. *)
Lemma tree_size_spec_levels (k fuel : nat) (s n : Z) :
  levels_of (Z.of_nat k) n -> (k <= fuel)%nat ->
  tree_size_spec fuel s n = s + layer_start k n.
Proof.
  revert fuel s n. induction k as [|k IH]; intros fuel s n Hk Hfuel.
  - apply levels_of_one in Hk. subst n. destruct fuel; cbn; lia.
  - destruct fuel as [|fuel]; [lia|].
    apply levels_of_parent in Hk as [Hn Hk].
    cbn [tree_size_spec layer_start].
    destruct (Z.ltb_spec 1 n); [|lia].
    change (n + n mod 2) with (evened n). rewrite evened_half.
    rewrite (IH fuel) by (try exact Hk; lia). lia.
Qed.

(** Where nothing wraps around, [calc_tree_size] is that size. *)
Lemma calc_tree_size_spec (n : Z) :
  0 <= n <= 2 ^ 62 -> calc_tree_size n = Some (tree_size_spec 64 1 n).
Proof.
  intros Hn. destruct (Z.le_gt_cases n 0) as [Hle|Hpos].
  - assert (n = 0) as -> by lia. reflexivity.
  - pose proof (levels_of_closed_form n ltac:(lia)) as Hk.
    assert (Hk62 : height_closed_form n <= 62).
    { destruct Hk as (Hk0 & Hlo & _).
      destruct (Z.le_gt_cases (height_closed_form n) 62) as [|Hgt]; [assumption|].
      assert (2 ^ 63 <= 2 ^ height_closed_form n) by (apply Z.pow_le_mono_r; lia).
      lia. }
    assert (Hk0 : 0 <= height_closed_form n) by apply Hk.
    rewrite <- (Z2Nat.id (height_closed_form n)) in Hk by exact Hk0.
    unfold calc_tree_size.
    rewrite (calc_tree_size_loop_spec _ 64 1 n Hk),
            (tree_size_spec_levels _ 64 1 n Hk); [reflexivity|lia|lia|lia|].
    rewrite UINT64_MOD_eq. lia.
Qed.

Lemma size_is_calc_tree_size `{H : Hasher} (T : FixedSizeTree) :
  size T = calc_tree_size (LEAFS_N T).
Proof. reflexivity. Qed.

End SizeAndHeight.

(** C4 (failing input).  At 2^32 leaves [height] is 33, while the closed form
    of the specification, floor(log2 N) plus one unless N is a power of two,
    is 32: [__builtin_popcount] sees the low 32 bits only, which are zero. *)
Theorem height_at_2_32 :
  height (2 ^ 32) = 33 /\ height_closed_form (2 ^ 32) = 32 /\
  popcount (2 ^ 32) = 0 /\ ilog2 (2 ^ 32) = 32.
Proof. repeat split; vm_compute; reflexivity. Qed.

(** ** Salted hashing (C5) *)

Section SaltedHashing.

Context {H : Hasher}.

Lemma concat_app (args : list (list byte)) (acc : list byte) :
  fold_left append args acc = acc ++ List.concat args.
Proof.
  revert acc. induction args as [|a args IH]; intros acc; cbn [fold_left List.concat].
  - symmetry. apply app_nil_r.
  - rewrite IH. unfold append. apply eq_sym, app_assoc.
Qed.

Lemma concat_salted (salt : Z) (args : list (list byte)) :
  concat (int_bytes salt :: args) = int_bytes salt ++ List.concat args.
Proof. unfold concat. cbn [fold_left]. rewrite concat_app. reflexivity. Qed.

Lemma leaf_hash_eq (data : list byte) :
  leaf_hash [data] = m_hash (int_bytes leaf_salt ++ data).
Proof.
  unfold leaf_hash. rewrite concat_salted. cbn [List.concat].
  rewrite app_nil_r. reflexivity.
Qed.

Lemma node_hash_eq (l r : list byte) :
  node_hash [l; r] = m_hash (int_bytes node_salt ++ l ++ r).
Proof.
  unfold node_hash. rewrite concat_salted. cbn [List.concat].
  rewrite app_nil_r. reflexivity.
Qed.

End SaltedHashing.

(** C5.  A leaf hash is the hash of the leaf salt followed by the data, a
    node hash the hash of the node salt followed by the left and then the
    right child; the salts, 0 and 1 as [int]s, differ, and so do the two
    hashes of one payload once the hasher keeps apart inputs that differ
    in their first four bytes. *)
Theorem salted_hashes `{H : Hasher} :
  (forall data : list byte,
     leaf_hash [data] = m_hash (int_bytes leaf_salt ++ data)) /\
  (forall l r : value_type,
     node_hash [value_bytes l; value_bytes r]
       = m_hash (int_bytes node_salt ++ value_bytes l ++ value_bytes r)) /\
  leaf_salt <> node_salt /\
  int_bytes leaf_salt <> int_bytes node_salt /\
  ((forall x y : list byte, m_hash x = m_hash y -> take 4 x = take 4 y) ->
   forall payload : list (list byte), leaf_hash payload <> node_hash payload).
Proof.
  split; [exact leaf_hash_eq|].
  split; [intros l r; apply node_hash_eq|].
  split; [discriminate|]. split; [discriminate|].
  intros Hinj payload Heq. unfold leaf_hash, node_hash in Heq.
  apply Hinj in Heq. rewrite !concat_salted in Heq.
  rewrite !take_app_length' in Heq by reflexivity. discriminate.
Qed.

Lemma salted_hashes_witness :
  leaf_hash (H := IdentityHasher.hasher) [str "one"] <> node_hash [str "one"].
Proof.
  apply (proj2 (proj2 (proj2 (proj2 (salted_hashes (H := IdentityHasher.hasher)))))).
  intros x y Hxy. cbn in Hxy. rewrite Hxy. reflexivity.
Defined.

(** ** The tree of a single item (C7) *)

(** C7.  A tree declared with one leaf and built from ["one"] has the node
    hash of "one" as its root, whatever its storage held before; no leaf
    hash enters the stored tree, which stays the same under any hash
    function that agrees with the hasher's on the inputs that start with
    the node salt. *)
Theorem single_item_root `{H : Hasher} (slot : value_type) :
  let T0 := declared 1 [slot] in
  build T0 [str "one"] = Some (mkTree _ 1 [node_hash [str "one"]]) /\
  root (mkTree _ 1 [node_hash [str "one"]]) = Some (node_hash [str "one"]) /\
  tree_height (mkTree _ 1 [node_hash [str "one"]]) = 0 /\
  forall f : list byte -> value_type,
    (forall x, f (int_bytes node_salt ++ x) = m_hash (int_bytes node_salt ++ x)) ->
    option_map (@m_data (rehash H f))
      (build (H := rehash H f) (declared (H := rehash H f) 1 [slot]) [str "one"])
    = option_map m_data (build T0 [str "one"]).
Proof.
  cbn zeta. split; [reflexivity|]. split; [reflexivity|]. split; [reflexivity|].
  intros f Hf. cbn. unfold node_hash. rewrite !concat_salted. cbn [m_hash rehash].
  rewrite Hf. reflexivity.
Qed.

Lemma single_item_root_witness :
  let H := TestHasher.hasher in
  option_map (@m_data (rehash H m_hash))
    (build (H := rehash H m_hash) (declared (H := rehash H m_hash) 1 [value_init])
       [str "one"])
  = option_map m_data (build (declared 1 [value_init]) [str "one"]).
Proof.
  cbn zeta.
  apply (proj2 (proj2 (proj2 (single_item_root (H := TestHasher.hasher) value_init)))).
  intros x. reflexivity.
Defined.

(** ** verify_proof (C3) *)

(** C3 (failing input).  [verify_proof] takes the asserted root by calling
    its proof argument.  An array of entries cannot be called: for every
    array, and so for every proof that [get_proof] returns, the function
    has no instantiation and gives no verdict, whatever the data and the
    entries.  For an object whose call reads the entry at its position the
    verdict is the intended one: the data is hashed as a leaf, the entries
    before the last one are folded in order, the neighbour to the left of
    the running hash when the flag is set and to its right otherwise, each
    time under the node salt, and the outcome is compared with the hash of
    the last entry; the tree it is called on plays no part. *)
Theorem verify_proof_needs_call_operator `{H : Hasher} (T : FixedSizeTree)
    (d : Item) (entries : Proof) (asserted_root : value_type) (flag : bool) :
  verify_proof T d (std_array (entries ++ [(asserted_root, flag)])) = None /\
  (Z.of_nat (length entries) <= INT_MAX ->
   let step (curr : value_type) (e : value_type * bool) :=
     if e.2
     then m_hash (int_bytes node_salt ++ value_bytes e.1 ++ value_bytes curr)
     else m_hash (int_bytes node_salt ++ value_bytes curr ++ value_bytes e.1) in
   let final := fold_left step entries (m_hash (int_bytes leaf_salt ++ d)) in
   verify_proof T d (indexed_by_call (entries ++ [(asserted_root, flag)]))
     = Some (bool_decide (final = asserted_root)) /\
   forall T' : FixedSizeTree,
     verify_proof T' d (indexed_by_call (entries ++ [(asserted_root, flag)]))
       = verify_proof T d (indexed_by_call (entries ++ [(asserted_root, flag)]))).
Proof.
  split; [reflexivity|].
  intros Hbound step final. split; [|reflexivity].
  rewrite verify_proof_spec by exact Hbound.
  assert (Hfold : fold_left proof_step entries (leaf_hash [d]) = final);
    [|rewrite Hfold; reflexivity].
  subst final. rewrite <- leaf_hash_eq. clear Hbound.
  generalize (leaf_hash [d]). induction entries as [|e entries IH]; intros curr.
  - reflexivity.
  - cbn [fold_left]. rewrite IH.
    assert (proof_step curr e = step curr e) as ->; [|reflexivity].
    unfold proof_step, step. destruct e.2; apply node_hash_eq.
Qed.

Lemma verify_proof_needs_call_operator_witness :
  let H := TestHasher.hasher in
  let lhs := leaf_hash [str "lhs"] in
  let rhs := leaf_hash [str "rhs"] in
  let root := node_hash [value_bytes lhs; value_bytes rhs] in
  verify_proof (declared 2 []) (str "lhs") (std_array ([(rhs, false)] ++ [(root, false)]))
    = None /\
  verify_proof (declared 2 []) (str "lhs")
      (indexed_by_call ([(rhs, false)] ++ [(root, false)]))
    = Some true.
Proof.
  cbn zeta. split.
  - apply (proj1 (verify_proof_needs_call_operator (H := TestHasher.hasher) _ _ _ _ _)).
  - assert (Hbound : Z.of_nat (length [(leaf_hash (H := TestHasher.hasher) [str "rhs"], false)])
                     <= INT_MAX) by (vm_compute; discriminate).
    rewrite (proj1 (proj2 (verify_proof_needs_call_operator (H := TestHasher.hasher)
                             _ _ _ _ _) Hbound)).
    vm_compute. reflexivity.
Defined.

(** ** Five leaves (C2) *)

(** C2.  Over "first" .. "fifth" the six leaf slots hold the five leaf
    hashes and a copy of the fifth; the next level holds the node hashes of
    the slot pairs (0,1), (2,3), (4,5) and a copy of the last; the level
    above holds two node hashes, and the root is the node hash of these
    two.  The height is 3.  The sixth slot is filled by copying slot 4, not
    by hashing. *)
Theorem five_leaves_layout `{H : Hasher} (slots : list value_type) :
  length slots = 13%nat ->
  let lh (s : Item) := leaf_hash [s] in
  let nh (a b : value_type) := node_hash [value_bytes a; value_bytes b] in
  let l3 := [lh (str "first"); lh (str "second"); lh (str "third"); lh (str "fourth"); lh (str "fifth"); lh (str "fifth")] in
  let n01 := nh (lh (str "first")) (lh (str "second")) in
  let n23 := nh (lh (str "third")) (lh (str "fourth")) in
  let n45 := nh (lh (str "fifth")) (lh (str "fifth")) in
  let l2 := [n01; n23; n45; n45] in
  let l1 := [nh n01 n23; nh n45 n45] in
  let items := [str "first"; str "second"; str "third"; str "fourth"; str "fifth"] in
  exists T,
    build (declared 5 slots) items = Some T /\
    m_data T = l3 ++ l2 ++ l1 ++ [nh (nh n01 n23) (nh n45 n45)] /\
    root T = Some (nh (nh n01 n23) (nh n45 n45)) /\
    tree_height T = 3 /\
    size T = Some 13 /\
    (get_layer T 3, get_layer T 2, get_layer T 1, get_layer T 0)
      = ((0, 6), (6, 4), (10, 2), (12, 1)) /\
    (forall filled, fill_leaves slots 0 items = Some filled ->
       duplicate_last filled 5 = Some (<[5%nat := lh (str "fifth")]> filled, 6)).
Proof.
  intros Hlen.
  do 14 (destruct slots as [|? slots]; try discriminate Hlen). clear Hlen.
  cbn zeta. eexists. split; [reflexivity|].
  split; [reflexivity|]. split; [reflexivity|]. split; [reflexivity|].
  split; [reflexivity|]. split; [reflexivity|].
  intros filled Hfilled. injection Hfilled as <-. reflexivity.
Qed.

Lemma five_leaves_layout_witness :
  exists T,
    build (declared (H := TestHasher.hasher) 5 (replicate 13 value_init))
      [str "first"; str "second"; str "third"; str "fourth"; str "fifth"] = Some T /\
    tree_height T = 3.
Proof.
  destruct (five_leaves_layout (H := TestHasher.hasher) (replicate 13 value_init) eq_refl)
    as (T & Hbuild & _ & _ & Hheight & _).
  exists T. split; [exact Hbuild|exact Hheight].
Defined.

(** ** Proofs of inclusion and membership (C1, C9) *)

(** For two or more leaves, below 2^32: [build] succeeds on the declared
    number of items; the proof [get_proof] returns for an item starts from
    the item's leaf hash, and an object that holds its entries and can be
    called passes [verify_proof]. *)
Theorem proof_roundtrip `{H : Hasher} (T0 : FixedSizeTree) (items : list Item) :
  well_sized T0 -> Z.of_nat (length items) = LEAFS_N T0 ->
  2 <= LEAFS_N T0 < UINT32_MOD ->
  exists T, build T0 items = Some T /\
    forall d, d ∈ items ->
      exists proof, get_proof T d = Some (LeafAndProof (leaf_hash [d]) proof) /\
                    verify_proof T d (indexed_by_call proof) = Some true.
Proof.
  intros Hsized Hitems Hrange. exists (built_tree T0 items).
  split; [apply build_built; assumption|].
  intros d Hin.
  destruct (built_proof_folds T0 items Hitems Hrange d Hin)
    as (entries & top & Hget & _ & Hlen & Hfold).
  exists (entries ++ [(top, false)]). split; [exact Hget|].
  pose proof (built_h_bound _ _ _ (built_flat T0 items Hitems Hrange)) as Hh.
  rewrite verify_proof_spec by (change INT_MAX with 2147483647; lia).
  rewrite bool_decide_eq_true_2 by exact Hfold. reflexivity.
Qed.

(** X19.  For two or more leaves, below 2^32: [verify] answers, with [true] for
    every item and with [false] for data whose leaf hash collides with that
    of no item. *)
Theorem verify_membership `{H : Hasher} (T0 : FixedSizeTree) (items : list Item) :
  well_sized T0 -> Z.of_nat (length items) = LEAFS_N T0 ->
  2 <= LEAFS_N T0 < UINT32_MOD ->
  exists T, build T0 items = Some T /\
    (forall d, d ∈ items -> verify T d = Some true) /\
    (forall d, (forall x, x ∈ items -> leaf_hash [x] <> leaf_hash [d]) ->
               verify T d = Some false).
Proof.
  intros Hsized Hitems Hrange. exists (built_tree T0 items).
  split; [apply build_built; assumption|]. split.
  - intros d Hin. apply built_verify_item; assumption.
  - intros d Hfresh. apply built_verify_absent; assumption.
Qed.

Lemma verify_membership_witness :
  let H := IdentityHasher.hasher in
  exists T,
    build (declared 2 (replicate 3 value_init)) [str "first"; str "second"] = Some T /\
    verify T (str "second") = Some true /\
    verify T (str "third") = Some false.
Proof.
  cbn zeta.
  destruct (verify_membership (H := IdentityHasher.hasher)
              (declared 2 (replicate 3 value_init)) [str "first"; str "second"])
    as (T & Hbuild & Hin & Hout).
  - split; [split; [discriminate|reflexivity]|reflexivity].
  - reflexivity.
  - split; [discriminate|reflexivity].
  - exists T. split; [exact Hbuild|]. split.
    + apply Hin. apply list_elem_of_further, list_elem_of_here.
    + apply Hout. intros x Hx.
      apply elem_of_cons in Hx as [->|Hx]; [discriminate|].
      apply list_elem_of_singleton in Hx as ->. discriminate.
Defined.

(** The scenario of the specification over three file names, with the
    hasher of the tests: folding the proof for "users.txt" ends in the
    root that its last entry carries, and no longer does once the
    neighbour hash of its first entry is replaced; the array itself is no
    argument for [verify_proof]. *)
Example three_files_scenario :
  let H := TestHasher.hasher in
  let items := [str "passwords.db"; str "users.txt"; str "raw_data.bin"] in
  match build (declared 3 (replicate 7 value_init)) items with
  | Some T =>
      match get_proof T (str "users.txt") with
      | Some (LeafAndProof _ proof) =>
          verify_proof T (str "users.txt") (std_array proof) = None /\
          verify_proof T (str "users.txt") (indexed_by_call proof) = Some true /\
          verify_proof T (str "users.txt")
              (indexed_by_call
                 (<[0%nat := (leaf_hash [str "users.txt"], true)]> proof))
            = Some false
      | _ => False
      end
  | None => False
  end.
Proof. vm_compute. split; [reflexivity|split; reflexivity]. Qed.

(** C1 (failing input).  A tree declared with one leaf has no [get_proof]:
    the function cannot be instantiated.  For two or more leaves, below
    2^32, [get_proof] returns for every item the leaf hash of the item and
    a proof whose entries fold to the root that its last entry carries,
    as the claim needs; but the proof is an array, and [verify_proof],
    which calls its argument, has no instantiation for it: there is no
    verdict. *)
Theorem returned_proof_not_verifiable `{H : Hasher} :
  (forall (T : FixedSizeTree) (d : Item), LEAFS_N T = 1 -> get_proof T d = None) /\
  forall (T0 : FixedSizeTree) (items : list Item) (d : Item),
    well_sized T0 -> Z.of_nat (length items) = LEAFS_N T0 ->
    2 <= LEAFS_N T0 < UINT32_MOD -> d ∈ items ->
    exists (T : FixedSizeTree) (entries : Proof) (top : value_type),
      build T0 items = Some T /\
      get_proof T d
        = Some (LeafAndProof (leaf_hash [d]) (entries ++ [(top, false)])) /\
      root T = Some top /\
      fold_left proof_step entries (leaf_hash [d]) = top /\
      verify_proof T d (std_array (entries ++ [(top, false)])) = None.
Proof.
  split.
  - intros T d Hone. unfold get_proof. rewrite Hone. reflexivity.
  - intros T0 items d Hsized Hitems Hrange Hin.
    destruct (built_proof_folds T0 items Hitems Hrange d Hin)
      as (entries & top & Hget & Hroot & _ & Hfold).
    exists (built_tree T0 items), entries, top.
    split; [apply build_built; assumption|].
    split; [exact Hget|]. split; [exact Hroot|]. split; [exact Hfold|reflexivity].
Qed.

Lemma returned_proof_not_verifiable_witness :
  let H := TestHasher.hasher in
  exists T proof,
    build (declared 2 (replicate 3 value_init)) [str "lhs"; str "rhs"] = Some T /\
    get_proof T (str "lhs") = Some (LeafAndProof (leaf_hash [str "lhs"]) proof) /\
    verify_proof T (str "lhs") (std_array proof) = None.
Proof.
  cbn zeta.
  destruct (proj2 (returned_proof_not_verifiable (H := TestHasher.hasher))
              (declared 2 (replicate 3 value_init)) [str "lhs"; str "rhs"] (str "lhs"))
    as (T & entries & top & Hbuild & Hget & _ & _ & Hverify).
  - split; [split; [discriminate|reflexivity]|reflexivity].
  - reflexivity.
  - split; [discriminate|reflexivity].
  - apply list_elem_of_here.
  - exists T, (entries ++ [(top, false)]).
    split; [exact Hbuild|]. split; [exact Hget|exact Hverify].
Defined.

(** C9 (failing input).  One leaf, the item "one", the hasher of the tests:
    [verify] answers [false] for the item the tree was built from; the only
    slot holds its node hash and [find_leaf] looks for its leaf hash. *)
Theorem single_item_not_verified :
  let H := TestHasher.hasher in
  exists T,
    build (declared 1 [value_init]) [str "one"] = Some T /\
    m_data T = [node_hash [str "one"]] /\
    find_leaf T (str "one") = Some SIZE_MAX /\
    verify T (str "one") = Some false.
Proof.
  cbn zeta.
  exists (mkTree TestHasher.hasher 1 [node_hash (H := TestHasher.hasher) [str "one"]]).
  repeat split; reflexivity.
Qed.

(** [build] for a tree declared with no leaf never leaves its loop: its
    state does not change and its guard stays true. *)
Lemma build_levels_zero `{H : Hasher} (fuel : nat) (m : list value_type) :
  build_levels fuel m 0 0 = None.
Proof. induction fuel as [|fuel IH]; [reflexivity|]. cbn. exact IH. Qed.

(** ** find_leaf (C10) *)

Section SentinelFacts.

Lemma calc_tree_size_loop_range (fuel : nat) (s n r : Z) :
  0 <= s < UINT64_MOD ->
  calc_tree_size_loop fuel s n = Some r -> 0 <= r < UINT64_MOD.
Proof.
  revert s n. induction fuel as [|fuel IH]; intros s n Hs;
    cbn [calc_tree_size_loop]; destruct (1 <? n).
  - discriminate.
  - intros [= <-]. exact Hs.
  - apply IH, u64_range.
  - intros [= <-]. exact Hs.
Qed.

Lemma calc_tree_size_range (n r : Z) :
  calc_tree_size n = Some r -> 0 <= r < UINT64_MOD.
Proof. apply calc_tree_size_loop_range. rewrite UINT64_MOD_eq. lia. Qed.

Lemma height_range (n : Z) : 0 <= n < UINT64_MOD -> 0 <= height n <= 64.
Proof.
  intros Hn. unfold height.
  destruct (Z.eqb_spec n 0) as [|Hne]; [lia|].
  rewrite ilog2_log2 by lia.
  assert (0 <= Z.log2 n < 64).
  { split; [apply Z.log2_nonneg|]. apply Z.log2_lt_pow2; [lia|apply Hn]. }
  assert (0 <= to_bool (popcount n - 1) <= 1)
    by (unfold to_bool; destruct (_ =? _); lia).
  rewrite u64_small by (rewrite UINT64_MOD_eq; lia). lia.
Qed.

End SentinelFacts.

(** C10.  [find_leaf] answers for every well-sized tree whose declared
    leaves fit its storage; it returns the first of the slots 0 .. N-1 that
    holds the leaf hash of the data, or [(size_t)-1] if none does.  The
    answer is the same for every tree that agrees on these slots, so no
    other slot is read; it is never N where a slot N exists; [verify] and
    [get_proof] take their leaf from it. *)
Theorem find_leaf_scans_leaves `{H : Hasher} (T : FixedSizeTree) (d : Item) :
  well_sized T ->
  LEAFS_N T <= Z.of_nat (length (m_data T)) ->
  exists r,
    find_leaf T d = Some r /\
    ((r = SIZE_MAX /\
      forall j, 0 <= j < LEAFS_N T -> m_data T !! Z.to_nat j <> Some (leaf_hash [d]))
     \/
     (0 <= r < LEAFS_N T /\ m_data T !! Z.to_nat r = Some (leaf_hash [d]) /\
      forall j, 0 <= j < r -> m_data T !! Z.to_nat j <> Some (leaf_hash [d]))) /\
    (forall T' : FixedSizeTree,
       LEAFS_N T' = LEAFS_N T ->
       (forall j, 0 <= j < LEAFS_N T ->
                  m_data T' !! Z.to_nat j = m_data T !! Z.to_nat j) ->
       find_leaf T' d = Some r) /\
    (LEAFS_N T < Z.of_nat (length (m_data T)) -> r <> LEAFS_N T) /\
    verify T d = Some (negb (r =? SIZE_MAX)) /\
    (LEAFS_N T <> 1 ->
     forall initial proof,
       get_proof T d = Some (LeafAndProof initial proof) ->
       (r = SIZE_MAX /\ initial = value_init) \/
       (0 <= r < LEAFS_N T /\ m_data T !! Z.to_nat r = Some initial)).
Proof.
  intros [HN Hsize] Hfit.
  pose proof (calc_tree_size_range _ _ Hsize) as Hlen.
  destruct (find_leaf_from_spec (m_data T) (leaf_hash [d]) (Z.to_nat (LEAFS_N T)) 0)
    as (r & Hr & Hfirst); [lia|lia|lia|].
  change (find_leaf T d = Some r) in Hr.
  rewrite Z2Nat.id in Hfirst by lia. unfold first_match in Hfirst.
  rewrite Z.add_0_l in Hfirst.
  exists r. split; [exact Hr|]. split; [exact Hfirst|].
  assert (Hrange : r = SIZE_MAX \/ 0 <= r < LEAFS_N T).
  { destruct Hfirst as [[-> _]|[Hin _]]; [left; reflexivity|right; exact Hin]. }
  split; [|split; [|split]].
  - intros T' HN' Hsame. rewrite <- Hr.
    unfold find_leaf, get_leafs_n, data. rewrite HN'.
    apply find_leaf_from_ext; [lia|lia|].
    intros j Hj. apply Hsame. lia.
  - intros Hslot. rewrite SIZE_MAX_eq in Hrange. lia.
  - unfold verify. rewrite Hr. reflexivity.
  - intros Hne initial proof. unfold get_proof.
    generalize (root T). intros root_T.
    destruct (Z.eqb_spec (LEAFS_N T) 1) as [|_]; [contradiction|].
    rewrite Hr. cbn [mbind option_bind].
    destruct (Z.eqb_spec r SIZE_MAX) as [->|Hnot].
    + intros [= <- _]. left. split; reflexivity.
    + destruct Hrange as [|Hin]; [contradiction|].
      destruct (load (m_data T) r) as [x|] eqn:Hload; [|discriminate].
      apply load_Some_lookup in Hload as [_ Hx]. cbn [mbind option_bind].
      destruct (get_proof_loop _ _ _ _ _ _); [|discriminate].
      cbn [mbind option_bind].
      destruct root_T; [|discriminate]. cbn [mbind option_bind].
      destruct (store _ _ _); [|discriminate]. cbn [mbind option_bind].
      intros [= <- _]. right. split; [exact Hin|exact Hx].
Qed.

Lemma find_leaf_scans_leaves_witness :
  let H := TestHasher.hasher in
  let T := mkTree _ 3 (replicate 7 (leaf_hash [str "users.txt"])) in
  exists r, find_leaf T (str "users.txt") = Some r /\ r <> LEAFS_N T.
Proof.
  cbn zeta.
  assert (Hsized : well_sized (mkTree TestHasher.hasher 3
            (replicate 7 (leaf_hash (H := TestHasher.hasher) [str "users.txt"])))).
  { split; [vm_compute; split; [discriminate|reflexivity]|vm_compute; reflexivity]. }
  destruct (find_leaf_scans_leaves _ (str "users.txt") Hsized)
    as (r & Hr & _ & _ & Hslot & _).
  - vm_compute. discriminate.
  - exists r. split; [exact Hr|]. apply Hslot. vm_compute. reflexivity.
Defined.

(** ** The proof for missing data (C6) *)

Section MissingData.

Context {H : Hasher}.

(** Every stage of the fold is a leaf hash or a node hash. *)
Lemma fold_salted (entries : Proof) (v : value_type) :
  salted_output v -> salted_output (fold_left proof_step entries v).
Proof.
  revert v. induction entries as [|e entries IH]; intros v Hv; [exact Hv|].
  cbn [fold_left]. apply IH. unfold proof_step.
  destruct e.2; rewrite node_hash_eq; exists node_salt; eauto.
Qed.

(** [verify_proof] rejects default entries, held by an object that can
    be called. *)
Lemma default_proof_rejected (T : FixedSizeTree) (d : Item) (n : nat) :
  never_default -> Z.of_nat n <= INT_MAX ->
  verify_proof T d (indexed_by_call (replicate (n + 1) (value_init, false)))
    = Some false.
Proof.
  intros Hnever Hn. rewrite replicate_add. cbn [replicate].
  rewrite verify_proof_spec by (rewrite length_replicate; exact Hn).
  f_equal. apply bool_decide_eq_false_2.
  destruct (fold_salted (replicate n (value_init, false)) (leaf_hash [d]))
    as (salt & y & Hsalt & Hy).
  - exists leaf_salt, d. split; [left; reflexivity|apply leaf_hash_eq].
  - rewrite Hy. apply Hnever, Hsalt.
Qed.

End MissingData.

(** C6 (failing input).  For a tree declared with a number of leaves other
    than one and data that [find_leaf] does not find, [get_proof] returns
    the default hash paired with the array of [height + 1] default
    entries, as the claim says.  [verify_proof] does not reject that
    array: it calls its argument, an array cannot be called, and the
    function has no instantiation for it.  Held by an object that can be
    called, the default entries are rejected where no salted input hashes to
    the default hash. *)
Theorem sentinel_proof_not_verifiable `{H : Hasher} (T : FixedSizeTree) (d : Item) :
  0 <= LEAFS_N T < UINT64_MOD -> LEAFS_N T <> 1 ->
  find_leaf T d = Some SIZE_MAX ->
  let sentinel : Proof :=
    replicate (Z.to_nat (height (LEAFS_N T) + 1)) (value_init, false) in
  get_proof T d = Some (LeafAndProof value_init sentinel) /\
  verify_proof T d (std_array sentinel) = None /\
  (never_default -> verify_proof T d (indexed_by_call sentinel) = Some false).
Proof.
  intros HN Hne Hfind sentinel.
  pose proof (height_range _ HN) as Hh.
  assert (HI : INT_MAX = 2147483647) by reflexivity.
  split; [|split; [reflexivity|]].
  - unfold get_proof. generalize (root T). intros root_T.
    destruct (Z.eqb_spec (LEAFS_N T) 1) as [|_]; [contradiction|].
    rewrite Hfind. cbn [mbind option_bind].
    rewrite u64_small by (rewrite UINT64_MOD_eq; lia). reflexivity.
  - intros Hnever. subst sentinel.
    replace (Z.to_nat (height (LEAFS_N T) + 1))
      with (Z.to_nat (height (LEAFS_N T)) + 1)%nat by lia.
    apply default_proof_rejected; [exact Hnever|lia].
Qed.

Lemma sentinel_proof_not_verifiable_witness :
  let H := IdentityHasher.hasher in
  let T := mkTree _ 2 [leaf_hash [str "lhs"]; leaf_hash [str "rhs"];
                       node_hash [leaf_hash [str "lhs"]; leaf_hash [str "rhs"]]] in
  get_proof T (str "third")
    = Some (LeafAndProof value_init [(value_init, false); (value_init, false)]) /\
  verify_proof T (str "third") (std_array [(value_init, false); (value_init, false)])
    = None.
Proof.
  cbn zeta.
  destruct (sentinel_proof_not_verifiable (H := IdentityHasher.hasher)
              (mkTree IdentityHasher.hasher 2
                 [leaf_hash (H := IdentityHasher.hasher) [str "lhs"];
                  leaf_hash (H := IdentityHasher.hasher) [str "rhs"];
                  node_hash (H := IdentityHasher.hasher)
                    [leaf_hash (H := IdentityHasher.hasher) [str "lhs"];
                     leaf_hash (H := IdentityHasher.hasher) [str "rhs"]]])
              (str "third"))
    as (Hget & Harray & _).
  - split; [discriminate|reflexivity].
  - discriminate.
  - reflexivity.
  - split; [exact Hget|exact Harray].
Defined.

(** ** Layers (C8) *)

(** C8 (counterexample).  One leaf: the layer [height] is the root layer, of
    length 1, while the evened leaf count is 2. *)
Lemma single_item_layer_not_evened :
  let H := TestHasher.hasher in
  exists T,
    build (declared 1 [value_init]) [str "one"] = Some T /\
    tree_height T = 0 /\
    get_layer T (tree_height T) = (0, 1) /\
    round_to_even (LEAFS_N T) = 2 /\
    (get_layer T (tree_height T)).2 <> round_to_even (LEAFS_N T).
Proof.
  cbn zeta.
  exists (mkTree TestHasher.hasher 1 [node_hash (H := TestHasher.hasher) [str "one"]]).
  split; [reflexivity|]. split; [reflexivity|]. split; [reflexivity|].
  split; [reflexivity|]. discriminate.
Qed.

Section Layers.

Context {H : Hasher}.

Variable T : FixedSizeTree.

Local Abbreviation N := (LEAFS_N T).

Hypothesis Hrange : 2 <= N < UINT32_MOD.

Local Abbreviation h := (Z.to_nat (height N)).

Lemma layers_levels : levels_of (Z.of_nat h) N.
Proof.
  pose proof (height_levels_of N ltac:(lia)) as Hlv.
  rewrite Z2Nat.id by apply Hlv. exact Hlv.
Qed.

Lemma layers_height : height N = Z.of_nat h /\ (1 <= h <= 32)%nat.
Proof.
  pose proof layers_levels as Hlv.
  pose proof (levels_of_bound _ _ Hlv (proj2 Hrange)) as Hb.
  pose proof (height_levels_of N ltac:(lia)) as [Hk0 _].
  split; [symmetry; apply Z2Nat.id; exact Hk0|].
  split; [|lia]. destruct h as [|h']; [|lia].
  apply levels_of_one in Hlv. lia.
Qed.

(** The layer [idx], counted from the root, is the level [h - idx],
    counted from the leaves. *)
Lemma get_layer_level (idx : Z) :
  0 <= idx <= height N ->
  get_layer T idx
    = (layer_start (Z.to_nat (height N - idx)) N,
       if idx =? 0 then 1
       else evened (level_len (Z.to_nat (height N - idx)) N)).
Proof.
  intros Hidx. destruct layers_height as [Hh Hh32].
  pose proof layers_levels as Hlv.
  set (i := Z.to_nat (height N - idx)).
  assert (Hi : (i <= h)%nat) by lia.
  replace idx with (Z.of_nat (h - i)) at 1 by lia.
  rewrite (get_layer_spec T h i) by (try exact Hh; lia).
  f_equal.
  destruct (Z.eqb_spec idx 0) as [->|Hne].
  - assert (i = h) as -> by lia. rewrite Nat.eqb_refl.
    rewrite (levels_of_top h N Hlv). reflexivity.
  - destruct (Nat.eqb_spec i h) as [|_]; [lia|].
    pose proof (level_len_nonneg i N ltac:(lia)).
    pose proof (evened_bounds (level_len i N)).
    destruct Hrange as [_ HN2]. change UINT32_MOD with 4294967296 in HN2.
    rewrite Z.sub_0_r. apply u64_small. rewrite UINT64_MOD_eq. lia.
Qed.

End Layers.

(** C8 (amended).  For a tree declared with N leaves, 2 <= N < 2^32, and
    built from N items: the layer 0 is the root, of length 1, at position
    [size() - 1]; the layer [height] starts at position 0 and has the
    evened leaf count as its length; every layer [idx] from 1 to [height]
    ends where the layer [idx - 1] starts, has an even length of at least
    2, and the layer above it, unless that is the root, has its length
    halved and rounded up to even; and the slots of the layer [idx] hold the
    evened level [height - idx] of the tree.  The lengths are thus obtained
    by starting from the evened leaf count and halving and evening on the
    way up, the offsets by adding up the lengths passed. *)
Theorem layers_of_built_tree `{H : Hasher} (T0 : FixedSizeTree) (items : list Item) :
  well_sized T0 -> Z.of_nat (length items) = LEAFS_N T0 ->
  2 <= LEAFS_N T0 < UINT32_MOD ->
  exists T SIZE,
    build T0 items = Some T /\ LEAFS_N T = LEAFS_N T0 /\ size T = Some SIZE /\
    get_layer T 0 = (SIZE - 1, 1) /\
    get_layer T (tree_height T) = (0, LEAFS_N T + LEAFS_N T mod 2) /\
    (forall idx, 1 <= idx <= tree_height T ->
       (get_layer T idx).1 + (get_layer T idx).2 = (get_layer T (idx - 1)).1 /\
       2 <= (get_layer T idx).2 /\ (get_layer T idx).2 mod 2 = 0 /\
       (2 <= idx ->
        (get_layer T (idx - 1)).2
          = (get_layer T idx).2 / 2 + ((get_layer T idx).2 / 2) mod 2)) /\
    (forall idx (x : nat), 0 <= idx <= tree_height T ->
       Z.of_nat x < (get_layer T idx).2 ->
       m_data T !! Z.to_nat ((get_layer T idx).1 + Z.of_nat x)
         = (if idx =? 0 then level (Z.to_nat (tree_height T)) (leaf_hashes items)
            else even_up (level (Z.to_nat (tree_height T - idx)) (leaf_hashes items)))
           !! x).
Proof.
  intros Hsized Hitems Hrange.
  pose proof (build_built T0 items Hsized Hitems Hrange) as Hbuild.
  pose proof (built_flat T0 items Hitems Hrange) as Hflat.
  set (T := built_tree T0 items) in *.
  assert (HN : LEAFS_N T = LEAFS_N T0) by reflexivity.
  assert (HrangeT : 2 <= LEAFS_N T < UINT32_MOD) by (rewrite HN; exact Hrange).
  destruct (layers_height T HrangeT) as [Hh Hh32].
  pose proof (layers_levels T HrangeT) as Hlv.
  set (h := Z.to_nat (height (LEAFS_N T))) in *.
  exists T, (layer_start h (LEAFS_N T) + 1).
  split; [exact Hbuild|]. split; [exact HN|].
  split; [apply (built_size T (leaf_hashes items) h); rewrite <- HN in Hflat; exact Hflat|].
  unfold tree_height, get_leafs_n.
  split; [|split; [|split]].
  - rewrite (get_layer_level T HrangeT 0) by lia.
    rewrite Z.sub_0_r. fold h. cbn [Z.eqb]. f_equal. lia.
  - rewrite (get_layer_level T HrangeT) by lia.
    rewrite Z.sub_diag. cbn [Z.to_nat layer_start level_len].
    destruct (Z.eqb_spec (height (LEAFS_N T)) 0); [lia|reflexivity].
  - intros idx Hidx.
    rewrite (get_layer_level T HrangeT idx), (get_layer_level T HrangeT (idx - 1))
      by lia.
    cbn [fst snd].
    destruct (Z.eqb_spec idx 0) as [|_]; [lia|].
    set (i := Z.to_nat (height (LEAFS_N T) - idx)).
    replace (Z.to_nat (height (LEAFS_N T) - (idx - 1))) with (S i) by lia.
    pose proof (levels_of_below h i (LEAFS_N T) Hlv ltac:(lia)) as Hlen.
    pose proof (evened_bounds (level_len i (LEAFS_N T))) as Hev.
    split; [symmetry; apply layer_start_S|]. split; [lia|].
    split; [apply evened_even|]. intros Hidx2.
    destruct (Z.eqb_spec (idx - 1) 0) as [|_]; [lia|].
    rewrite level_len_S, evened_half. reflexivity.
  - intros idx x Hidx Hx.
    rewrite (get_layer_level T HrangeT idx) in * by lia. cbn [fst snd] in *.
    destruct (Z.eqb_spec idx 0) as [->|Hne].
    + assert (x = 0%nat) as -> by lia. rewrite Z.sub_0_r, Z.add_0_r. fold h.
      destruct Hflat as (_ & HL0 & _ & ->). rewrite <- HL0.
      apply flat_tree_lookup_top.
    + set (i := Z.to_nat (height (LEAFS_N T) - idx)) in *.
      destruct Hflat as (_ & HL0 & _ & Hdata).
      change (m_data T) with (flat_tree h (leaf_hashes items)).
      rewrite <- HN, <- HL0 in *.
      apply flat_tree_lookup_level; [lia|].
      pose proof (length_even_up_Z (level i (leaf_hashes items))) as Hlen.
      rewrite length_level in Hlen. lia.
Qed.

Lemma layers_of_built_tree_witness :
  let H := TestHasher.hasher in
  exists T SIZE,
    build (declared 3 (replicate 7 value_init))
      [str "passwords.db"; str "users.txt"; str "raw_data.bin"] = Some T /\
    size T = Some SIZE /\ get_layer T 0 = (SIZE - 1, 1).
Proof.
  cbn zeta.
  destruct (layers_of_built_tree (H := TestHasher.hasher)
              (declared 3 (replicate 7 value_init))
              [str "passwords.db"; str "users.txt"; str "raw_data.bin"])
    as (T & SIZE & Hbuild & _ & Hsize & Hroot & _).
  - split; [split; [discriminate|reflexivity]|reflexivity].
  - reflexivity.
  - split; [discriminate|reflexivity].
  - exists T, SIZE. split; [exact Hbuild|]. split; [exact Hsize|exact Hroot].
Defined.
(** * Further properties of the code *)

(** ** merkle_utils.hpp *)

(** X1.  [ilog2] of a non-zero 64-bit value is the position of its highest
    set bit: the whole part of the logarithm.  For 0 the [-1] of the source
    comes back converted to the unsigned type. *)
Theorem ilog2_floor (x : Z) :
  0 <= x < UINT64_MOD ->
  (x = 0 -> ilog2 x = SIZE_MAX) /\
  (0 < x -> 0 <= ilog2 x < 64 /\ 2 ^ ilog2 x <= x < 2 ^ (ilog2 x + 1)).
Proof.
  intros Hx. split.
  - intros ->. reflexivity.
  - intros Hpos. rewrite ilog2_log2 by lia.
    pose proof (Z.log2_nonneg x) as Hnn.
    pose proof (Z.log2_spec x Hpos) as Hspec.
    split; [|rewrite <- Z.add_1_r in Hspec; exact Hspec].
    split; [exact Hnn|]. apply Z.log2_lt_pow2; [exact Hpos|apply Hx].
Qed.

Lemma ilog2_floor_witness : 2 ^ ilog2 5 <= 5 < 2 ^ (ilog2 5 + 1).
Proof.
  apply (proj2 (ilog2_floor 5 ltac:(vm_compute; split; [discriminate|reflexivity]))
           ltac:(lia)).
Defined.

(** X2.  [round_to_even] gives the least even number that is not below its
    argument, except for the largest value of the type, where the sum wraps
    to 0. *)
Theorem round_to_even_least (n : Z) :
  0 <= n < UINT64_MOD ->
  (n < SIZE_MAX ->
   round_to_even n mod 2 = 0 /\ n <= round_to_even n <= n + 1 /\
   forall m, n <= m -> m mod 2 = 0 -> round_to_even n <= m) /\
  (n = SIZE_MAX -> round_to_even n = 0).
Proof.
  intros Hn. rewrite SIZE_MAX_eq. rewrite UINT64_MOD_eq in *. split.
  - intros Hlt. unfold round_to_even. rewrite land_1.
    rewrite u64_small by (rewrite UINT64_MOD_eq; lia).
    split; [|split]; [lia|lia|]. intros m Hm Heven. lia.
  - intros ->. reflexivity.
Qed.

Lemma round_to_even_least_witness : round_to_even 5 = 6 /\ round_to_even 6 = 6.
Proof.
  assert (H5 : 0 <= 5 < UINT64_MOD) by (vm_compute; split; [discriminate|reflexivity]).
  assert (H6 : 0 <= 6 < UINT64_MOD) by (vm_compute; split; [discriminate|reflexivity]).
  assert (Hmax : 6 < SIZE_MAX) by (vm_compute; reflexivity).
  destruct (proj1 (round_to_even_least 5 H5) ltac:(vm_compute; reflexivity))
    as (He5 & Hr5 & Hl5).
  destruct (proj1 (round_to_even_least 6 H6) Hmax) as (He6 & Hr6 & Hl6).
  split; [|lia].
  pose proof (Hl5 6 ltac:(lia) eq_refl). lia.
Defined.

(** ** TreeBase::height and merkle::calc_tree_size *)

Section SizeBounds.

(** The entries below the root: at least [2 n - 2], with equality for
    the powers of two only, and at most [2 n + 2 k - 2]. *)
Lemma layer_start_bounds (k : nat) : forall n : Z,
  levels_of (Z.of_nat k) n ->
  2 * n - 2 <= layer_start k n <= 2 * n + 2 * Z.of_nat k - 2 /\
  layer_start k n mod 2 = 0 /\
  (layer_start k n = 2 * n - 2 <-> n = 2 ^ Z.of_nat k).
Proof.
  induction k as [|k IH]; intros n Hlv.
  - apply levels_of_one in Hlv. subst n. cbn. repeat split; lia.
  - pose proof (levels_of_parent k n Hlv) as [Hn Hpar].
    destruct (IH _ Hpar) as ((Hlo & Hhi) & Heven & Hiff).
    cbn [layer_start].
    pose proof (evened_bounds n) as Hev.
    pose proof (evened_even n) as Hee.
    pose proof (evened_half n) as Hhalf.
    assert (H2p : 2 * parent_len n = evened n).
    { rewrite <- Hhalf. pose proof (Z.div_mod (evened n) 2 ltac:(lia)). lia. }
    assert (Hpow : 2 ^ Z.of_nat (S k) = 2 * 2 ^ Z.of_nat k).
    { rewrite Nat2Z.inj_succ, Z.pow_succ_r by lia. reflexivity. }
    split; [lia|]. split.
    + rewrite Z.add_mod, Hee, Heven by lia. reflexivity.
    + rewrite Hpow. split.
      * intros Heq. assert (Hpl : layer_start k (parent_len n) = 2 * parent_len n - 2) by lia.
        apply Hiff in Hpl. lia.
      * intros Heq. assert (Hmod : n mod 2 = 0).
        { rewrite Heq, Z.mul_comm, Z.mod_mul by lia. reflexivity. }
        assert (Hevn : evened n = n) by (unfold evened; lia).
        assert (Hpl : parent_len n = 2 ^ Z.of_nat k) by lia.
        apply Hiff in Hpl. lia.
Qed.

End SizeBounds.

(** X3.  Below 2^32, [height] is the logarithm rounded up: the least [h]
    with [N <= 2^h]. *)
Theorem height_ceil_log2 (n : Z) :
  1 <= n < UINT32_MOD ->
  0 <= height n <= 32 /\ n <= 2 ^ height n /\
  forall h, 0 <= h -> n <= 2 ^ h -> height n <= h.
Proof.
  intros Hn. pose proof (height_levels_of n Hn) as Hlv.
  pose proof (levels_of_bound _ _ Hlv (proj2 Hn)) as Hb.
  destruct Hlv as (Hk & Hlo & Hhi).
  rewrite Z.pow_add_r in Hhi by lia. change (2 ^ 1) with 2 in Hhi.
  split; [lia|]. split; [lia|].
  intros h Hh Hle.
  destruct (Z.le_gt_cases (height n) h) as [|Hgt]; [assumption|exfalso].
  assert (2 ^ h <= 2 ^ (height n - 1)) by (apply Z.pow_le_mono_r; lia).
  assert (2 ^ height n = 2 * 2 ^ (height n - 1)).
  { rewrite <- (Z.pow_succ_r 2) by lia. f_equal. lia. }
  lia.
Qed.

Lemma height_ceil_log2_witness : 5 <= 2 ^ height 5 /\ height 5 <= 3.
Proof.
  destruct (height_ceil_log2 5 ltac:(vm_compute; split; [discriminate|reflexivity]))
    as (_ & Hle & Hleast).
  split; [exact Hle|]. apply Hleast; [lia|vm_compute; discriminate].
Defined.

(** X4.  Below 2^32, [calc_tree_size] is odd and lies between [2 N - 1] and
    [2 N - 1 + 2 height(N)]: the duplicated hashes cost at most two slots a
    level.  It is [2 N - 1], the size of a perfect binary tree, exactly for
    the powers of two. *)
Theorem calc_tree_size_bounds (n : Z) :
  1 <= n < UINT32_MOD ->
  exists s, calc_tree_size n = Some s /\
    s mod 2 = 1 /\
    2 * n - 1 <= s <= 2 * n - 1 + 2 * height n /\
    (s = 2 * n - 1 <-> n = 2 ^ height n).
Proof.
  intros Hn. pose proof (height_levels_of n Hn) as Hlv.
  pose proof (levels_of_bound _ _ Hlv (proj2 Hn)) as Hb.
  assert (Hk : height n = Z.of_nat (Z.to_nat (height n)))
    by (symmetry; apply Z2Nat.id, Hlv).
  rewrite Hk in Hlv. set (k := Z.to_nat (height n)) in *.
  destruct (layer_start_bounds k n Hlv) as (Hbounds & Heven & Hiff).
  change UINT32_MOD with 4294967296 in Hn.
  exists (1 + layer_start k n). split.
  - apply (calc_tree_size_loop_spec k 64 1 n Hlv); [lia|lia|].
    rewrite UINT64_MOD_eq. lia.
  - split; [|split].
    + rewrite Z.add_mod, Heven by lia. reflexivity.
    + rewrite Hk. lia.
    + rewrite Hk. rewrite <- Hiff. lia.
Qed.

Lemma calc_tree_size_bounds_witness :
  exists s, calc_tree_size 5 = Some s /\ 9 <= s <= 15.
Proof.
  destruct (calc_tree_size_bounds 5 ltac:(vm_compute; split; [discriminate|reflexivity]))
    as (s & Hs & _ & Hb & _).
  exists s. split; [exact Hs|]. change (height 5) with 3 in Hb. lia.
Defined.

(** X20.  [calc_tree_size] returns for every 64-bit argument: halving ends
    the loop within 64 rounds.  Up to 2^62 no sum wraps around, and the
    result is the one of the same steps taken on unbounded integers. *)
Theorem calc_tree_size_returns (n : Z) :
  0 <= n < UINT64_MOD ->
  exists s, calc_tree_size n = Some s /\ 0 <= s < UINT64_MOD /\
            (n <= 2 ^ 62 -> s = tree_size_spec 64 1 n /\ 1 <= s).
Proof.
  intros Hn. destruct (calc_tree_size_total n Hn) as [s Hs].
  exists s. split; [exact Hs|]. split; [exact (calc_tree_size_range n s Hs)|].
  intros Hsmall.
  pose proof (calc_tree_size_spec n ltac:(lia)) as Hspec.
  assert (Heq : s = tree_size_spec 64 1 n) by congruence.
  split; [exact Heq|]. rewrite Heq. clear Hs Hspec Heq.
  destruct (Z.le_gt_cases n 1) as [Hle|Hgt].
  - assert (Hn01 : n = 0 \/ n = 1) by lia.
    destruct Hn01 as [-> | ->]; vm_compute; discriminate.
  - assert (Hlv : levels_of (Z.of_nat (Z.to_nat (height_closed_form n))) n).
    { pose proof (levels_of_closed_form n ltac:(lia)) as Hlv.
      rewrite Z2Nat.id by apply Hlv. exact Hlv. }
    assert (Hk : (Z.to_nat (height_closed_form n) <= 64)%nat).
    { destruct Hlv as (_ & Hlo & _).
      assert (Hpow : 2 ^ Z.of_nat (Z.to_nat (height_closed_form n)) < 2 ^ 64) by lia.
      apply Z.pow_lt_mono_r_iff in Hpow; lia. }
    rewrite (tree_size_spec_levels _ 64 1 n Hlv Hk).
    pose proof (layer_start_nonneg (Z.to_nat (height_closed_form n)) n ltac:(lia)). lia.
Qed.

Lemma calc_tree_size_returns_witness :
  exists s, calc_tree_size 5 = Some s /\ s = tree_size_spec 64 1 5.
Proof.
  destruct (calc_tree_size_returns 5 ltac:(vm_compute; split; [discriminate|reflexivity]))
    as (s & Hs & _ & Hspec).
  exists s. split; [exact Hs|]. apply Hspec. vm_compute. discriminate.
Defined.
(** ** bytes_concat.hpp *)

Section ConcatFacts.

Lemma concat_flat (args : list (list byte)) : concat args = List.concat args.
Proof. unfold concat. rewrite concat_app. reflexivity. Qed.

Lemma length_le_bytes (width : nat) (v : Z) : length (le_bytes width v) = width.
Proof.
  revert v. induction width as [|w IH]; intros v; [reflexivity|].
  cbn [le_bytes].
  destruct (Byte.of_N (Z.to_N (v mod 256))) as [b|] eqn:Hb.
  - cbn [length]. rewrite IH. reflexivity.
  - apply Byte.of_N_None_iff in Hb.
    pose proof (Z.mod_pos_bound v 256 ltac:(lia)). lia.
Qed.

Lemma total_size_length (args : list (list byte)) :
  TrivialConcatenator.total_size args = length (List.concat args).
Proof.
  induction args as [|a args IH]; [reflexivity|].
  cbn [TrivialConcatenator.total_size fold_right List.concat].
  rewrite length_app. f_equal. exact IH.
Qed.

Lemma memcpy_middle (P R1 R2 src : list byte) :
  length R1 = length src ->
  TrivialConcatenator.memcpy (P ++ R1 ++ R2) (Z.of_nat (length P)) src
    = Some (P ++ src ++ R2).
Proof.
  intros Hlen. unfold TrivialConcatenator.memcpy.
  rewrite !length_app.
  destruct (Z.leb_spec 0 (Z.of_nat (length P))) as [_|]; [|lia].
  destruct (Z.leb_spec (Z.of_nat (length P) + Z.of_nat (length src))
              (Z.of_nat (length P + (length R1 + length R2)))) as [_|]; [|lia].
  cbn [andb]. rewrite Nat2Z.id.
  rewrite take_app_length.
  rewrite <- Hlen, drop_app_add, drop_app_length. reflexivity.
Qed.

Lemma copy_args_spec (args : list (list byte)) : forall P R : list byte,
  length R = TrivialConcatenator.total_size args ->
  Z.of_nat (length P + length R) < UINT64_MOD ->
  TrivialConcatenator.copy_args (P ++ R) (Z.of_nat (length P)) args
    = Some (P ++ List.concat args).
Proof.
  induction args as [|a args IH]; intros P R HR Hfit.
  - destruct R; [|discriminate]. cbn. reflexivity.
  - cbn [TrivialConcatenator.total_size fold_right] in HR.
    fold (TrivialConcatenator.total_size args) in HR.
    cbn [TrivialConcatenator.copy_args List.concat].
    rewrite <- (take_drop (length a) R).
    assert (Htake : length (take (length a) R) = length a)
      by (rewrite length_take; lia).
    rewrite (memcpy_middle P _ _ a Htake). cbn [mbind option_bind].
    rewrite u64_small by (rewrite UINT64_MOD_eq in *; lia).
    replace (Z.of_nat (length P) + Z.of_nat (length a))
      with (Z.of_nat (length (P ++ a))) by (rewrite length_app; lia).
    rewrite (app_assoc P a (drop _ R)), (app_assoc P a (List.concat args)).
    apply IH.
    + rewrite length_drop. lia.
    + rewrite length_app, length_drop. lia.
Qed.

End ConcatFacts.

(** X5.  [UnifiedConcatenator::concat] returns the bytes of its arguments in
    order with nothing in between: the boundaries of the arguments leave no
    trace, so two argument lists with the same bytes give the same result,
    and concatenating in groups gives the result of concatenating at
    once. *)
Theorem concat_joins_bytes (args : list (list byte)) :
  concat args = List.concat args /\
  concat [] = [] /\
  (forall args', List.concat args' = List.concat args -> concat args' = concat args) /\
  (forall xs ys, args = xs ++ ys -> concat [concat xs; concat ys] = concat args).
Proof.
  split; [apply concat_flat|]. split; [reflexivity|]. split.
  - intros args' Heq. rewrite !concat_flat. exact Heq.
  - intros xs ys ->. rewrite !concat_flat. cbn [List.concat].
    rewrite app_nil_r, List.concat_app. reflexivity.
Qed.

Lemma concat_joins_bytes_witness :
  concat [str "ab"; str "c"] = concat [str "a"; str "bc"].
Proof.
  apply (proj1 (proj2 (proj2 (concat_joins_bytes [str "a"; str "bc"])))).
  reflexivity.
Defined.

(** X6.  [TrivialConcatenator::concat], called with at least one argument
    whose sizes add up to less than 2^64, never writes outside its array,
    leaves none of its bytes indeterminate, and returns the object
    representations of the arguments in order: the bytes that
    [UnifiedConcatenator::concat] gives for them. *)
Theorem trivial_concat_bytes (indeterminate : byte) (a : list byte)
    (args : list (list byte)) :
  Z.of_nat (length (List.concat (a :: args))) < UINT64_MOD ->
  TrivialConcatenator.concat indeterminate (a :: args)
    = Some (List.concat (a :: args)) /\
  TrivialConcatenator.concat indeterminate (a :: args)
    = Some (concat (a :: args)).
Proof.
  intros Hfit. rewrite concat_flat.
  assert (Hgoal : TrivialConcatenator.concat indeterminate (a :: args)
                  = Some (List.concat (a :: args))); [|split; exact Hgoal].
  unfold TrivialConcatenator.concat.
  apply (copy_args_spec (a :: args) []).
  - rewrite length_replicate. reflexivity.
  - rewrite length_replicate, total_size_length. exact Hfit.
Qed.

Lemma trivial_concat_bytes_witness :
  TrivialConcatenator.concat "000"%byte [int_bytes 1; str "lhs"; str "rhs"]
    = Some (int_bytes 1 ++ str "lhs" ++ str "rhs").
Proof.
  apply (proj1 (trivial_concat_bytes "000"%byte (int_bytes 1) [str "lhs"; str "rhs"]
                  ltac:(vm_compute; reflexivity))).
Defined.

(** ** Hashing several arguments *)

(** X7.  [leaf_hash] and [node_hash] see their arguments only through the
    concatenation: argument lists with the same bytes have the same hash.
    In particular the node hash of two hashes is the node hash of their
    concatenation, which is how the tests compute the hashes they expect
    ([nh(l + r)] with the [operator+] of the tests). *)
Theorem hash_of_joined_arguments `{H : Hasher} (args args' : list (list byte)) :
  List.concat args = List.concat args' ->
  leaf_hash args = leaf_hash args' /\
  node_hash args = node_hash args' /\
  leaf_hash args = leaf_hash [concat args] /\
  node_hash args = node_hash [concat args] /\
  forall l r : value_type,
    node_hash [value_bytes l; value_bytes r]
      = node_hash [MerkleTest.operator_plus l r].
Proof.
  intros Heq. unfold leaf_hash, node_hash.
  rewrite !concat_salted, Heq. split; [reflexivity|]. split; [reflexivity|].
  rewrite concat_flat. cbn [List.concat]. rewrite !app_nil_r, Heq.
  split; [reflexivity|]. split; [reflexivity|].
  intros l r. rewrite !concat_salted. unfold MerkleTest.operator_plus.
  rewrite concat_flat. cbn [List.concat]. rewrite !app_nil_r. reflexivity.
Qed.

Lemma hash_of_joined_arguments_witness :
  leaf_hash (H := IdentityHasher.hasher) [str "ab"; str "c"]
    = leaf_hash [str "a"; str "bc"].
Proof.
  apply (proj1 (hash_of_joined_arguments (H := IdentityHasher.hasher)
                  [str "ab"; str "c"] [str "a"; str "bc"] eq_refl)).
Defined.
(** ** build on other inputs *)

Section BuildEdges.

Context {H : Hasher}.

(** More items than slots left: the write behind the last slot. *)
Lemma fill_leaves_overflow (items : list Item) :
  forall (m : list value_type) (it : Z),
    0 <= it <= Z.of_nat (length m) ->
    Z.of_nat (length m) < it + Z.of_nat (length items) ->
    Z.of_nat (length m) < UINT64_MOD ->
    fill_leaves m it items = None.
Proof.
  induction items as [|x items IH]; intros m it Hit Hover Hfit.
  - cbn [length] in Hover. lia.
  - cbn [fill_leaves].
    destruct (store m it (leaf_hash [x])) as [m'|] eqn:Hstore; [|reflexivity].
    cbn [mbind option_bind].
    pose proof (store_length _ _ _ _ Hstore) as Hlen.
    unfold store in Hstore.
    destruct (Z.leb_spec 0 it); [|discriminate].
    destruct (Z.ltb_spec it (Z.of_nat (length m))); [|discriminate].
    rewrite u64_small by (rewrite UINT64_MOD_eq in *; lia).
    apply IH; rewrite Hlen; cbn [length] in Hover; lia.
Qed.

(** [build] for two leaves or more on a container that fits the storage:
    the leaf slots without an item keep their hashes, the items behind
    the [N]-th are overwritten by the levels. *)
Lemma build_general (T : FixedSizeTree) (items : list Item) (k : nat) :
  well_sized T ->
  levels_of (Z.of_nat k) (LEAFS_N T) -> 2 <= LEAFS_N T < UINT32_MOD ->
  (length items <= length (m_data T))%nat ->
  build T items
    = Some (mkTree _ (LEAFS_N T)
              (flat_tree k (take (Z.to_nat (LEAFS_N T))
                 (leaf_hashes items ++ drop (length items) (m_data T))))).
Proof.
  intros Hws Hk Hrange Hfit.
  pose proof (well_sized_length T k Hws Hk (proj2 Hrange)) as Hsize.
  destruct (layer_start_bounds k _ Hk) as ((Hlo & Hhi) & _ & _).
  pose proof (levels_of_bound _ _ Hk (proj2 Hrange)) as Hk32.
  change UINT32_MOD with 4294967296 in Hrange.
  set (m := leaf_hashes items ++ drop (length items) (m_data T)).
  assert (Hm : length m = length (m_data T)).
  { subst m. rewrite length_app, length_leaf_hashes, length_drop. lia. }
  set (L := take (Z.to_nat (LEAFS_N T)) m).
  assert (HL : Z.of_nat (length L) = LEAFS_N T).
  { subst L. rewrite length_take. lia. }
  pose proof (length_flat_tree k L) as Hflat.
  rewrite HL, (levels_of_top k _ Hk) in Hflat.
  unfold build.
  destruct (Z.eqb_spec (LEAFS_N T) 1) as [|_]; [lia|].
  pose proof (fill_leaves_spec items [] (m_data T)) as Hfill.
  cbn [app length] in Hfill. change (Z.of_nat 0) with 0 in Hfill.
  rewrite Hfill by (rewrite ?UINT64_MOD_eq; lia). clear Hfill.
  cbn [mbind option_bind]. fold m.
  rewrite <- (take_drop (Z.to_nat (LEAFS_N T)) m). fold L.
  pose proof (build_levels_spec k BUILD_FUEL [] L
                (drop (Z.to_nat (LEAFS_N T)) m)) as Hlv.
  cbn [app length Nat.add] in Hlv. change (Z.of_nat 0) with 0 in Hlv.
  rewrite HL in Hlv. rewrite Hlv.
  - cbn [mbind option_bind]. do 2 f_equal.
    rewrite drop_drop, drop_ge by lia. apply app_nil_r.
  - exact Hk.
  - unfold BUILD_FUEL. lia.
  - reflexivity.
  - rewrite length_drop. lia.
  - rewrite length_app, length_drop. rewrite UINT64_MOD_eq. lia.
Qed.

Lemma height_as_nat (n : Z) :
  1 <= n < UINT32_MOD -> levels_of (Z.of_nat (Z.to_nat (height n))) n.
Proof.
  intros Hn. pose proof (height_levels_of n Hn) as Hlv.
  rewrite Z2Nat.id by apply Hlv. exact Hlv.
Qed.

End BuildEdges.

(** X8.  [build] for two leaves or more, given more than [LEAFS_N] items:
    while the container fits the storage, the tree is the one built from
    the first [LEAFS_N] items; a container with more items than the storage
    has slots makes the leaf loop write behind the array. *)
Theorem build_surplus_items `{H : Hasher} (T : FixedSizeTree) (items : list Item) :
  well_sized T -> 2 <= LEAFS_N T < UINT32_MOD ->
  LEAFS_N T <= Z.of_nat (length items) ->
  ((length items <= length (m_data T))%nat ->
   build T items = build T (take (Z.to_nat (LEAFS_N T)) items) /\
   build T items = Some (built_tree T (take (Z.to_nat (LEAFS_N T)) items))) /\
  ((length (m_data T) < length items)%nat -> build T items = None).
Proof.
  intros Hws Hrange Hmany.
  pose proof (height_as_nat (LEAFS_N T) ltac:(lia)) as Hk.
  set (k := Z.to_nat (height (LEAFS_N T))) in *.
  pose proof (well_sized_length T k Hws Hk (proj2 Hrange)) as Hsize.
  destruct (layer_start_bounds k _ Hk) as ((Hlo & _) & _ & _).
  split.
  - intros Hfit.
    assert (Hfirst : build T items
                     = Some (built_tree T (take (Z.to_nat (LEAFS_N T)) items))).
    { rewrite (build_general T items k Hws Hk Hrange Hfit).
      unfold built_tree. fold k. do 3 f_equal.
      rewrite take_app_le by (rewrite length_leaf_hashes; lia).
      unfold leaf_hashes. rewrite fmap_take. reflexivity. }
    split; [|exact Hfirst]. rewrite Hfirst. symmetry.
    rewrite (build_general T _ k Hws Hk Hrange) by (rewrite length_take; lia).
    unfold built_tree. fold k. do 3 f_equal.
    rewrite take_app_le by (rewrite length_leaf_hashes, length_take; lia).
    rewrite take_ge by (rewrite length_leaf_hashes, length_take; lia).
    reflexivity.
  - intros Hover. unfold build.
    destruct (Z.eqb_spec (LEAFS_N T) 1) as [|_]; [lia|].
    rewrite fill_leaves_overflow; [reflexivity|lia|lia|].
    rewrite UINT64_MOD_eq. change UINT32_MOD with 4294967296 in Hrange.
    destruct (layer_start_bounds k _ Hk) as ((_ & Hhi) & _ & _).
    pose proof (levels_of_bound _ _ Hk (proj2 Hrange)). lia.
Qed.

Lemma build_surplus_items_witness :
  let H := IdentityHasher.hasher in
  build (declared 2 (replicate 3 value_init)) [str "lhs"; str "rhs"; str "more"]
    = build (declared 2 (replicate 3 value_init)) [str "lhs"; str "rhs"] /\
  build (declared 2 (replicate 3 value_init))
    [str "lhs"; str "rhs"; str "more"; str "still more"] = None.
Proof.
  cbn zeta.
  assert (Hws : well_sized (declared (H := IdentityHasher.hasher) 2 (replicate 3 value_init))).
  { split; [split; [discriminate|reflexivity]|reflexivity]. }
  assert (Hrange : 2 <= 2 < UINT32_MOD) by (split; [discriminate|reflexivity]).
  split.
  - apply (proj1 (build_surplus_items _ [str "lhs"; str "rhs"; str "more"] Hws Hrange
                    ltac:(cbn; lia))).
    cbn. lia.
  - apply (proj2 (build_surplus_items _ [str "lhs"; str "rhs"; str "more"; str "still more"]
                    Hws Hrange ltac:(cbn; lia))).
    cbn. lia.
Defined.

(** X9.  [build] for two leaves or more, given fewer than [LEAFS_N] items:
    the leaf slots behind the last item are not written, and the tree is
    built over the hashes that the storage held there. *)
Theorem build_missing_items `{H : Hasher} (T : FixedSizeTree) (items : list Item) :
  well_sized T -> 2 <= LEAFS_N T < UINT32_MOD ->
  Z.of_nat (length items) < LEAFS_N T ->
  let stale := take (Z.to_nat (LEAFS_N T) - length items)
                 (drop (length items) (m_data T)) in
  build T items
    = Some (mkTree _ (LEAFS_N T)
              (flat_tree (Z.to_nat (height (LEAFS_N T)))
                 (leaf_hashes items ++ stale))) /\
  Z.of_nat (length (leaf_hashes items ++ stale)) = LEAFS_N T.
Proof.
  intros Hws Hrange Hfew stale.
  pose proof (height_as_nat (LEAFS_N T) ltac:(lia)) as Hk.
  set (k := Z.to_nat (height (LEAFS_N T))) in *.
  pose proof (well_sized_length T k Hws Hk (proj2 Hrange)) as Hsize.
  destruct (layer_start_bounds k _ Hk) as ((Hlo & _) & _ & _).
  split.
  - rewrite (build_general T items k Hws Hk Hrange) by lia.
    do 3 f_equal.
    rewrite take_app_ge by (rewrite length_leaf_hashes; lia).
    rewrite length_leaf_hashes. reflexivity.
  - subst stale. rewrite length_app, length_leaf_hashes, length_take, length_drop.
    lia.
Qed.

Lemma build_missing_items_witness :
  build (declared (H := IdentityHasher.hasher) 2 [str "a"; str "b"; str "c"])
      [str "lhs"]
    = Some (mkTree IdentityHasher.hasher 2
              (flat_tree (H := IdentityHasher.hasher) 1
                 [leaf_hash (H := IdentityHasher.hasher) [str "lhs"]; str "b"])).
Proof.
  refine (proj1 (build_missing_items (H := IdentityHasher.hasher)
                   (declared (H := IdentityHasher.hasher) 2
                      [str "a"; str "b"; str "c"]) [str "lhs"] _ _ _)).
  - split; [split; [discriminate|reflexivity]|reflexivity].
  - split; [discriminate|reflexivity].
  - reflexivity.
Defined.

(** X10.  [build] on the declared number of items overwrites every slot:
    the tree it leaves is the same whatever the storage held before, so
    building again changes nothing, and it keeps the number of leaves and
    the extent of the storage. *)
Theorem build_overwrites_storage `{H : Hasher} (T1 T2 : FixedSizeTree)
    (items : list Item) :
  well_sized T1 -> well_sized T2 -> LEAFS_N T2 = LEAFS_N T1 ->
  Z.of_nat (length items) = LEAFS_N T1 -> 1 <= LEAFS_N T1 < UINT32_MOD ->
  exists T,
    build T1 items = Some T /\ build T2 items = Some T /\
    build T items = Some T /\
    well_sized T /\ LEAFS_N T = LEAFS_N T1.
Proof.
  intros Hws1 Hws2 HN Hitems Hrange.
  destruct (Z.eq_dec (LEAFS_N T1) 1) as [Hone|Hne].
  - destruct items as [|x [|? ?]]; cbn [length] in Hitems; try lia.
    assert (Hslot : forall T : FixedSizeTree,
               well_sized T -> LEAFS_N T = 1 ->
               build T [x] = Some (mkTree _ 1 [node_hash [x]])).
    { intros T [_ Hsize] HT. rewrite HT in Hsize. injection Hsize as Hsize.
      unfold build. rewrite HT. cbn [Z.eqb Pos.eqb].
      destruct (m_data T) as [|slot [|? ?]]; cbn [length] in Hsize; try lia.
      reflexivity. }
    exists (mkTree _ 1 [node_hash [x]]).
    split; [apply Hslot; assumption|]. split; [apply Hslot; congruence|].
    split; [reflexivity|]. split; [|symmetry; exact Hone].
    split; [split; [discriminate|reflexivity]|reflexivity].
  - assert (Hrange' : 2 <= LEAFS_N T1 < UINT32_MOD) by lia.
    exists (built_tree T1 items).
    pose proof (built_well_sized T1 items Hws1 Hitems Hrange') as Hws.
    split; [apply build_built; assumption|]. split; [|split; [|split]].
    + rewrite (build_built T2 items Hws2) by (rewrite HN; assumption).
      unfold built_tree. rewrite HN. reflexivity.
    + apply (build_built (built_tree T1 items) items Hws); assumption.
    + exact Hws.
    + reflexivity.
Qed.

Lemma build_overwrites_storage_witness :
  build (declared (H := IdentityHasher.hasher) 2 [str "a"; str "b"; str "c"])
      [str "lhs"; str "rhs"]
    = build (declared 2 (replicate 3 value_init)) [str "lhs"; str "rhs"].
Proof.
  destruct (build_overwrites_storage (H := IdentityHasher.hasher)
              (declared (H := IdentityHasher.hasher) 2 [str "a"; str "b"; str "c"])
              (declared 2 (replicate 3 value_init)) [str "lhs"; str "rhs"])
    as (T & H1 & H2 & _).
  - split; [split; [discriminate|reflexivity]|reflexivity].
  - split; [split; [discriminate|reflexivity]|reflexivity].
  - reflexivity.
  - reflexivity.
  - split; [discriminate|reflexivity].
  - rewrite H1, H2. reflexivity.
Defined.

(** X11.  A tree declared with no leaf: the loop over the levels of [build]
    starts with [l = r = 0], its guard [l < r - 1] holds, and a round
    changes neither; no number of rounds ends it, and [build] returns no
    tree, whatever the container holds. *)
Theorem build_without_leaves `{H : Hasher} (slots : list value_type)
    (items : list Item) :
  (forall (fuel : nat) (m : list value_type), build_levels fuel m 0 0 = None) /\
  build (declared 0 slots) items = None.
Proof.
  split; [intros fuel m; apply build_levels_zero|].
  unfold build, declared. cbn [LEAFS_N m_data Z.eqb].
  destruct (fill_leaves slots 0 items) as [m|]; [|reflexivity].
  cbn [mbind option_bind]. rewrite build_levels_zero. reflexivity.
Qed.
(** ** The proof that get_proof returns *)

Section ProofShape.

Context {H : Hasher}.
Implicit Types (L : list value_type).

(** The entry [i] of the walk: the neighbour of the ancestor [i] levels
    above the leaf, and the side the ancestor sits on. *)
Lemma walk_lookup (k : nat) : forall L (idx i : nat),
  levels_of (Z.of_nat k) (Z.of_nat (length L)) -> (idx < length L)%nat ->
  (i < k)%nat ->
  exists s,
    walk (lower_levels k L) idx !! i = Some (s, Nat.odd (idx / 2 ^ i)) /\
    even_up (level i L) !! sibling (idx / 2 ^ i) = Some s.
Proof.
  induction k as [|k IH]; intros L idx i Hk Hidx Hi; [lia|].
  apply levels_of_parent in Hk as [Hn Hk]. rewrite <- length_parent_level_Z in Hk.
  cbn [lower_levels walk].
  pose proof (length_even_up L) as HE. pose proof (even_up_even L) as HEe.
  destruct (lookup_lt_is_Some_2 (even_up L) (sibling idx)) as [s Hs].
  { apply sibling_lt; [lia|exact HEe]. }
  rewrite Hs. destruct i as [|i].
  - exists s. cbn [Nat.pow level]. rewrite Nat.div_1_r. split; [reflexivity|exact Hs].
  - destruct (IH (parent_level L) (idx / 2)%nat i Hk) as (s' & Hw & Hlv);
      [rewrite length_parent_level; lia|lia|].
    exists s'. cbn [level lookup list_lookup].
    replace (idx / 2 ^ S i)%nat with (idx / 2 / 2 ^ i)%nat
      by (rewrite Nat.Div0.div_div; reflexivity).
    split; [exact Hw|exact Hlv].
Qed.

Lemma shiftr_of_nat (idx i : nat) :
  Z.shiftr (Z.of_nat idx) (Z.of_nat i) = Z.of_nat (idx / 2 ^ i).
Proof.
  rewrite Z.shiftr_div_pow2 by lia.
  rewrite Nat2Z.inj_div, Nat2Z.inj_pow. reflexivity.
Qed.

Lemma odd_of_nat (n : nat) : Z.odd (Z.of_nat n) = Nat.odd n.
Proof.
  rewrite <- odd_flag, land_1, Zodd_mod.
  destruct (Z.eqb_spec (Z.of_nat n mod 2) 0) as [->|Hne]; [reflexivity|].
  destruct (Z.eqb_spec (Z.of_nat n mod 2) 1) as [_|Hne1]; [reflexivity|].
  pose proof (Z.mod_pos_bound (Z.of_nat n) 2 ltac:(lia)). lia.
Qed.

Lemma sibling_of_nat (n : nat) :
  (if Nat.odd n then Z.of_nat n - 1 else Z.of_nat n + 1) = Z.of_nat (sibling n).
Proof.
  unfold sibling. destruct (Nat.odd n) eqn:Hodd; [|lia].
  apply Nat.odd_spec in Hodd as [q ->]. lia.
Qed.

End ProofShape.

(** X14.  The proof [get_proof] returns for an item of a built tree: it
    comes with the leaf hash of the item and has [height + 1] entries; the
    last carries the root, with its flag unset; the entry [i] below it
    carries the neighbour, in the layer [height - i], of the ancestor of
    the leaf that [find_leaf] found, and its flag is the bit [i] of the leaf
    index: set when the ancestor is the right one of its pair. *)
Theorem proof_shape `{H : Hasher} (T0 : FixedSizeTree) (items : list Item)
    (d : Item) :
  well_sized T0 -> Z.of_nat (length items) = LEAFS_N T0 ->
  2 <= LEAFS_N T0 < UINT32_MOD -> d ∈ items ->
  exists T idx proof r,
    build T0 items = Some T /\ find_leaf T d = Some idx /\
    0 <= idx < LEAFS_N T /\ root T = Some r /\
    get_proof T d = Some (LeafAndProof (leaf_hash [d]) proof) /\
    Z.of_nat (length proof) = tree_height T + 1 /\
    list.last proof = Some (r, false) /\
    forall i : nat, Z.of_nat i < tree_height T ->
      let pos := Z.shiftr idx (Z.of_nat i) in
      let layer := (get_layer T (tree_height T - Z.of_nat i)).1 in
      exists s,
        proof !! i = Some (s, Z.odd pos) /\
        load (m_data T) (layer + (if Z.odd pos then pos - 1 else pos + 1))
          = Some s.
Proof.
  intros Hws Hitems Hrange Hin.
  pose proof (build_built T0 items Hws Hitems Hrange) as Hbuild.
  pose proof (built_flat T0 items Hitems Hrange) as Hflat.
  destruct (built_find_item T0 items Hitems Hrange d Hin) as (idx & Hfind & Hleaf).
  set (T := built_tree T0 items) in *.
  set (L0 := leaf_hashes items) in *.
  set (h := Z.to_nat (height (LEAFS_N T0))) in *.
  destruct (built_top T L0 h Hflat) as [top Htop].
  pose proof (built_root T L0 h Hflat top ltac:(rewrite Htop; reflexivity)) as Hroot.
  pose proof (built_get_proof T L0 h Hflat d idx _ top Hfind Hleaf Htop) as Hproof.
  pose proof (built_height T L0 h Hflat) as Hheight.
  pose proof (built_h_bound T L0 h Hflat) as Hh.
  pose proof (lookup_lt_Some _ _ _ Hleaf) as Hidx.
  assert (HL0 : Z.of_nat (length L0) = LEAFS_N T0)
    by (subst L0; rewrite length_leaf_hashes; exact Hitems).
  assert (Hlv : levels_of (Z.of_nat h) (Z.of_nat (length L0))).
  { rewrite HL0. apply Hflat. }
  exists T, (Z.of_nat idx), (walk (lower_levels h L0) idx ++ [(top, false)]), top.
  split; [exact Hbuild|]. split; [exact Hfind|].
  split; [change (LEAFS_N T) with (LEAFS_N T0); lia|].
  split; [exact Hroot|]. split; [exact Hproof|].
  unfold tree_height, get_leafs_n. rewrite Hheight.
  split; [|split].
  - rewrite length_app, (length_walk h L0 idx Hlv Hidx). cbn [length]. lia.
  - rewrite last_snoc. reflexivity.
  - intros i Hi. cbn zeta.
    destruct (walk_lookup h L0 idx i Hlv Hidx ltac:(lia)) as (s & Hw & Hs).
    exists s. rewrite shiftr_of_nat, odd_of_nat, sibling_of_nat.
    split.
    + unfold Proof. rewrite lookup_app_l by (rewrite (length_walk h L0 idx Hlv Hidx); lia).
      exact Hw.
    + replace (Z.of_nat h - Z.of_nat i) with (Z.of_nat (h - i)) by lia.
      rewrite (get_layer_spec T h i) by (try exact Hheight; cbn [LEAFS_N T built_tree]; lia).
      cbn [fst].
      pose proof (lookup_lt_Some _ _ _ Hs) as Hlt.
      pose proof (layer_start_nonneg i (LEAFS_N T0) ltac:(lia)) as Hnn.
      unfold load.
      destruct (Z.ltb_spec (layer_start i (LEAFS_N T) + Z.of_nat (sibling (idx / 2 ^ i))) 0)
        as [Hneg|_]; [change (LEAFS_N T) with (LEAFS_N T0) in Hneg; lia|].
      change (m_data T) with (flat_tree h L0).
      change (LEAFS_N T) with (LEAFS_N T0). rewrite <- HL0.
      rewrite (flat_tree_lookup_level h i L0) by (try exact Hlt; lia).
      exact Hs.
Qed.

Lemma proof_shape_witness :
  let H := TestHasher.hasher in
  exists T proof,
    build (declared 3 (replicate 7 value_init))
      [str "passwords.db"; str "users.txt"; str "raw_data.bin"] = Some T /\
    get_proof T (str "users.txt") = Some (LeafAndProof (leaf_hash [str "users.txt"]) proof) /\
    Z.of_nat (length proof) = tree_height T + 1.
Proof.
  cbn zeta.
  destruct (proof_shape (H := TestHasher.hasher)
              (declared 3 (replicate 7 value_init))
              [str "passwords.db"; str "users.txt"; str "raw_data.bin"]
              (str "users.txt"))
    as (T & idx & proof & r & Hbuild & _ & _ & _ & Hproof & Hlen & _).
  - split; [split; [discriminate|reflexivity]|reflexivity].
  - reflexivity.
  - split; [discriminate|reflexivity].
  - apply list_elem_of_further, list_elem_of_here.
  - exists T, proof. split; [exact Hbuild|]. split; [exact Hproof|exact Hlen].
Defined.

(** ** The proof tests of tests/merkle_test.cc *)

Section TestFacts.

Context {H : Hasher}.

Lemma test_step_proof_step (v : value_type) (e : value_type * bool) :
  MerkleTest.test_step v e = proof_step v e.
Proof.
  destruct e as [s flag]. unfold MerkleTest.test_step, proof_step. cbn [fst snd].
  unfold MerkleTest.operator_plus, node_hash.
  rewrite !concat_salted, !concat_flat. cbn [List.concat].
  rewrite !app_nil_r. reflexivity.
Qed.

Lemma test_loop_verify_loop (proof : Proof) (count : nat) :
  forall (i : Z) (v : value_type),
    MerkleTest.test_loop proof count i v = verify_proof_loop proof count i v.
Proof.
  induction count as [|c IH]; intros i v; [reflexivity|].
  cbn [MerkleTest.test_loop verify_proof_loop].
  destruct (load proof i) as [e|]; [|reflexivity]. cbn [mbind option_bind].
  rewrite test_step_proof_step, IH. reflexivity.
Qed.

End TestFacts.

(** X15.  The check of the two proof tests succeeds on every tree built from
    the declared number of items, two or more and fewer than 2^32, and for
    every item: the first component [get_proof] returns is the leaf hash of
    the item, and folding the entries before the last one with the
    [operator+] of the tests ends in the hash of the last entry. *)
Theorem proof_test_passes `{H : Hasher} (T0 : FixedSizeTree) (items : list Item)
    (s : Item) :
  well_sized T0 -> Z.of_nat (length items) = LEAFS_N T0 ->
  2 <= LEAFS_N T0 < UINT32_MOD -> s ∈ items ->
  exists T, build T0 items = Some T /\ MerkleTest.proof_test T s = Some true.
Proof.
  intros Hws Hitems Hrange Hin.
  pose proof (build_built T0 items Hws Hitems Hrange) as Hbuild.
  pose proof (built_flat T0 items Hitems Hrange) as Hflat.
  destruct (built_find_item T0 items Hitems Hrange s Hin) as (idx & Hfind & Hleaf).
  set (T := built_tree T0 items) in *.
  set (L0 := leaf_hashes items) in *.
  set (h := Z.to_nat (height (LEAFS_N T0))) in *.
  destruct (built_top T L0 h Hflat) as [top Htop].
  pose proof (built_get_proof T L0 h Hflat s idx _ top Hfind Hleaf Htop) as Hproof.
  pose proof (built_fold T L0 h Hflat idx _ top Hleaf Htop) as Hround.
  pose proof (built_h_bound T L0 h Hflat) as Hh.
  pose proof (lookup_lt_Some _ _ _ Hleaf) as Hidx.
  assert (Hlv : levels_of (Z.of_nat h) (Z.of_nat (length L0))).
  { replace (Z.of_nat (length L0)) with (LEAFS_N T0); [apply Hflat|].
    subst L0. rewrite length_leaf_hashes. symmetry. exact Hitems. }
  pose proof (length_walk h L0 idx Hlv Hidx) as Hwalk.
  exists T. split; [exact Hbuild|].
  unfold MerkleTest.proof_test. rewrite Hproof. cbn [mbind option_bind].
  rewrite last_snoc. cbn [mbind option_bind fst].
  rewrite test_loop_verify_loop.
  set (entries := walk (lower_levels h L0) idx) in *.
  assert (HI : INT_MAX = 2147483647) by reflexivity.
  rewrite length_app. cbn [length].
  replace (u64 (Z.of_nat (length entries + 1) - 1)) with (Z.of_nat (length entries))
    by (rewrite u64_small; rewrite ?UINT64_MOD_eq; lia).
  rewrite Nat2Z.id.
  pose proof (verify_proof_loop_spec entries [] [(top, false)] (leaf_hash [s])) as Hloop.
  cbn [app length Nat.add] in Hloop. change (Z.of_nat 0) with 0 in Hloop.
  rewrite Hloop by lia. cbn [mbind option_bind].
  rewrite Hround, !bool_decide_eq_true_2 by reflexivity. reflexivity.
Qed.

Lemma proof_test_passes_witness :
  let H := TestHasher.hasher in
  exists T,
    build (declared 2 (replicate 3 value_init)) [str "lhs"; str "rhs"] = Some T /\
    MerkleTest.proof_test T (str "lhs") = Some true.
Proof.
  cbn zeta.
  apply (proof_test_passes (H := TestHasher.hasher)
           (declared 2 (replicate 3 value_init)) [str "lhs"; str "rhs"] (str "lhs")).
  - split; [split; [discriminate|reflexivity]|reflexivity].
  - reflexivity.
  - split; [discriminate|reflexivity].
  - apply list_elem_of_here.
Defined.
(** ** What a folded proof and a root say about the items *)

Section Collisions.

Context {H : Hasher}.

Variable w : nat.
Hypothesis Hplain : plain_hashes w.

(** The byte strings among which a collision is looked for. *)
Variable inputs : list (list byte).

Implicit Types (L E : list value_type) (v a b : value_type).

Lemma same_hash (x y : list byte) :
  x ∈ inputs -> y ∈ inputs -> m_hash x = m_hash y -> x = y \/ collision_among inputs.
Proof.
  intros Hx Hy Heq. destruct (decide (x = y)) as [Hxy|Hne]; [left; exact Hxy|].
  right. exists x, y. repeat split; assumption.
Qed.

Lemma hashed_left v a (x y : list byte) :
  hashed v -> hashed a -> value_bytes v ++ x = value_bytes a ++ y ->
  v = a /\ x = y.
Proof.
  intros [xv ->] [xa ->] Heq. destruct Hplain as [Hw Hinj].
  apply app_inj_1 in Heq as [Heq Hrest]; [|rewrite !Hw; reflexivity].
  split; [apply Hinj, Heq|exact Hrest].
Qed.

Lemma hashed_right v b (x y : list byte) :
  hashed v -> hashed b -> x ++ value_bytes v = y ++ value_bytes b -> v = b.
Proof.
  intros [xv ->] [xb ->] Heq. destruct Hplain as [Hw Hinj].
  apply app_inj_2 in Heq as [_ Heq]; [|rewrite !Hw; reflexivity].
  apply Hinj, Heq.
Qed.

Lemma salts_differ (x y : list byte) :
  int_bytes leaf_salt ++ x <> int_bytes node_salt ++ y.
Proof.
  assert (Hl : int_bytes leaf_salt = ["000"; "000"; "000"; "000"]%byte) by reflexivity.
  assert (Hn : int_bytes node_salt = ["001"; "000"; "000"; "000"]%byte) by reflexivity.
  rewrite Hl, Hn. cbn [app]. intros Heq. discriminate Heq.
Qed.

(** A leaf hash that is also a node hash is a collision. *)
Lemma leaf_is_no_node (x y : list byte) :
  int_bytes leaf_salt ++ x ∈ inputs -> int_bytes node_salt ++ y ∈ inputs ->
  m_hash (int_bytes leaf_salt ++ x) = m_hash (int_bytes node_salt ++ y) ->
  collision_among inputs.
Proof.
  intros Hx Hy Heq.
  exists (int_bytes leaf_salt ++ x), (int_bytes node_salt ++ y).
  split; [exact Hx|]. split; [exact Hy|]. split; [apply salts_differ|exact Heq].
Qed.

Lemma proof_step_eq v (e : value_type * bool) :
  proof_step v e = m_hash (step_input v e).
Proof.
  unfold proof_step, step_input. destruct e.2; apply node_hash_eq.
Qed.

Lemma node_hash_hashed (l r : list byte) : hashed (node_hash [l; r]).
Proof. rewrite node_hash_eq. eexists. reflexivity. Qed.

Lemma leaf_hash_hashed (x : Item) : hashed (leaf_hash [x]).
Proof. rewrite leaf_hash_eq. eexists. reflexivity. Qed.

Lemma proof_step_hashed v (e : value_type * bool) : hashed (proof_step v e).
Proof. rewrite proof_step_eq. eexists. reflexivity. Qed.

Lemma elem_of_even_up L a : a ∈ even_up L -> a ∈ L.
Proof.
  unfold even_up. destruct (Nat.odd (length L)); [|tauto].
  destruct (list.last L) as [x|] eqn:Hlast; [|rewrite app_nil_r; tauto].
  rewrite elem_of_app, list_elem_of_singleton. intros [Hin| ->]; [exact Hin|].
  rewrite last_lookup in Hlast. eapply list_elem_of_lookup_2, Hlast.
Qed.

(** A hash of the level above comes from a pair of the level, whose
    bytes were hashed for it. *)
Lemma elem_of_pair_up E (x : value_type) :
  x ∈ pair_up E ->
  exists a b,
    a ∈ E /\ b ∈ E /\
    x = m_hash (int_bytes node_salt ++ value_bytes a ++ value_bytes b) /\
    int_bytes node_salt ++ value_bytes a ++ value_bytes b ∈ pair_inputs E.
Proof.
  induction E as [E IH] using (induction_ltof1 _ (@length _)); unfold ltof in IH.
  destruct E as [|a [|b rest]]; cbn [pair_up pair_inputs].
  - intros Hin. apply elem_of_nil in Hin. contradiction.
  - intros Hin. apply elem_of_nil in Hin. contradiction.
  - rewrite elem_of_cons. intros [->|Hin].
    + exists a, b. split; [left|]. split; [right; left|].
      split; [apply node_hash_eq|left].
    + destruct (IH rest ltac:(cbn [length]; lia) Hin)
        as (a' & b' & Ha & Hb & Hx & Hinput).
      exists a', b'. split; [do 2 right; exact Ha|].
      split; [do 2 right; exact Hb|]. split; [exact Hx|right; exact Hinput].
Qed.

Lemma level_succ (i : nat) L : level (S i) L = parent_level (level i L).
Proof.
  revert L. induction i as [|i IH]; intros L; [reflexivity|].
  change (level (S (S i)) L) with (level (S i) (parent_level L)).
  rewrite IH. reflexivity.
Qed.

(** The bytes hashed for the pairs of the level [j] are among those
    hashed for the levels above [L]. *)
Lemma node_inputs_level (k : nat) : forall L (j : nat) (x : list byte),
  (j < k)%nat -> x ∈ pair_inputs (even_up (level j L)) -> x ∈ node_inputs k L.
Proof.
  induction k as [|k IH]; intros L j x Hj Hx; [lia|].
  cbn [node_inputs]. rewrite elem_of_app. destruct j as [|j].
  - left. exact Hx.
  - right. apply (IH (parent_level L) j); [lia|exact Hx].
Qed.

Lemma hashed_leaf_hashes (items : list Item) : Forall hashed (leaf_hashes items).
Proof.
  unfold leaf_hashes. apply Forall_fmap, list.Forall_forall. intros x _.
  apply leaf_hash_hashed.
Qed.

Lemma hashed_pair_up E : Forall hashed (pair_up E).
Proof.
  apply list.Forall_forall. intros x Hin.
  apply elem_of_pair_up in Hin as (a & b & _ & _ & -> & _).
  eexists. reflexivity.
Qed.

Lemma hashed_even_up L : Forall hashed L -> Forall hashed (even_up L).
Proof.
  rewrite !list.Forall_forall. intros HL x Hin. apply HL, elem_of_even_up, Hin.
Qed.

Lemma hashed_level (i : nat) L : Forall hashed L -> Forall hashed (level i L).
Proof.
  destruct i as [|i]; [tauto|]. intros _. rewrite level_succ. apply hashed_pair_up.
Qed.

(** One step down: the running hash before a step that lands in the
    level above [L] is in [L]. *)
Lemma step_down L v (e : value_type * bool) :
  Forall hashed L -> hashed v ->
  (forall x, x ∈ pair_inputs (even_up L) -> x ∈ inputs) -> step_input v e ∈ inputs ->
  proof_step v e ∈ parent_level L ->
  v ∈ L \/ collision_among inputs.
Proof.
  intros HL Hv Hpairs Hstep Hin. rewrite list.Forall_forall in HL.
  apply elem_of_pair_up in Hin as (a & b & Ha & Hb & Heq & Hinput).
  apply elem_of_even_up in Ha, Hb.
  rewrite proof_step_eq in Heq.
  apply same_hash in Heq as [Heq|Hcol];
    [|right; exact Hcol|exact Hstep|apply Hpairs, Hinput].
  unfold step_input in Heq. apply app_inv_head in Heq. left.
  destruct e as [s flag]. cbn [fst snd] in Heq. destruct flag.
  - apply hashed_right in Heq; [subst v; exact Hb|exact Hv|apply HL, Hb].
  - apply hashed_left in Heq as [-> _]; [exact Ha|exact Hv|apply HL, Ha].
Qed.

Lemma fold_down (L0 : list value_type) (entries : Proof) :
  Forall hashed L0 ->
  forall (i : nat) v, hashed v ->
    (forall (j : nat) x, (i <= j < i + length entries)%nat ->
       x ∈ pair_inputs (even_up (level j L0)) -> x ∈ inputs) ->
    (forall x, x ∈ step_inputs entries v -> x ∈ inputs) ->
    fold_left proof_step entries v ∈ level (i + length entries) L0 ->
    v ∈ level i L0 \/ collision_among inputs.
Proof.
  intros HL0. induction entries as [|e entries IH]; intros i v Hv Hpairs Hsteps Hin.
  - cbn [fold_left length] in Hin. rewrite Nat.add_0_r in Hin. left. exact Hin.
  - cbn [fold_left length step_inputs] in *.
    replace (i + S (length entries))%nat with (S i + length entries)%nat in Hin by lia.
    destruct (IH (S i) _ (proof_step_hashed v e)) as [Hup|Hcol];
      [intros j x Hj; apply Hpairs; lia
      |intros x Hx; apply Hsteps; right; exact Hx
      |exact Hin| |right; exact Hcol].
    rewrite level_succ in Hup.
    apply (step_down (level i L0) v e);
      [apply hashed_level, HL0|exact Hv| | |exact Hup].
    + intros x Hx. apply (Hpairs i); [lia|exact Hx].
    + apply Hsteps. left.
Qed.

Lemma step_inputs_app (pre post : Proof) v :
  step_inputs (pre ++ post) v
    = step_inputs pre v ++ step_inputs post (fold_left proof_step pre v).
Proof.
  revert v. induction pre as [|e pre IH]; intros v; [reflexivity|].
  cbn [app step_inputs fold_left]. rewrite IH. reflexivity.
Qed.

(** The fold over the entries ends in the top of the tree over the items
    only from the leaf hash of an item, whatever the number of
    entries. *)
Lemma fold_sound (items : list Item) (k : nat) (top : value_type)
    (entries : Proof) (d : Item) :
  (forall x, x ∈ build_inputs k items -> x ∈ inputs) ->
  (forall x, x ∈ fold_inputs entries d -> x ∈ inputs) ->
  level k (leaf_hashes items) = [top] ->
  fold_left proof_step entries (leaf_hash [d]) = top ->
  d ∈ items \/ collision_among inputs.
Proof.
  intros Hbuild Hfold_in Htop Hfold.
  pose proof (hashed_leaf_hashes items) as HL0.
  assert (Hleaves : forall x, x ∈ items -> int_bytes leaf_salt ++ x ∈ inputs).
  { intros x Hx. apply Hbuild. unfold build_inputs, leaf_inputs.
    rewrite elem_of_app. left.
    apply (list_elem_of_fmap_2 (fun y => int_bytes leaf_salt ++ y)), Hx. }
  assert (Hnodes : forall (j : nat) x, (j < k)%nat ->
             x ∈ pair_inputs (even_up (level j (leaf_hashes items))) -> x ∈ inputs).
  { intros j x Hj Hx. apply Hbuild. unfold build_inputs.
    rewrite elem_of_app. right. apply (node_inputs_level k _ j); assumption. }
  assert (Hd : int_bytes leaf_salt ++ d ∈ inputs) by (apply Hfold_in; left).
  assert (Hsteps : forall x, x ∈ step_inputs entries (leaf_hash [d]) -> x ∈ inputs).
  { intros x Hx. apply Hfold_in. right. exact Hx. }
  destruct (le_lt_dec (length entries) k) as [Hle|Hgt].
  - destruct (fold_down _ entries HL0 (k - length entries) _ (leaf_hash_hashed d))
      as [Hin|Hcol]; [| | | |right; exact Hcol].
    + intros j x Hj. apply Hnodes. lia.
    + exact Hsteps.
    + replace (k - length entries + length entries)%nat with k by lia.
      rewrite Htop, Hfold. left.
    + destruct (k - length entries)%nat as [|i] eqn:Hi.
      * cbn [level] in Hin. unfold leaf_hashes in Hin.
        apply list_elem_of_fmap in Hin as (x & Heq & Hx).
        rewrite !leaf_hash_eq in Heq.
        apply same_hash in Heq as [Heq|Hcol];
          [|right; exact Hcol|exact Hd|apply Hleaves, Hx].
        apply app_inv_head in Heq. subst x. left. exact Hx.
      * right. rewrite level_succ in Hin.
        apply elem_of_pair_up in Hin as (a & b & _ & _ & Heq & Hinput).
        rewrite leaf_hash_eq in Heq.
        apply (leaf_is_no_node _ _ Hd (Hnodes i _ ltac:(lia) Hinput) Heq).
  - right.
    assert (Hne : take (length entries - k) entries <> []).
    { intros Hnil. apply (f_equal length) in Hnil. rewrite length_take in Hnil.
      cbn [length] in Hnil. lia. }
    destruct (exists_last Hne) as (pre & e & Hpre).
    rewrite <- (take_drop (length entries - k) entries) in Hfold, Hsteps.
    rewrite Hpre in Hfold, Hsteps.
    rewrite fold_left_app in Hfold. rewrite !step_inputs_app in Hsteps.
    rewrite fold_left_app in Hfold, Hsteps. cbn [fold_left step_inputs] in Hfold, Hsteps.
    set (v0 := fold_left proof_step pre (leaf_hash [d])) in *.
    destruct (fold_down _ (drop (length entries - k) entries) HL0 0%nat
                (proof_step v0 e))
      as [Hin|Hcol]; [apply proof_step_hashed| | | | |exact Hcol].
    + intros j x Hj. apply Hnodes. rewrite length_drop in Hj. lia.
    + intros x Hx. apply Hsteps. rewrite !elem_of_app. right. exact Hx.
    + rewrite length_drop.
      replace (0 + (length entries - (length entries - k)))%nat with k by lia.
      rewrite Htop, Hfold. left.
    + cbn [level] in Hin. unfold leaf_hashes in Hin.
      apply list_elem_of_fmap in Hin as (y & Heq & Hy).
      rewrite proof_step_eq, leaf_hash_eq in Heq. symmetry in Heq.
      unfold step_input in Heq.
      refine (leaf_is_no_node _ _ (Hleaves y Hy) _ Heq).
      apply Hsteps. rewrite !elem_of_app. left. right. left.
Qed.

(** *** Two trees with the same top *)

Lemma pair_up_inj E :
  forall E', Forall hashed E -> Forall hashed E' ->
    length E = length E' -> (length E mod 2 = 0)%nat ->
    (forall x, x ∈ pair_inputs E -> x ∈ inputs) ->
    (forall x, x ∈ pair_inputs E' -> x ∈ inputs) ->
    pair_up E = pair_up E' -> E = E' \/ collision_among inputs.
Proof.
  induction E as [E IH] using (induction_ltof1 _ (@length _)); unfold ltof in IH.
  intros E' HE HE' Hlen Heven HS HS' Heq.
  destruct E as [|a [|b rest]]; destruct E' as [|a' [|b' rest']];
    cbn [length] in Hlen, Heven; try discriminate Hlen; try discriminate Heven.
  - left. reflexivity.
  - cbn [pair_up] in Heq. injection Heq as Hhead Htail.
    cbn [pair_inputs] in HS, HS'.
    apply Forall_cons_1 in HE as [Ha HE]. apply Forall_cons_1 in HE as [Hb HE].
    apply Forall_cons_1 in HE' as [Ha' HE']. apply Forall_cons_1 in HE' as [Hb' HE'].
    destruct (IH rest ltac:(cbn [length]; lia) rest' HE HE') as [->|Hcol];
      [lia|lia|intros x Hx; apply HS; right; exact Hx
      |intros x Hx; apply HS'; right; exact Hx|exact Htail| |right; exact Hcol].
    rewrite !node_hash_eq in Hhead.
    apply same_hash in Hhead as [Hhead|Hcol];
      [|right; exact Hcol|apply HS; left|apply HS'; left].
    apply app_inv_head in Hhead.
    pose proof (hashed_right _ _ _ _ Hb Hb' Hhead) as ->.
    apply hashed_left in Hhead as [-> _]; [|exact Ha|exact Ha'].
    left. reflexivity.
Qed.

Lemma even_up_inj L L' : length L = length L' -> even_up L = even_up L' -> L = L'.
Proof.
  intros Hlen Heq. unfold even_up in Heq. rewrite <- Hlen in Heq.
  destruct (Nat.odd (length L)); [|exact Heq].
  apply app_inj_1 in Heq as [Heq _]; assumption.
Qed.

Lemma level_inj (k : nat) :
  forall L L', Forall hashed L -> Forall hashed L' -> length L = length L' ->
    (forall x, x ∈ node_inputs k L -> x ∈ inputs) ->
    (forall x, x ∈ node_inputs k L' -> x ∈ inputs) ->
    level k L = level k L' -> L = L' \/ collision_among inputs.
Proof.
  induction k as [|k IH]; intros L L' HL HL' Hlen HS HS' Heq; [left; exact Heq|].
  cbn [level] in Heq. cbn [node_inputs] in HS, HS'.
  assert (Hplen : length (parent_level L) = length (parent_level L'))
    by (rewrite !length_parent_level, Hlen; reflexivity).
  destruct (IH _ _ (hashed_pair_up _) (hashed_pair_up _) Hplen) as [Hpar|Hcol];
    [intros x Hx; apply HS; rewrite elem_of_app; right; exact Hx
    |intros x Hx; apply HS'; rewrite elem_of_app; right; exact Hx
    |exact Heq| |right; exact Hcol].
  unfold parent_level in Hpar.
  apply pair_up_inj in Hpar as [Hev|Hcol];
    [left; apply even_up_inj; assumption|right; exact Hcol
    |apply hashed_even_up, HL|apply hashed_even_up, HL'
    |rewrite !length_even_up, Hlen; reflexivity|apply even_up_even
    |intros x Hx; apply HS; rewrite elem_of_app; left; exact Hx
    |intros x Hx; apply HS'; rewrite elem_of_app; left; exact Hx].
Qed.

Lemma leaf_hashes_inj (items : list Item) :
  forall items',
    (forall x, x ∈ leaf_inputs items -> x ∈ inputs) ->
    (forall x, x ∈ leaf_inputs items' -> x ∈ inputs) ->
    leaf_hashes items = leaf_hashes items' ->
    items = items' \/ collision_among inputs.
Proof.
  induction items as [|x items IH]; intros [|x' items'] HS HS' Heq;
    try discriminate Heq; [left; reflexivity|].
  cbn in Heq. injection Heq as Hhead Htail.
  cbn [leaf_inputs fmap list_fmap] in HS, HS'.
  destruct (IH items') as [->|Hcol];
    [intros y Hy; apply HS; right; exact Hy
    |intros y Hy; apply HS'; right; exact Hy|exact Htail| |right; exact Hcol].
  change (leaf_hash [x] = leaf_hash [x']) in Hhead.
  rewrite !leaf_hash_eq in Hhead.
  apply same_hash in Hhead as [Hhead|Hcol];
    [|right; exact Hcol|apply HS; left|apply HS'; left].
  apply app_inv_head in Hhead. subst x'. left. reflexivity.
Qed.

End Collisions.

Section LoopResults.

Context {H : Hasher}.

(** What the loop over the entries returns, when it returns, is their
    fold. *)
Lemma verify_proof_loop_result (entries : Proof) :
  forall (pre post : Proof) (curr v : value_type),
    verify_proof_loop (pre ++ entries ++ post) (length entries)
        (Z.of_nat (length pre)) curr = Some v ->
    v = fold_left proof_step entries curr.
Proof.
  induction entries as [|e entries IH]; intros pre post curr v.
  - cbn. intros [= <-]. reflexivity.
  - cbn [length verify_proof_loop fold_left].
    rewrite (load_middle pre e (entries ++ post)) by reflexivity.
    cbn [mbind option_bind].
    destruct (Z.of_nat (length pre) <? INT_MAX); [|discriminate].
    replace (pre ++ (e :: entries) ++ post) with ((pre ++ [e]) ++ entries ++ post)
      by (rewrite <- app_assoc; reflexivity).
    replace (Z.of_nat (length pre) + 1) with (Z.of_nat (length (pre ++ [e])))
      by (rewrite length_app; cbn [length]; lia).
    apply IH.
Qed.

Lemma test_loop_result (entries post : Proof) (curr v : value_type) :
  MerkleTest.test_loop (entries ++ post) (length entries) 0 curr = Some v ->
  v = fold_left proof_step entries curr.
Proof.
  rewrite test_loop_verify_loop.
  apply (verify_proof_loop_result entries [] post).
Qed.

End LoopResults.

Lemma test_hasher_plain : plain_hashes (H := TestHasher.hasher) 8.
Proof.
  split.
  - intros x. apply length_le_bytes.
  - intros x y Heq. exact Heq.
Qed.

(** X12.  What a proof that folds to the root says, for a hasher whose
    hashes are copied as a fixed number of bytes: if the loop of the proof
    tests, run from the leaf hash of [d] over entries of any number, ends
    in the root of the tree built from [items], then [d] is one of the
    items, or two different byte strings with the same hash are among
    those that [build] and the loop hashed. *)
Theorem folded_proof_sound `{H : Hasher} (w : nat) (T0 T : FixedSizeTree)
    (items : list Item) (r : value_type) (d : Item) (entries : Proof)
    (flag : bool) :
  plain_hashes w ->
  well_sized T0 -> Z.of_nat (length items) = LEAFS_N T0 ->
  2 <= LEAFS_N T0 < UINT32_MOD ->
  build T0 items = Some T -> root T = Some r ->
  MerkleTest.test_loop (entries ++ [(r, flag)]) (length entries) 0 (leaf_hash [d])
    = Some r ->
  d ∈ items \/
  collision_among (build_inputs (Z.to_nat (tree_height T)) items
                     ++ fold_inputs entries d).
Proof.
  intros Hplain Hws Hitems Hrange Hbuild Hroot Hloop.
  rewrite (build_built T0 items Hws Hitems Hrange) in Hbuild.
  injection Hbuild as <-.
  pose proof (built_flat T0 items Hitems Hrange) as Hflat.
  destruct (built_top _ _ _ Hflat) as [top Htop].
  rewrite (built_root _ _ _ Hflat top) in Hroot by (rewrite Htop; reflexivity).
  injection Hroot as <-.
  apply test_loop_result in Hloop. symmetry in Hloop.
  unfold tree_height, get_leafs_n. cbn [LEAFS_N built_tree].
  apply (fold_sound w Hplain _ items (Z.to_nat (height (LEAFS_N T0))) top entries d);
    [| |exact Htop|exact Hloop].
  - intros x Hx. rewrite elem_of_app. left. exact Hx.
  - intros x Hx. rewrite elem_of_app. right. exact Hx.
Qed.

Lemma folded_proof_sound_witness :
  let H := TestHasher.hasher in
  str "BB" ∈ [str "Aa"; str "rhs"] \/
  collision_among (build_inputs 1 [str "Aa"; str "rhs"]
                     ++ fold_inputs [(leaf_hash [str "rhs"], false)] (str "BB")).
Proof.
  cbn zeta.
  pose (lhs := leaf_hash (H := TestHasher.hasher) [str "Aa"]).
  pose (rhs := leaf_hash (H := TestHasher.hasher) [str "rhs"]).
  pose (top := node_hash (H := TestHasher.hasher) [lhs; rhs]).
  apply (folded_proof_sound (H := TestHasher.hasher) 8
           (declared 2 (replicate 3 value_init))
           (mkTree TestHasher.hasher 2 [lhs; rhs; top])
           [str "Aa"; str "rhs"] top (str "BB") [(rhs, false)] false).
  - exact test_hasher_plain.
  - split; [split; [discriminate|reflexivity]|reflexivity].
  - reflexivity.
  - split; [discriminate|reflexivity].
  - reflexivity.
  - reflexivity.
  - reflexivity.
Defined.

(** X13.  The root binds the items, for a hasher whose hashes are copied
    as a fixed number of bytes: two trees of the same declared size, built
    from item lists of that size, have the same root only if the lists are
    equal, or two different byte strings with the same hash are among
    those that the two runs of [build] hashed. *)
Theorem root_binds_items `{H : Hasher} (w : nat) (T0 T T' : FixedSizeTree)
    (items items' : list Item) :
  plain_hashes w ->
  well_sized T0 -> 2 <= LEAFS_N T0 < UINT32_MOD ->
  Z.of_nat (length items) = LEAFS_N T0 ->
  Z.of_nat (length items') = LEAFS_N T0 ->
  build T0 items = Some T -> build T0 items' = Some T' ->
  root T = root T' ->
  items = items' \/
  collision_among (build_inputs (Z.to_nat (tree_height T)) items
                     ++ build_inputs (Z.to_nat (tree_height T')) items').
Proof.
  intros Hplain Hws Hrange Hitems Hitems' Hbuild Hbuild' Hroot.
  rewrite (build_built T0 items Hws Hitems Hrange) in Hbuild.
  rewrite (build_built T0 items' Hws Hitems' Hrange) in Hbuild'.
  injection Hbuild as <-. injection Hbuild' as <-.
  pose proof (built_flat T0 items Hitems Hrange) as Hflat.
  pose proof (built_flat T0 items' Hitems' Hrange) as Hflat'.
  destruct (built_top _ _ _ Hflat) as [top Htop].
  destruct (built_top _ _ _ Hflat') as [top' Htop'].
  rewrite (built_root _ _ _ Hflat top) in Hroot by (rewrite Htop; reflexivity).
  rewrite (built_root _ _ _ Hflat' top') in Hroot by (rewrite Htop'; reflexivity).
  injection Hroot as <-. rewrite <- Htop' in Htop.
  unfold tree_height, get_leafs_n. cbn [LEAFS_N built_tree].
  set (k := Z.to_nat (height (LEAFS_N T0))) in *.
  set (inputs := build_inputs k items ++ build_inputs k items').
  assert (Hin : forall x, x ∈ build_inputs k items -> x ∈ inputs)
    by (intros x Hx; apply elem_of_app; left; exact Hx).
  assert (Hin' : forall x, x ∈ build_inputs k items' -> x ∈ inputs)
    by (intros x Hx; apply elem_of_app; right; exact Hx).
  assert (Hlen : length (leaf_hashes items) = length (leaf_hashes items'))
    by (rewrite !length_leaf_hashes; lia).
  destruct (level_inj w Hplain inputs k _ _ (hashed_leaf_hashes items)
              (hashed_leaf_hashes items') Hlen) as [Hleaves|Hcol];
    [intros x Hx; apply Hin, elem_of_app; right; exact Hx
    |intros x Hx; apply Hin', elem_of_app; right; exact Hx
    |exact Htop| |right; exact Hcol].
  apply (leaf_hashes_inj inputs items items'); [| |exact Hleaves].
  - intros x Hx. apply Hin, elem_of_app. left. exact Hx.
  - intros x Hx. apply Hin', elem_of_app. left. exact Hx.
Qed.

Lemma root_binds_items_witness :
  let H := TestHasher.hasher in
  collision_among (build_inputs 1 [str "Aa"; str "rhs"]
                     ++ build_inputs 1 [str "BB"; str "rhs"]).
Proof.
  cbn zeta.
  pose (lhs := leaf_hash (H := TestHasher.hasher) [str "Aa"]).
  pose (rhs := leaf_hash (H := TestHasher.hasher) [str "rhs"]).
  pose (top := node_hash (H := TestHasher.hasher) [lhs; rhs]).
  destruct (root_binds_items (H := TestHasher.hasher) 8
              (declared 2 (replicate 3 value_init))
              (mkTree TestHasher.hasher 2 [lhs; rhs; top])
              (mkTree TestHasher.hasher 2 [lhs; rhs; top])
              [str "Aa"; str "rhs"] [str "BB"; str "rhs"]) as [Hsame|Hcol].
  - exact test_hasher_plain.
  - split; [split; [discriminate|reflexivity]|reflexivity].
  - split; [discriminate|reflexivity].
  - reflexivity.
  - reflexivity.
  - reflexivity.
  - reflexivity.
  - reflexivity.
  - discriminate Hsame.
  - exact Hcol.
Defined.

(** ** The byte strings behind the stored hashes *)

Section StoredHashes.

Context {H : Hasher}.
Implicit Types (L E : list value_type) (v : value_type).

Lemma hash_pair_inputs E : m_hash <$> pair_inputs E = pair_up E.
Proof.
  induction E as [E IH] using (induction_ltof1 _ (@length _)); unfold ltof in IH.
  destruct E as [|a [|b rest]]; [reflexivity..|].
  cbn [pair_inputs pair_up fmap list_fmap].
  rewrite <- node_hash_eq. f_equal. apply IH. cbn [length]. lia.
Qed.

Lemma hash_leaf_inputs (items : list Item) :
  m_hash <$> leaf_inputs items = leaf_hashes items.
Proof.
  unfold leaf_inputs, leaf_hashes. rewrite <- list_fmap_compose.
  apply list_fmap_ext. intros i x _. cbn. symmetry. apply leaf_hash_eq.
Qed.

Lemma even_up_elem_of L v : v ∈ even_up L <-> v ∈ L.
Proof.
  split.
  - unfold even_up. destruct (Nat.odd (length L)); [|tauto].
    destruct (list.last L) as [x|] eqn:Hlast; [|rewrite app_nil_r; tauto].
    rewrite elem_of_app, list_elem_of_singleton. intros [Hin| ->]; [exact Hin|].
    rewrite last_lookup in Hlast. eapply list_elem_of_lookup_2, Hlast.
  - unfold even_up. destruct (Nat.odd (length L)); [|tauto].
    intros Hin. apply elem_of_app. left. exact Hin.
Qed.

Lemma hash_node_inputs (k : nat) : forall L v,
  v ∈ m_hash <$> node_inputs k L <->
  exists i : nat, (i < k)%nat /\ v ∈ level (S i) L.
Proof.
  induction k as [|k IH]; intros L v.
  - cbn. split; [intros Hin; apply elem_of_nil in Hin; contradiction|].
    intros (i & Hi & _). lia.
  - cbn [node_inputs]. rewrite fmap_app, elem_of_app, hash_pair_inputs, IH.
    split.
    + intros [Hin|(i & Hi & Hin)].
      * exists 0%nat. split; [lia|exact Hin].
      * exists (S i). split; [lia|exact Hin].
    + intros (i & Hi & Hin). destruct i as [|i].
      * left. exact Hin.
      * right. exists i. split; [lia|exact Hin].
Qed.

Lemma flat_tree_elem_of (k : nat) : forall L v,
  v ∈ flat_tree k L <-> exists i : nat, (i <= k)%nat /\ v ∈ level i L.
Proof.
  induction k as [|k IH]; intros L v.
  - change (flat_tree 0 L) with L. split.
    + intros Hin. exists 0%nat. split; [lia|exact Hin].
    + intros (i & Hi & Hin). assert (i = 0%nat) as -> by lia. exact Hin.
  - rewrite flat_tree_S, elem_of_app, even_up_elem_of, IH. split.
    + intros [Hin|(i & Hi & Hin)].
      * exists 0%nat. split; [lia|exact Hin].
      * exists (S i). split; [lia|exact Hin].
    + intros (i & Hi & Hin). destruct i as [|i].
      * left. exact Hin.
      * right. exists i. split; [lia|exact Hin].
Qed.

End StoredHashes.

(** X21.  The hashes that [build] leaves in the storage, for the declared
    number of items, two or more and fewer than 2^32, are the hashes of the
    byte strings [build_inputs]: every stored hash is the hash of the leaf
    salt followed by an item, or the hash of the node salt followed by the
    bytes of two neighbours of a level below, and the hash of every such
    byte string is stored. *)
Theorem stored_hashes_of_inputs `{H : Hasher} (T0 : FixedSizeTree)
    (items : list Item) :
  well_sized T0 -> Z.of_nat (length items) = LEAFS_N T0 ->
  2 <= LEAFS_N T0 < UINT32_MOD ->
  exists T, build T0 items = Some T /\
    forall v : value_type,
      v ∈ m_data T <->
      exists x : list byte,
        x ∈ build_inputs (Z.to_nat (tree_height T)) items /\ v = m_hash x.
Proof.
  intros Hws Hitems Hrange. exists (built_tree T0 items).
  split; [apply build_built; assumption|].
  intros v. unfold tree_height, get_leafs_n. cbn [m_data LEAFS_N built_tree].
  set (k := Z.to_nat (height (LEAFS_N T0))).
  rewrite flat_tree_elem_of. unfold build_inputs. split.
  - intros (i & Hi & Hin). destruct i as [|i].
    + cbn [level] in Hin. rewrite <- hash_leaf_inputs in Hin.
      apply list_elem_of_fmap in Hin as (x & -> & Hx).
      exists x. split; [apply elem_of_app; left; exact Hx|reflexivity].
    + assert (Hnode : v ∈ m_hash <$> node_inputs k (leaf_hashes items)).
      { apply hash_node_inputs. exists i. split; [lia|exact Hin]. }
      apply list_elem_of_fmap in Hnode as (x & -> & Hx).
      exists x. split; [apply elem_of_app; right; exact Hx|reflexivity].
  - intros (x & Hx & ->). apply elem_of_app in Hx as [Hx|Hx].
    + exists 0%nat. split; [lia|]. cbn [level]. rewrite <- hash_leaf_inputs.
      apply list_elem_of_fmap_2, Hx.
    + assert (Hnode : m_hash x ∈ m_hash <$> node_inputs k (leaf_hashes items))
        by (apply list_elem_of_fmap_2, Hx).
      apply hash_node_inputs in Hnode as (i & Hi & Hin).
      exists (S i). split; [lia|exact Hin].
Qed.

Lemma stored_hashes_of_inputs_witness :
  let H := TestHasher.hasher in
  exists T,
    build (declared 2 (replicate 3 value_init)) [str "lhs"; str "rhs"] = Some T /\
    forall v, v ∈ m_data T <->
      exists x, x ∈ build_inputs (Z.to_nat (tree_height T)) [str "lhs"; str "rhs"] /\
                v = m_hash x.
Proof.
  cbn zeta.
  apply (stored_hashes_of_inputs (H := TestHasher.hasher)
           (declared 2 (replicate 3 value_init)) [str "lhs"; str "rhs"]).
  - split; [split; [discriminate|reflexivity]|reflexivity].
  - reflexivity.
  - split; [discriminate|reflexivity].
Defined.
(** ** operator<< *)

Section PrintFacts.

Context {H : Hasher}.
Implicit Types (L S : list value_type) (os : list token).

Lemma hashes_written_app os1 os2 :
  hashes_written (os1 ++ os2) = hashes_written os1 ++ hashes_written os2.
Proof. apply omap_app. Qed.

Lemma hashes_written_entries S : hashes_written (flat_map entry_tokens S) = S.
Proof.
  induction S as [|v S IH]; [reflexivity|].
  cbn [flat_map entry_tokens app]. unfold hashes_written in *.
  cbn [omap list_omap]. rewrite IH. reflexivity.
Qed.

(** The loop over the entries of a layer writes the hashes it finds in
    the slots from [ldata] on. *)
Lemma print_entries_spec (T : FixedSizeTree) (ldata : Z) S2 : forall S1 os,
  0 <= ldata ->
  (forall x : nat, (x < length (S1 ++ S2))%nat ->
     m_data T !! Z.to_nat (ldata + Z.of_nat x) = (S1 ++ S2) !! x) ->
  Z.of_nat (length (S1 ++ S2)) <= INT_MAX ->
  print_entries T ldata (length S2) (Z.of_nat (length S1)) os
    = Some (os ++ flat_map entry_tokens S2).
Proof.
  assert (HI : INT_MAX = 2147483647) by reflexivity.
  induction S2 as [|v S2 IH]; intros S1 os Hnn Hslots Hmax.
  - cbn. rewrite app_nil_r. reflexivity.
  - cbn [length print_entries flat_map].
    rewrite length_app in Hmax. cbn [length] in Hmax.
    unfold load.
    destruct (Z.ltb_spec (ldata + Z.of_nat (length S1)) 0) as [|_]; [lia|].
    rewrite Hslots by (rewrite length_app; cbn [length]; lia).
    rewrite lookup_app_r, Nat.sub_diag by lia. cbn [lookup list_lookup].
    cbn [mbind option_bind].
    destruct (Z.ltb_spec (Z.of_nat (length S1)) INT_MAX) as [_|]; [|lia].
    replace (Z.of_nat (length S1) + 1) with (Z.of_nat (length (S1 ++ [v])))
      by (rewrite length_app; cbn [length]; lia).
    rewrite IH.
    + rewrite <- app_assoc. reflexivity.
    + exact Hnn.
    + rewrite <- app_assoc. exact Hslots.
    + rewrite !length_app. cbn [length]. lia.
Qed.

Lemma flat_tree_levels (k : nat) : forall L,
  flat_tree k L
    = List.concat (map (fun i => even_up (level i L)) (seq 0 k)) ++ level k L.
Proof.
  induction k as [|k IH]; intros L; [reflexivity|].
  rewrite flat_tree_S, IH. cbn [seq map List.concat level].
  rewrite <- seq_shift, map_map, <- app_assoc. reflexivity.
Qed.

Variable T : FixedSizeTree.
Variable L0 : list value_type.
Variable h : nat.
Hypothesis Hflat : flat_built T L0 h.
Hypothesis Hint : LEAFS_N T < INT_MAX.

Local Abbreviation stored_level := (stored_level L0 h).
Local Abbreviation printed_layer := (printed_layer L0 h).

Lemma print_layers_spec (count : nat) : forall (i : nat) os,
  (i + count = S h)%nat ->
  print_layers T count (Z.of_nat i) os
    = Some (os ++ flat_map printed_layer (seq i count)).
Proof.
  destruct Hflat as (Hrange & HL0 & Hlv & Hdata).
  pose proof (built_height T L0 h Hflat) as Hheight.
  pose proof (built_h_bound T L0 h Hflat) as Hh.
  destruct (built_top T L0 h Hflat) as [top Htop].
  assert (HI : INT_MAX = 2147483647) by reflexivity.
  induction count as [|c IH]; intros i os Hi.
  - cbn. rewrite app_nil_r. reflexivity.
  - cbn [print_layers seq flat_map]. unfold tree_height, get_leafs_n.
    rewrite Hheight.
    rewrite u64_small by (rewrite UINT64_MOD_eq; lia).
    rewrite (get_layer_level T Hrange) by lia.
    rewrite Hheight.
    replace (Z.to_nat (Z.of_nat h - (Z.of_nat h - Z.of_nat i))) with i by lia.
    assert (Hlen : (if Z.of_nat h - Z.of_nat i =? 0 then 1
                    else evened (level_len i (LEAFS_N T)))
                   = Z.of_nat (length (stored_level i))).
    { unfold stored_level.
      destruct (Z.eqb_spec (Z.of_nat h - Z.of_nat i) 0) as [Hz|Hnz];
        destruct (Nat.eqb_spec i h) as [->|Hne]; try lia.
      - rewrite Htop. reflexivity.
      - rewrite length_even_up_Z, length_level, HL0. reflexivity. }
    rewrite Hlen, Nat2Z.id.
    assert (Hsmall : Z.of_nat (length (stored_level i)) <= INT_MAX).
    { rewrite <- Hlen. destruct (_ =? 0); [lia|].
      pose proof (level_len_nonneg i (LEAFS_N T) ltac:(lia)).
      pose proof (evened_bounds (level_len i (LEAFS_N T))). lia. }
    pose proof (print_entries_spec T (layer_start i (LEAFS_N T)) (stored_level i) []
                  (os ++ layer_header (Z.of_nat h - Z.of_nat i)
                                      (Z.of_nat (length (stored_level i)))))
      as Hentries.
    cbn [app length] in Hentries. change (Z.of_nat 0) with 0 in Hentries.
    rewrite Hentries; [| |intros x Hx|exact Hsmall].
    + cbn [mbind option_bind].
      destruct (Z.ltb_spec (Z.of_nat i) INT_MAX) as [_|]; [|lia].
      replace (Z.of_nat i + 1) with (Z.of_nat (S i)) by lia.
      rewrite IH by lia. unfold printed_layer at 2.
      replace (Z.of_nat (h - i)) with (Z.of_nat h - Z.of_nat i) by lia.
      rewrite <- !app_assoc. reflexivity.
    + apply layer_start_nonneg. lia.
    + rewrite Hdata, <- HL0. unfold stored_level in *.
      destruct (Nat.eqb_spec i h) as [->|Hne].
      * rewrite Htop in Hx. cbn [length] in Hx.
        assert (x = 0%nat) as -> by lia. rewrite Z.add_0_r.
        apply flat_tree_lookup_top.
      * apply flat_tree_lookup_level; [lia|exact Hx].
Qed.

Lemma printed_hashes (lvls : list nat) :
  hashes_written (flat_map printed_layer lvls)
    = List.concat (map stored_level lvls).
Proof.
  induction lvls as [|lvl lvls IH]; [reflexivity|].
  cbn [flat_map map List.concat]. rewrite hashes_written_app, IH.
  unfold printed_layer at 1.
  rewrite hashes_written_app, hashes_written_entries. reflexivity.
Qed.

Lemma stored_levels_flat :
  List.concat (map stored_level (seq 0 (S h))) = flat_tree h L0.
Proof.
  rewrite flat_tree_levels, seq_S, map_app, List.concat_app.
  cbn [map List.concat Nat.add]. unfold stored_level at 2.
  rewrite Nat.eqb_refl, app_nil_r. f_equal. f_equal.
  apply map_ext_in. intros lvl Hin. apply in_seq in Hin.
  unfold stored_level. destruct (Nat.eqb_spec lvl h); [lia|reflexivity].
Qed.

End PrintFacts.

(** X16.  Printing a tree built from the declared number of items, two or
    more and fewer than [INT_MAX]: after the title come the layers from
    the leaves ([Layer height]) to the root ([Layer 0]), each with its
    number, the number of its entries and its hashes one a line; the hashes
    written are the stored hashes, each once, in the order of the
    storage. *)
Theorem print_built_tree `{H : Hasher} (T0 : FixedSizeTree) (items : list Item)
    (os : list token) :
  well_sized T0 -> Z.of_nat (length items) = LEAFS_N T0 ->
  2 <= LEAFS_N T0 < INT_MAX ->
  exists T out,
    build T0 items = Some T /\
    operator_lshift os T = Some (os ++ out) /\
    hashes_written out = m_data T /\
    out = Text "Merkle tree:\n"
          :: flat_map (printed_layer (leaf_hashes items) (Z.to_nat (tree_height T)))
               (seq 0 (S (Z.to_nat (tree_height T)))).
Proof.
  intros Hws Hitems Hint.
  assert (Hrange : 2 <= LEAFS_N T0 < UINT32_MOD).
  { change UINT32_MOD with 4294967296.
    assert (INT_MAX = 2147483647) by reflexivity. lia. }
  pose proof (build_built T0 items Hws Hitems Hrange) as Hbuild.
  pose proof (built_flat T0 items Hitems Hrange) as Hflat.
  set (T := built_tree T0 items) in *.
  set (h := Z.to_nat (height (LEAFS_N T0))) in *.
  pose proof (built_height T _ h Hflat) as Hheight.
  pose proof (print_layers_spec T _ h Hflat (proj2 Hint) (S h) 0
                (os ++ [Text "Merkle tree:\n"]) eq_refl) as Hprint.
  exists T, (Text "Merkle tree:\n"
             :: flat_map (printed_layer (leaf_hashes items) h) (seq 0 (S h))).
  split; [exact Hbuild|]. split; [|split].
  - unfold operator_lshift, tree_height, get_leafs_n. rewrite Hheight.
    replace (Z.to_nat (Z.of_nat h + 1)) with (S h) by lia.
    change (Z.of_nat 0) with 0 in Hprint. rewrite Hprint, <- app_assoc.
    reflexivity.
  - change (hashes_written (?t :: ?l)) with (hashes_written l).
    rewrite printed_hashes, stored_levels_flat. reflexivity.
  - reflexivity.
Qed.

Lemma print_built_tree_witness :
  let H := TestHasher.hasher in
  exists T out,
    build (declared 2 (replicate 3 value_init)) [str "lhs"; str "rhs"] = Some T /\
    operator_lshift [] T = Some out /\ hashes_written out = m_data T.
Proof.
  cbn zeta.
  destruct (print_built_tree (H := TestHasher.hasher)
              (declared 2 (replicate 3 value_init)) [str "lhs"; str "rhs"] [])
    as (T & out & Hbuild & Hprint & Hhashes & _).
  - split; [split; [discriminate|reflexivity]|reflexivity].
  - reflexivity.
  - split; [discriminate|reflexivity].
  - exists T, out. split; [exact Hbuild|]. split; [exact Hprint|exact Hhashes].
Defined.
(** ** The hashers of the tests and of the example *)

Section TestHasherFacts.

Lemma poly31_leading_zeros (x : list byte) :
  TestHasher.poly31 (int_bytes leaf_salt ++ x) = TestHasher.poly31 x.
Proof. unfold TestHasher.poly31. rewrite fold_left_app. reflexivity. Qed.

End TestHasherFacts.

(** X17.  With the hasher of the tests the leaf salt leaves no trace: its
    four zero bytes do not move the polynomial from 0, so the leaf hash of
    an item is the plain hash of the item, and the leaf hash of the empty
    item is the default hash. *)
Theorem test_hasher_leaf_salt :
  let H := TestHasher.hasher in
  (forall d : Item, leaf_hash [d] = m_hash d) /\
  leaf_hash [[]] = value_init /\
  ~ never_default.
Proof.
  cbn zeta.
  assert (Hleaf : forall d : Item,
             leaf_hash (H := TestHasher.hasher) [d] = m_hash d).
  { intros d. rewrite leaf_hash_eq. cbn [m_hash TestHasher.hasher].
    rewrite poly31_leading_zeros. reflexivity. }
  split; [exact Hleaf|]. split; [reflexivity|].
  intros Hnever. apply (Hnever leaf_salt []); [left; reflexivity|reflexivity].
Qed.

Section HasherMorphism.

Context (H1 H2 : Hasher).

Variable phi : @value_type H1 -> @value_type H2.
Hypothesis Hhash : forall x, phi (@m_hash H1 x) = @m_hash H2 x.
Hypothesis Hbytes : forall v, @value_bytes H2 (phi v) = @value_bytes H1 v.

Lemma leaf_hashes_morph (items : list Item) :
  phi <$> leaf_hashes (H := H1) items = leaf_hashes (H := H2) items.
Proof.
  unfold leaf_hashes. rewrite <- list_fmap_compose. apply list_fmap_ext.
  intros i x _. cbn. unfold leaf_hash. apply Hhash.
Qed.

Lemma pair_up_morph (L : list (@value_type H1)) :
  phi <$> pair_up L = pair_up (phi <$> L).
Proof.
  induction L as [L IH] using (induction_ltof1 _ (@length _)); unfold ltof in IH.
  destruct L as [|a [|b rest]]; [reflexivity..|].
  cbn [pair_up fmap list_fmap]. f_equal.
  - unfold node_hash. rewrite Hhash, !Hbytes. reflexivity.
  - apply IH. cbn [length]. lia.
Qed.

Lemma even_up_morph (L : list (@value_type H1)) :
  phi <$> even_up L = even_up (phi <$> L).
Proof.
  unfold even_up. rewrite length_fmap, fmap_last.
  destruct (Nat.odd (length L)); [|reflexivity].
  rewrite fmap_app. destruct (list.last L); reflexivity.
Qed.

Lemma level_morph (k : nat) : forall L : list (@value_type H1),
  phi <$> level k L = level k (phi <$> L).
Proof.
  induction k as [|k IH]; intros L; [reflexivity|].
  cbn [level]. rewrite IH. unfold parent_level.
  rewrite pair_up_morph, even_up_morph. reflexivity.
Qed.

Lemma flat_tree_morph (k : nat) : forall L : list (@value_type H1),
  phi <$> flat_tree k L = flat_tree k (phi <$> L).
Proof.
  induction k as [|k IH]; intros L; [reflexivity|].
  rewrite !flat_tree_S, fmap_app, IH, even_up_morph. unfold parent_level.
  rewrite pair_up_morph, even_up_morph. reflexivity.
Qed.

End HasherMorphism.

(** X18.  The tree depends on the hashes only through the bytes that the
    concatenator copies for them: for two hashers whose hashes correspond
    under a map [phi] that keeps these bytes, the trees built from the same
    items correspond slot by slot, and so do their roots.  The hasher of the
    example (a [uint64_t]) and the hasher of the tests (its eight bytes) are
    such a pair. *)
Theorem build_up_to_representation (H1 H2 : Hasher)
    (phi : @value_type H1 -> @value_type H2)
    (T1 : @FixedSizeTree H1) (T2 : @FixedSizeTree H2) (items : list Item) :
  (forall x, phi (@m_hash H1 x) = @m_hash H2 x) ->
  (forall v, @value_bytes H2 (phi v) = @value_bytes H1 v) ->
  well_sized T1 -> well_sized T2 -> LEAFS_N T2 = LEAFS_N T1 ->
  Z.of_nat (length items) = LEAFS_N T1 -> 2 <= LEAFS_N T1 < UINT32_MOD ->
  exists B1 B2,
    build T1 items = Some B1 /\ build T2 items = Some B2 /\
    phi <$> m_data B1 = m_data B2 /\
    phi <$> root B1 = root B2.
Proof.
  intros Hhash Hbytes Hws1 Hws2 HN Hitems Hrange.
  assert (Hitems2 : Z.of_nat (length items) = LEAFS_N T2) by congruence.
  assert (Hrange2 : 2 <= LEAFS_N T2 < UINT32_MOD) by (rewrite HN; exact Hrange).
  pose proof (build_built T1 items Hws1 Hitems Hrange) as Hb1.
  pose proof (build_built T2 items Hws2 Hitems2 Hrange2) as Hb2.
  pose proof (built_flat T1 items Hitems Hrange) as Hf1.
  pose proof (built_flat T2 items Hitems2 Hrange2) as Hf2.
  destruct (built_top _ _ _ Hf1) as [top1 Htop1].
  destruct (built_top _ _ _ Hf2) as [top2 Htop2].
  pose proof (built_root _ _ _ Hf1 top1 ltac:(rewrite Htop1; reflexivity)) as Hr1.
  pose proof (built_root _ _ _ Hf2 top2 ltac:(rewrite Htop2; reflexivity)) as Hr2.
  exists (built_tree T1 items), (built_tree T2 items).
  split; [exact Hb1|]. split; [exact Hb2|]. split.
  - cbn [m_data built_tree].
    rewrite (flat_tree_morph H1 H2 phi Hhash Hbytes), HN.
    rewrite (leaf_hashes_morph H1 H2 phi Hhash). reflexivity.
  - rewrite Hr1, Hr2. cbn [fmap option_fmap option_map]. f_equal.
    pose proof (level_morph H1 H2 phi Hhash Hbytes
                  (Z.to_nat (height (LEAFS_N T1))) (leaf_hashes items)) as Hlv.
    rewrite Htop1, (leaf_hashes_morph H1 H2 phi Hhash), <- HN, Htop2 in Hlv.
    injection Hlv as Hlv. exact Hlv.
Qed.

Lemma build_up_to_representation_witness :
  exists B1 B2,
    build (H := ExampleHasher.hasher) (declared 3 (replicate 7 value_init))
      [str "passwords.db"; str "users.txt"; str "raw_data.bin"] = Some B1 /\
    build (H := TestHasher.hasher) (declared 3 (replicate 7 value_init))
      [str "passwords.db"; str "users.txt"; str "raw_data.bin"] = Some B2 /\
    le_bytes 8 <$> root B1 = root B2.
Proof.
  destruct (build_up_to_representation ExampleHasher.hasher TestHasher.hasher
              (le_bytes 8)
              (declared 3 (replicate 7 value_init))
              (declared 3 (replicate 7 value_init))
              [str "passwords.db"; str "users.txt"; str "raw_data.bin"])
    as (B1 & B2 & Hb1 & Hb2 & _ & Hroot).
  - intros x. reflexivity.
  - intros v. reflexivity.
  - split; [split; [discriminate|reflexivity]|reflexivity].
  - split; [split; [discriminate|reflexivity]|reflexivity].
  - reflexivity.
  - reflexivity.
  - split; [discriminate|reflexivity].
  - exists B1, B2. split; [exact Hb1|]. split; [exact Hb2|exact Hroot].
Defined.
